(** * mse-playout: the ordered queue store, the stream sink and the scheduler

    A shallow embedding of [src/playlist.ts] (the IndexedDB backed queue),
    [src/playout-buffer.ts] (the SourceBuffer adapter) and [src/roll.ts]
    (upsert, ordering reconciliation and the buffering scheduler), followed
    by the properties proved about them.

    Conventions of the embedding.
    - A promise that rejects is a [result] carrying an [Error].
    - One IndexedDB transaction is one function from store to store.
    - Calls on an external collaborator (the SourceBuffer, the user's
      callbacks, the PlayoutBuffer seen from Roll) are recorded as a list of
      effects, in call order.
    - Integers that index the queue are [Z]; times in seconds are [Q], and
      where the code tests for NaN they are the extended numbers [JS.num]. *)

From Stdlib Require Import ZArith QArith Qminmax Lia Lqa List Bool String.
From Stdlib Require Import Sorting.Sorted.
From stdpp Require Import base option list gmap strings.

Local Open Scope Z_scope.

(* ================================================================== *)
(** ** JavaScript values held in metadata maps *)

Module JS.

(** The primitives a [Record<string, unknown>] holds after a structured
    clone; a missing key reads as [VUndefined]. *)
Inductive value : Type :=
| VUndefined
| VNull
| VBool (b : bool)
| VNum (n : Z)
| VStr (s : string).

#[global] Instance value_eq_dec : EqDecision value.
Proof. solve_decision. Defined.

(** [a !== b] on primitives is [negb (strict_eq a b)]. *)
Definition strict_eq (a b : value) : bool := bool_decide (a = b).

Definition truthy (v : value) : bool :=
  match v with
  | VUndefined | VNull => false
  | VBool b => b
  | VNum n => negb (n =? 0)
  | VStr s => negb (String.eqb s EmptyString)
  end.

(** [v ?? d] falls through on null and undefined only. *)
Definition nullish (v : value) : bool :=
  match v with
  | VUndefined | VNull => true
  | _ => false
  end.

(** [obj[key]] on a metadata object. *)
Definition get (m : gmap string value) (key : string) : value :=
  default VUndefined (m !! key).

(** A JavaScript number as the sink's [trim] sees it. *)
Inductive num : Type :=
| NaN
| NegInf
| Fin (q : Q)
| PosInf.

Definition isNaN (x : num) : bool :=
  match x with NaN => true | _ => false end.

(** [a <= b]; false as soon as one side is NaN. *)
Definition le (a b : num) : bool :=
  match a, b with
  | NaN, _ | _, NaN => false
  | NegInf, _ => true
  | _, PosInf => true
  | Fin x, Fin y => Qle_bool x y
  | Fin _, NegInf => false
  | PosInf, _ => false
  end.

(** [Math.max(a, b)]. *)
Definition max (a b : num) : num :=
  match a, b with
  | NaN, _ | _, NaN => NaN
  | _, _ => if le a b then b else a
  end.

Definition isFinite (x : num) : bool :=
  match x with Fin _ => true | _ => false end.

End JS.

(* ================================================================== *)
(** ** Promise results *)

Inductive Error : Type :=
| NotFound (id : Z)            (* "Item with id ... not found" *)
| InvalidIndices               (* "Invalid indices for reordering" *)
| LengthMismatch.              (* "Fields and values arrays must have the same length" *)

Inductive result (A : Type) : Type :=
| Ok (a : A)
| Err (e : Error).
Arguments Ok {A} a.
Arguments Err {A} e.

Definition rbind {A B} (r : result A) (k : A -> result B) : result B :=
  match r with
  | Ok a => k a
  | Err e => Err e
  end.

Notation "x <-? r ;; k" := (rbind r (fun x => k))
  (at level 100, r at next level, right associativity).

(* ================================================================== *)
(** ** [Array.prototype.sort] with a comparator *)

Section Sort.
Context {A : Type} (le : A -> A -> bool).

(** [le a b] stands for [cmp(a, b) <= 0].  The sort is stable, as
    ECMAScript requires: an element is placed before the first element
    it does not exceed, and elements are inserted from the right. *)
Fixpoint insertSorted (x : A) (l : list A) : list A :=
  match l with
  | [] => [x]
  | y :: l' => if le x y then x :: l else y :: insertSorted x l'
  end.

Definition sortBy (l : list A) : list A := foldr insertSorted [] l.

End Sort.

(* ================================================================== *)
(** ** playlist.ts *)

Module Playlist.

Definition ArrayBuffer : Type := list Byte.byte.

(** A [Blob]; [content] is what [FileReader.readAsArrayBuffer] yields,
    [None] when the read fails. *)
Record Blob : Type := { content : option ArrayBuffer }.

(** types/database.ts.  A row read back from the object store always
    carries its key ([keyPath: 'id']).  [blob] is optional because the
    scheduler guards against a row without one. *)
Record QueueItem : Type := {
  id : Z;
  blob : option Blob;
  queueIndex : Z;
  metadata : gmap string JS.value;
}.

Definition withQueueIndex (q : Z) (item : QueueItem) : QueueItem :=
  {| id := id item; blob := blob item; queueIndex := q;
     metadata := metadata item |}.

(** The object store: its records and its key generator. *)
Record Store : Type := {
  rows : list QueueItem;
  keyGen : Z;
}.

Definition emptyStore : Store := {| rows := []; keyGen := 1 |}.

(** [index.count()] / [store.count()]. *)
Definition count (s : Store) : Z := Z.of_nat (length (rows s)).

(** [store.get(id)]. *)
Definition getItem (i : Z) (s : Store) : option QueueItem :=
  find (fun r => id r =? i) (rows s).

(** [store.put(item)] for an item that carries its key: the record with
    that key is replaced, or created when there is none. *)
Definition put (item : QueueItem) (s : Store) : Store :=
  {| rows :=
       if existsb (fun r => id r =? id item) (rows s)
       then map (fun r => if id r =? id item then item else r) (rows s)
       else rows s ++ [item];
     keyGen := Z.max (keyGen s) (id item + 1) |}.

(** [store.delete(id)]. *)
Definition delete (i : Z) (s : Store) : Store :=
  {| rows := List.filter (fun r => negb (id r =? i)) (rows s);
     keyGen := keyGen s |}.

(** [shiftQueueIndices(transaction, fromIndex, shift)]: the cursor walks
    the records whose queueIndex is at least [fromIndex] and rewrites each
    one with [queueIndex + shift].  Each record of the range is taken to be
    visited once, as the loop is written. *)
Definition shiftQueueIndices (fromIndex shift : Z) (s : Store) : Store :=
  {| rows :=
       map (fun item =>
              if fromIndex <=? queueIndex item
              then withQueueIndex (queueIndex item + shift) item
              else item)
           (rows s);
     keyGen := keyGen s |}.

(** [add(blob, metadata, insertIndex?)]; the generated key is returned. *)
Definition add (b : Blob) (md : gmap string JS.value)
    (insertIndex : option Z) (s : Store) : Store * Z :=
  let maxIndex := count s in
  let queueIndex :=
    match insertIndex with
    | Some i => Z.max 0 (Z.min i maxIndex)
    | None => maxIndex
    end in
  let s1 :=
    match insertIndex with
    | Some i => if i <? maxIndex then shiftQueueIndices i 1 s else s
    | None => s
    end in
  let key := keyGen s1 in
  ({| rows := rows s1 ++
              [ {| id := key; blob := Some b; queueIndex := queueIndex;
                   metadata := md |} ];
      keyGen := key + 1 |},
   key).

(** [remove(id)]. *)
Definition remove (i : Z) (s : Store) : result Store :=
  match getItem i s with
  | None => Err (NotFound i)
  | Some item =>
      Ok (shiftQueueIndices (queueIndex item + 1) (-1) (delete i s))
  end.

(** The records in the order of the [queueIndex] index: by index key,
    then by primary key. *)
Definition indexOrder (a b : QueueItem) : bool :=
  (queueIndex a <? queueIndex b)
  || ((queueIndex a =? queueIndex b) && (id a <=? id b)).

Definition indexGetAll (s : Store) : list QueueItem :=
  sortBy indexOrder (rows s).

(** The comparator [(a, b) => a.queueIndex - b.queueIndex]. *)
Definition byQueueIndex (a b : QueueItem) : bool :=
  queueIndex a <=? queueIndex b.

(** [getAll()]. *)
Definition getAll (s : Store) : list QueueItem :=
  sortBy byQueueIndex (indexGetAll s).

(** [length()]. *)
Definition length (s : Store) : Z := count s.

(** [reorder(fromIndex, toIndex)].  The two assignments act on the array
    read from the index, so [fromIndex = toIndex] leaves the item as it
    was. *)
Definition reorder (fromIndex toIndex : Z) (s : Store) : result Store :=
  let items := getAll s in
  let n := Z.of_nat (List.length items) in
  if (fromIndex <? 0) || (n <=? fromIndex) || (toIndex <? 0) || (n <=? toIndex)
  then Err InvalidIndices
  else
    let f := Z.to_nat fromIndex in
    let t := Z.to_nat toIndex in
    match items !! f, items !! t with
    | Some a, Some b =>
        let temp := queueIndex a in
        let items1 := <[f := withQueueIndex (queueIndex b) a]> items in
        let items2 :=
          match items1 !! t with
          | Some b1 => <[t := withQueueIndex temp b1]> items1
          | None => items1
          end in
        match items2 !! f, items2 !! t with
        | Some x, Some y => Ok (put y (put x s))
        | _, _ => Err InvalidIndices
        end
    | _, _ => Err InvalidIndices
    end.

(** [Partial<QueueItem>] as the callers build it: a key is present or
    absent. *)
Record ItemUpdates : Type := {
  u_blob : option Blob;
  u_queueIndex : option Z;
  u_metadata : option (gmap string JS.value);
}.

(** [updatedItem]: [{...item, ...updates, metadata: updates.metadata ?
    {...item.metadata, ...updates.metadata} : item.metadata}]. *)
Definition updated (updates : ItemUpdates) (item : QueueItem) : QueueItem :=
  {| id := id item;
     blob := match u_blob updates with Some b => Some b | None => blob item end;
     queueIndex := default (queueIndex item) (u_queueIndex updates);
     metadata := match u_metadata updates with
                 | Some m => m ∪ metadata item
                 | None => metadata item
                 end |}.

(** [updateItem(id, updates)]. *)
Definition updateItem (i : Z) (updates : ItemUpdates) (s : Store)
    : result Store :=
  match getItem i s with
  | None => Err (NotFound i)
  | Some item => Ok (put (updated updates item) s)
  end.

(** [batchUpdateQueueIndices(updates)]: every [get] is issued before the
    first [put] runs, so each update reads the record as it was when the
    transaction started; the puts then run in order.  A missing id rejects
    the promise of that update only. *)
Definition batchUpdateQueueIndices (updates : list (Z * Z)) (s : Store)
    : Store * option Error :=
  foldl (fun acc u =>
           match getItem (fst u) s with
           | Some item => (put (withQueueIndex (snd u) item) (fst acc), snd acc)
           | None => (fst acc,
                      match snd acc with
                      | Some e => Some e
                      | None => Some (NotFound (fst u))
                      end)
           end)
        (s, None) updates.

(** Sequences of the three queue operations, from the empty store.  A
    rejected operation has changed nothing. *)
Inductive Op : Type :=
| OpAdd (b : Blob) (md : gmap string JS.value) (insertIndex : option Z)
| OpRemove (i : Z)
| OpReorder (fromIndex toIndex : Z).

Definition step (s : Store) (op : Op) : Store :=
  match op with
  | OpAdd b md ins => fst (add b md ins s)
  | OpRemove i => match remove i s with Ok s' => s' | Err _ => s end
  | OpReorder f t => match reorder f t s with Ok s' => s' | Err _ => s end
  end.

Definition run (ops : list Op) : Store := foldl step emptyStore ops.

Definition indices (s : Store) : list Z := map queueIndex (rows s).
Definition ids (s : Store) : list Z := map id (rows s).

(** *** Notions used in the statements about the store *)

(** Keys are unique and below the key generator. *)
Definition wf (s : Store) : Prop :=
  NoDup (ids s) /\ Forall (fun r => id r < keyGen s) (rows s).

(** The queue positions are pairwise distinct and lie in [0, count). *)
Definition contiguous (s : Store) : Prop :=
  NoDup (indices s) /\ Forall (fun q => 0 <= q < count s) (indices s).

(** What a shift does to one queue position. *)
Definition shiftIndex (fromIndex shift q : Z) : Z :=
  if fromIndex <=? q then q + shift else q.

(** The exchange of two queue positions. *)
Definition transpose (x y q : Z) : Z :=
  if q =? x then y else if q =? y then x else q.

(** *** The single-record updates, [isEmpty] and [clear] *)

(** [updateMetadata(id, metadata)]: [{...item, metadata:
    {...item.metadata, ...metadata}}] is put back. *)
Definition updateMetadata (i : Z) (md : gmap string JS.value) (s : Store)
    : result Store :=
  match getItem i s with
  | None => Err (NotFound i)
  | Some item =>
      Ok (put {| id := id item; blob := blob item;
                 queueIndex := queueIndex item;
                 metadata := md ∪ metadata item |} s)
  end.

(** [updateQueueIndex(id, newQueueIndex)]: [{...item, queueIndex:
    newQueueIndex}] is put back; no other record is touched. *)
Definition updateQueueIndex (i : Z) (newQueueIndex : Z) (s : Store)
    : result Store :=
  match getItem i s with
  | None => Err (NotFound i)
  | Some item => Ok (put (withQueueIndex newQueueIndex item) s)
  end.

(** [isEmpty()]. *)
Definition isEmpty (s : Store) : bool := length s =? 0.

(** [store.clear()]: the records go; the key generator keeps its value. *)
Definition clearStore (s : Store) : Store :=
  {| rows := []; keyGen := keyGen s |}.

(** *** The navigation cursor

    [currentIndex] is a field of the class; the methods below take its
    value and return the new one with their result.  Positions are
    integers. *)

(** [items[i]]: [undefined] outside the array. *)
Definition nth_item (items : list QueueItem) (i : Z) : option QueueItem :=
  if i <? 0 then None else items !! Z.to_nat i.

(** [current()]: [items[currentIndex] || null]. *)
Definition current (currentIndex : Z) (s : Store) : option QueueItem :=
  if currentIndex <? 0 then None else nth_item (getAll s) currentIndex.

(** [next(loop)]. *)
Definition next (loop : bool) (currentIndex : Z) (s : Store)
    : Z * option QueueItem :=
  let items := getAll s in
  let n := Z.of_nat (List.length items) in
  if n =? 0 then (-1, None)
  else if currentIndex <? n - 1
  then (currentIndex + 1, nth_item items (currentIndex + 1))
  else if loop then (0, nth_item items 0)
  else (currentIndex, None).

(** [previous(loop)]. *)
Definition previous (loop : bool) (currentIndex : Z) (s : Store)
    : Z * option QueueItem :=
  let items := getAll s in
  let n := Z.of_nat (List.length items) in
  if n =? 0 then (-1, None)
  else if 0 <? currentIndex
  then (currentIndex - 1, nth_item items (currentIndex - 1))
  else if loop then (n - 1, nth_item items (n - 1))
  else (currentIndex, None).

(** [jumpTo(index)]. *)
Definition jumpTo (index : Z) (currentIndex : Z) (s : Store)
    : Z * option QueueItem :=
  let items := getAll s in
  if (0 <=? index) && (index <? Z.of_nat (List.length items))
  then (index, nth_item items index)
  else (currentIndex, None).

(** [reset()]. *)
Definition reset : Z := -1.

(** [clear()]: the store is emptied and the cursor reset. *)
Definition clear (s : Store) : Store * Z := (clearStore s, -1).

(** A navigation step, and a sequence of them over a store that does not
    change; the results are collected in call order. *)
Inductive Nav : Type :=
| NavNext (loop : bool)
| NavPrevious (loop : bool)
| NavJumpTo (index : Z)
| NavReset.

Definition navigate (s : Store) (currentIndex : Z) (nav : Nav)
    : Z * option QueueItem :=
  match nav with
  | NavNext loop => next loop currentIndex s
  | NavPrevious loop => previous loop currentIndex s
  | NavJumpTo index => jumpTo index currentIndex s
  | NavReset => (reset, None)
  end.

(** [next(loop)] called [k] times; the result of the last call. *)
Fixpoint nextTimes (k : nat) (loop : bool) (currentIndex : Z) (s : Store)
    : Z * option QueueItem :=
  match k with
  | O => (currentIndex, None)
  | S k' => next loop (nextTimes k' loop currentIndex s).1 s
  end.

(** The cursor after a sequence of navigation steps. *)
Definition navigateAll (s : Store) (currentIndex : Z) (navs : list Nav) : Z :=
  foldl (fun c nav => (navigate s c nav).1) currentIndex navs.

(** [a] comes before [b] in the [queueIndex] index: by queue position,
    then by key. *)
Definition inOrder (a b : QueueItem) : Prop :=
  queueIndex a < queueIndex b \/ (queueIndex a = queueIndex b /\ id a <= id b).

End Playlist.

(* ================================================================== *)
(** ** types/segment.ts and playout-buffer.ts *)

Module PlayoutBuffer.

Definition ArrayBuffer : Type := Playlist.ArrayBuffer.

Record Variant : Type := {
  stream_id : JS.value;
  init : option ArrayBuffer;
}.

Record Segment : Type := {
  id : JS.value;
  data : option ArrayBuffer;
  variant : option Variant;
}.

(** [QueuedSegment]: a segment whose payload is present. *)
Record QueuedSegment : Type := {
  q_id : JS.value;
  q_data : ArrayBuffer;
  q_variant : option Variant;
  isInit : bool;
}.

Record Range : Type := {
  start : JS.num;
  end_ : JS.num;
}.

(** What a call of the adapter did to the SourceBuffer, in call order. *)
Inductive SinkCall : Type :=
| Appended (q : QueuedSegment)        (* appendBuffer returned *)
| AppendRejected (q : QueuedSegment)  (* appendBuffer threw *)
| Removed (r : Range)                 (* remove returned *)
| RemoveRejected (r : Range).         (* remove threw *)

Section Sink.
(** The SourceBuffer is an external collaborator: its state, its
    [updating] flag, and its two operations, which either return
    (the new state) or throw ([None]). *)
Context {SourceBuffer : Type}.
Context (updating : SourceBuffer -> bool).
Context (appendBuffer : ArrayBuffer -> SourceBuffer -> option SourceBuffer).
Context (sbRemove : JS.num -> JS.num -> SourceBuffer -> option SourceBuffer).

Record State : Type := {
  source : option SourceBuffer;
  queue : list QueuedSegment;
  lastSegmentId : option JS.value;
  pendingTrimRanges : list Range;
}.

Definition withQueue (q : list QueuedSegment) (st : State) : State :=
  {| source := source st; queue := q;
     lastSegmentId := lastSegmentId st;
     pendingTrimRanges := pendingTrimRanges st |}.

Definition withPendingTrimRanges (r : list Range) (st : State) : State :=
  {| source := source st; queue := queue st;
     lastSegmentId := lastSegmentId st;
     pendingTrimRanges := r |}.

(** The loop [for (const segment of snapshot)] of [flush]. *)
Fixpoint drain (snapshot : list QueuedSegment) (st : State)
    : State * list SinkCall :=
  match snapshot with
  | [] => (st, [])
  | _ :: snapshot' =>
      match source st with
      | None => (st, [])
      | Some sb =>
          if updating sb then (st, [])
          else
            match queue st with
            | [] => drain snapshot' st
            | queued :: rest =>
                match appendBuffer (q_data queued) sb with
                | Some sb' =>
                    let st' :=
                      {| source := Some sb'; queue := rest;
                         lastSegmentId :=
                           if isInit queued then lastSegmentId st
                           else Some (q_id queued);
                         pendingTrimRanges := pendingTrimRanges st |} in
                    let '(st'', calls) := drain snapshot' st' in
                    (st'', Appended queued :: calls)
                | None =>
                    (* unshift(queued); break *)
                    (withQueue (queued :: rest) st, [AppendRejected queued])
                end
            end
      end
  end.

(** The part of [flush] below the trim block. *)
Definition flushAppends (st : State) : State * list SinkCall :=
  match queue st with
  | [] => (st, [])
  | _ => drain (queue st) st
  end.

(** [flush()]. *)
Definition flush (st : State) : State * list SinkCall :=
  match source st with
  | None => (st, [])
  | Some sb =>
      if updating sb then (st, [])
      else
        match pendingTrimRanges st with
        | range :: ranges =>
            let st1 := withPendingTrimRanges ranges st in
            match sbRemove (start range) (end_ range) sb with
            | Some sb' =>
                ({| source := Some sb'; queue := queue st1;
                    lastSegmentId := lastSegmentId st1;
                    pendingTrimRanges := pendingTrimRanges st1 |},
                 [Removed range])
            | None =>
                (* the error is logged and the appends go on *)
                let '(st2, calls) := flushAppends st1 in
                (st2, RemoveRejected range :: calls)
            end
        | [] => flushAppends st
        end
  end.

(** The entries [enqueue] pushes for a segment: the init payload when
    the variant declares one, then the data payload when there is one. *)
Definition initEntry (segment : Segment) : list QueuedSegment :=
  match variant segment with
  | Some v =>
      match init v with
      | Some i => [ {| q_id := id segment; q_data := i;
                       q_variant := Some v; isInit := true |} ]
      | None => []
      end
  | None => []
  end.

(** [enqueue(segment)]. *)
Definition enqueue (segment : Segment) (st : State)
    : State * list SinkCall :=
  let st1 := withQueue (queue st ++ initEntry segment) st in
  match data segment with
  | None => (st1, [])
  | Some d =>
      flush (withQueue
               (queue st1 ++
                [ {| q_id := id segment; q_data := d;
                     q_variant := variant segment; isInit := false |} ])
               st1)
  end.

(** [trim(start, end)]. *)
Definition trim (start_ end' : JS.num) (st : State)
    : State * list SinkCall :=
  if JS.isNaN start_ || JS.isNaN end' then (st, [])
  else
    let safeStart := JS.max (JS.Fin 0) start_ in
    let safeEnd := JS.max safeStart end' in
    if JS.le safeEnd safeStart then (st, [])
    else
      flush (withPendingTrimRanges
               (pendingTrimRanges st ++
                [ {| start := safeStart; end_ := safeEnd |} ])
               st).

(** [getBufferState()]. *)
Definition getBufferState (st : State) : nat * option JS.value :=
  (List.length (queue st), lastSegmentId st).

(** [handleSourceOpen()].  [added] is what [mediaSource.addSourceBuffer]
    gave: the new SourceBuffer, or [None] when it threw.  An adapter that
    has its source ignores the event. *)
Definition handleSourceOpen (added : option SourceBuffer) (st : State)
    : State * list SinkCall :=
  match source st with
  | Some _ => (st, [])
  | None =>
      match added with
      | Some sb =>
          flush {| source := Some sb; queue := queue st;
                   lastSegmentId := lastSegmentId st;
                   pendingTrimRanges := pendingTrimRanges st |}
      | None => (st, [])
      end
  end.

(** [close()], on the adapter's own fields: the queue is emptied, the
    source and the last-delivered id are dropped; the pending trim ranges
    are left as they are. *)
Definition close (st : State) : State :=
  {| source := None; queue := []; lastSegmentId := None;
     pendingTrimRanges := pendingTrimRanges st |}.

(** The calls a client or the [updateend] listener makes on the adapter,
    and a sequence of them with the sink calls they cause. *)
Inductive Call : Type :=
| CallEnqueue (segment : Segment)
| CallTrim (start_ end' : JS.num)
| CallFlush.

Definition call (c : Call) (st : State) : State * list SinkCall :=
  match c with
  | CallEnqueue segment => enqueue segment st
  | CallTrim start_ end' => trim start_ end' st
  | CallFlush => flush st
  end.

Fixpoint calls (cs : list Call) (st : State) : State * list SinkCall :=
  match cs with
  | [] => (st, [])
  | c :: cs' =>
      let '(st1, trace1) := call c st in
      let '(st2, trace2) := calls cs' st1 in
      (st2, trace1 ++ trace2)
  end.

(** The entries [enqueue] pushes for a segment, init payload first. *)
Definition entriesOf (segment : Segment) : list QueuedSegment :=
  initEntry segment ++
  match data segment with
  | Some d => [ {| q_id := id segment; q_data := d;
                   q_variant := variant segment; isInit := false |} ]
  | None => []
  end.

(** The entries a sequence of calls pushes, in call order. *)
Definition queuedBy (cs : list Call) : list QueuedSegment :=
  flat_map (fun c => match c with
                     | CallEnqueue segment => entriesOf segment
                     | _ => []
                     end) cs.

(** The guard of [flush]: there is a source and it is not updating. *)
Definition ready (st : State) : bool :=
  match source st with
  | Some sb => negb (updating sb)
  | None => false
  end.

End Sink.

Arguments State : clear implicits.

(** A SourceBuffer for examples, after Media Source Extensions: an
    operation is refused while another is running; [appendBuffer] is
    refused when the payload exceeds the room left, [remove] when the
    range starts after the duration or is empty; an accepted operation
    leaves the buffer updating until [updateend]. *)
Record Mse : Type := {
  mseUpdating : bool;
  room : nat;
  duration : Q;
  appendedBytes : list ArrayBuffer;
  removedRanges : list (JS.num * JS.num);
}.

Definition mseAppend (d : ArrayBuffer) (sb : Mse) : option Mse :=
  if mseUpdating sb then None
  else if (room sb <? List.length d)%nat then None
  else Some {| mseUpdating := true;
               room := (room sb - List.length d)%nat;
               duration := duration sb;
               appendedBytes := appendedBytes sb ++ [d];
               removedRanges := removedRanges sb |}.

Definition mseRemove (s e : JS.num) (sb : Mse) : option Mse :=
  if mseUpdating sb then None
  else if negb (JS.le (JS.Fin 0) s && JS.le s (JS.Fin (duration sb))) then None
  else if JS.isNaN e || JS.le e s then None
  else Some {| mseUpdating := true;
               room := room sb;
               duration := duration sb;
               appendedBytes := appendedBytes sb;
               removedRanges := removedRanges sb ++ [(s, e)] |}.

(** The buffer finishes its operation and fires [updateend], on which
    the adapter flushes. *)
Definition mseDone (sb : Mse) : Mse :=
  {| mseUpdating := false; room := room sb; duration := duration sb;
     appendedBytes := appendedBytes sb; removedRanges := removedRanges sb |}.

Definition onUpdateEnd (st : State Mse) : State Mse * list SinkCall :=
  flush mseUpdating mseAppend mseRemove
    {| source := option_map mseDone (source st); queue := queue st;
       lastSegmentId := lastSegmentId st;
       pendingTrimRanges := pendingTrimRanges st |}.

(** *** Notions used in the statements about the sink *)

(** The segments a list of sink calls appended, in call order. *)
Definition appendedOf (calls : list SinkCall) : list QueuedSegment :=
  omap (fun c => match c with Appended q => Some q | _ => None end) calls.

(** The ranges a list of sink calls removed. *)
Definition removedOf (calls : list SinkCall) : list Range :=
  omap (fun c => match c with Removed r => Some r | _ => None end) calls.

(** The watermark after appending [done] on top of [before]. *)
Definition watermark (before : option JS.value) (done : list QueuedSegment)
    : option JS.value :=
  match last (List.filter (fun q => negb (isInit q)) done) with
  | Some q => Some (q_id q)
  | None => before
  end.

(** The entry [enqueue] pushes for the data payload. *)
Definition dataEntry (segment : Segment) (d : ArrayBuffer) : QueuedSegment :=
  {| q_id := id segment; q_data := d; q_variant := variant segment;
     isInit := false |}.

(** The init payloads of a stream among the segments appended so far. *)
Definition initsAppended (tag : JS.value) (calls : list SinkCall) : nat :=
  List.length
    (List.filter
       (fun q => isInit q
                 && bool_decide (stream_id <$> q_variant q = Some tag))
       (appendedOf calls)).

End PlayoutBuffer.

(* ================================================================== *)
(** ** types/roll.ts and roll.ts *)

Module Roll.

Abbreviation QueueItem := Playlist.QueueItem.
Abbreviation Store := Playlist.Store.
Abbreviation Blob := Playlist.Blob.
Abbreviation Segment := PlayoutBuffer.Segment.

(** *** Upsert *)

Record MatchBy : Type := {
  fields : list string;
  values : list JS.value;
}.

Record UpsertOptions : Type := {
  o_id : option Z;
  matchBy : option MatchBy;
  o_queueIndex : option Z;
  updateBlob : option bool;
  mergeMetadata : option bool;
}.

Record UpsertResult : Type := {
  r_id : Z;
  inserted : bool;
  matchedId : option Z;
}.

(** The inner loop of [findItemByMetadata]: every listed field of the
    item's metadata is strictly equal to the value at the same position. *)
Fixpoint matchesAll (fs : list string) (vs : list JS.value)
    (md : gmap string JS.value) : bool :=
  match fs with
  | [] => true
  | f :: fs' =>
      let v := match vs with v :: _ => v | [] => JS.VUndefined end in
      if JS.strict_eq (JS.get md f) v
      then matchesAll fs' (tl vs) md
      else false
  end.

(** [findItemByMetadata(fields, values)]. *)
Definition findItemByMetadata (fs : list string) (vs : list JS.value)
    (s : Store) : result (option QueueItem) :=
  if negb (List.length fs =? List.length vs)%nat then Err LengthMismatch
  else Ok (find (fun item => matchesAll fs vs (Playlist.metadata item))
                (Playlist.getAll s)).

(** [options.flag !== false]. *)
Definition notFalse (flag : option bool) : bool := default true flag.

(** [updateData]: the blob unless [updateBlob] is false, the queueIndex
    when one is given, and the metadata, merged over the existing item's
    unless [mergeMetadata] is false. *)
Definition upsertUpdate (b : Blob) (md : gmap string JS.value)
    (options : UpsertOptions) (existing : QueueItem) : Playlist.ItemUpdates :=
  {| Playlist.u_blob := if notFalse (updateBlob options) then Some b else None;
     Playlist.u_queueIndex := o_queueIndex options;
     Playlist.u_metadata :=
       Some (if notFalse (mergeMetadata options)
             then md ∪ Playlist.metadata existing
             else md) |}.

(** [upsertItem(blob, metadata, options)]. *)
Definition upsertItem (b : Blob) (md : gmap string JS.value)
    (options : UpsertOptions) (s : Store) : result (Store * UpsertResult) :=
  let byId :=
    match o_id options with
    | Some i => Playlist.getItem i s
    | None => None
    end in
  existing <-?
    match byId, o_id options with
    | Some item, Some i => Ok (Some (item, i))
    | _, _ =>
        match matchBy options with
        | Some mb =>
            matched <-? findItemByMetadata (fields mb) (values mb) s ;;
            Ok (option_map (fun m => (m, Playlist.id m)) matched)
        | None => Ok None
        end
    end ;;
  match existing with
  | Some (existingItem, matched) =>
      let updateData := upsertUpdate b md options existingItem in
      s' <-? Playlist.updateItem matched updateData s ;;
      Ok (s', {| r_id := matched; inserted := false;
                 matchedId := Some matched |})
  | None =>
      let '(s', key) := Playlist.add b md (o_queueIndex options) s in
      Ok (s', {| r_id := key; inserted := true; matchedId := None |})
  end.

(** [upsertItemByFilename(blob, filename, metadata, options)]: the
    metadata is [{...metadata, filename}], the options are the caller's
    with [matchBy] set to the filename. *)
Definition upsertItemByFilename (b : Blob) (filename : string)
    (md : gmap string JS.value) (options : UpsertOptions) (s : Store)
    : result (Store * UpsertResult) :=
  upsertItem b (<["filename" := JS.VStr filename]> md)
    {| o_id := o_id options;
       matchBy := Some {| fields := ["filename"];
                          values := [JS.VStr filename] |};
       o_queueIndex := o_queueIndex options;
       updateBlob := updateBlob options;
       mergeMetadata := mergeMetadata options |}
    s.

(** An element of the array given to [upsertItems]. *)
Record UpsertInput : Type := {
  i_blob : Blob;
  i_metadata : option (gmap string JS.value);
  i_options : option UpsertOptions;
}.

(** A key of the second object when it has it, else of the first. *)
Definition orElse {A} (a b : option A) : option A :=
  match a with
  | Some _ => a
  | None => b
  end.

(** [{...defaultOptions, ...item.options, matchBy: item.options?.matchBy
    || defaultOptions.matchBy}]. *)
Definition mergedOptions (defaultOptions : UpsertOptions)
    (options : option UpsertOptions) : UpsertOptions :=
  match options with
  | None => defaultOptions
  | Some o =>
      {| o_id := orElse (o_id o) (o_id defaultOptions);
         matchBy := orElse (matchBy o) (matchBy defaultOptions);
         o_queueIndex := orElse (o_queueIndex o) (o_queueIndex defaultOptions);
         updateBlob := orElse (updateBlob o) (updateBlob defaultOptions);
         mergeMetadata := orElse (mergeMetadata o) (mergeMetadata defaultOptions) |}
  end.

(** [upsertItems(items, defaultOptions)]: one [upsertItem] after the
    other; the first that rejects rejects the batch, and what the items
    before it wrote stays written. *)
Fixpoint upsertItems (items : list UpsertInput) (defaultOptions : UpsertOptions)
    (s : Store) : Store * result (list UpsertResult) :=
  match items with
  | [] => (s, Ok [])
  | item :: items' =>
      match upsertItem (i_blob item) (default ∅ (i_metadata item))
              (mergedOptions defaultOptions (i_options item)) s with
      | Err e => (s, Err e)
      | Ok (s1, r) =>
          let '(s2, rest) := upsertItems items' defaultOptions s1 in
          (s2, match rest with
               | Ok results => Ok (r :: results)
               | Err e => Err e
               end)
      end
  end.

(** *** Notions used in the statements about upsert *)

(** Every field/value pair of a predicate agrees with an item's metadata. *)
Definition agrees (mb : MatchBy) (item : QueueItem) : Prop :=
  forall k f v, fields mb !! k = Some f -> values mb !! k = Some v ->
                JS.get (Playlist.metadata item) f = v.

(** [m] is the first entry of the queue, in queue order, that the
    predicate selects. *)
Definition firstMatch (mb : MatchBy) (s : Store) (m : QueueItem) : Prop :=
  exists k : nat,
    Playlist.getAll s !! k = Some m /\ agrees mb m /\
    forall (j : nat) r,
      (j < k)%nat -> Playlist.getAll s !! j = Some r -> ~ agrees mb r.

(** The outcome of an upsert that resolved to the stored entry [item]
    under key [i]: the entry under [i] is rewritten, every other key is
    as before. *)
Definition updatesEntry (b : Blob) (md : gmap string JS.value)
    (options : UpsertOptions) (s : Store) (i : Z) (item : QueueItem)
    (out : result (Store * UpsertResult)) : Prop :=
  exists s',
    out = Ok (s', {| r_id := i; inserted := false; matchedId := Some i |})
    /\ (forall stored,
          Playlist.getItem i s = Some stored ->
          Playlist.getItem i s'
          = Some (Playlist.updated (upsertUpdate b md options item) stored))
    /\ (forall j, j <> i -> Playlist.getItem j s' = Playlist.getItem j s).

(** An entry carries the filename [f]. *)
Definition hasFilename (f : string) (item : QueueItem) : Prop :=
  JS.get (Playlist.metadata item) "filename" = JS.VStr f.

(** No two entries carry the same filename. *)
Definition uniqueFilenames (s : Store) : Prop :=
  forall f a c, a ∈ Playlist.rows s -> c ∈ Playlist.rows s ->
    hasFilename f a -> hasFilename f c -> Playlist.id a = Playlist.id c.

(** The options [upsertItemByFilename] passes on. *)
Definition byFilename (options : UpsertOptions) (f : string) : UpsertOptions :=
  {| o_id := o_id options;
     matchBy := Some {| fields := ["filename"]; values := [JS.VStr f] |};
     o_queueIndex := o_queueIndex options;
     updateBlob := updateBlob options;
     mergeMetadata := mergeMetadata options |}.

(** A [matchBy], when there is one, lists as many values as fields. *)
Definition wellFormed (options : UpsertOptions) : Prop :=
  match matchBy options with
  | Some mb => List.length (fields mb) = List.length (values mb)
  | None => True
  end.

(** The results that report an insert. *)
Definition insertions (results : list UpsertResult) : nat :=
  List.length (List.filter inserted results).

(** The outcome of an upsert that inserted. *)
Definition insertsEntry (b : Blob) (md : gmap string JS.value)
    (options : UpsertOptions) (s : Store)
    (out : result (Store * UpsertResult)) : Prop :=
  out = Ok (fst (Playlist.add b md (o_queueIndex options) s),
            {| r_id := snd (Playlist.add b md (o_queueIndex options) s);
               inserted := true; matchedId := None |}).

(** *** Ordering reconciliation *)

Record RollEntry : Type := {
  file : string;
  order : JS.num;
}.

(** [entryByFilename]: a later entry replaces an earlier one with the
    same file. *)
Definition entryByFilename (entries : list RollEntry)
    : gmap string RollEntry :=
  foldl (fun m e => <[file e := e]> m) ∅ entries.

(** [entryByOriginalIndex]: position in [entries] to entry. *)
Definition entryByOriginalIndex (entries : list RollEntry)
    : gmap Z RollEntry :=
  foldl (fun m ie => <[Z.of_nat (fst ie) := snd ie]> m) ∅
        (zip (seq 0 (List.length entries)) entries).

(** What [a && b] or [a ?? b] evaluates to here: an entry, or a falsy
    primitive. *)
Inductive Lookup : Type :=
| Found (e : RollEntry)
| Falsy (v : JS.value).

Definition ofOption (o : option RollEntry) : Lookup :=
  match o with
  | Some e => Found e
  | None => Falsy JS.VUndefined
  end.

(** [(filename && entryByFilename.get(filename)) ??
     (originalIndex !== undefined && entryByOriginalIndex.get(originalIndex))]. *)
Definition lookupEntry (entries : list RollEntry) (item : QueueItem)
    : Lookup :=
  let filename := JS.get (Playlist.metadata item) "filename" in
  let originalIndex := JS.get (Playlist.metadata item) "originalIndex" in
  let lhs :=
    if JS.truthy filename
    then match filename with
         | JS.VStr f => ofOption (entryByFilename entries !! f)
         | _ => Falsy JS.VUndefined
         end
    else Falsy filename in
  let rhs :=
    if JS.strict_eq originalIndex JS.VUndefined
    then Falsy (JS.VBool false)
    else match originalIndex with
         | JS.VNum n => ofOption (entryByOriginalIndex entries !! n)
         | _ => Falsy JS.VUndefined
         end in
  match lhs with
  | Found e => Found e
  | Falsy v => if JS.nullish v then rhs else Falsy v
  end.

(** The order an item resolves to: [entry && Number.isFinite(entry.order)]. *)
Definition resolveOrder (entries : list RollEntry) (item : QueueItem)
    : option Q :=
  match lookupEntry entries item with
  | Found e => match order e with JS.Fin q => Some q | _ => None end
  | Falsy _ => None
  end.

(** [buildOrderingFromEntries(playlistItems)]. *)
Definition buildOrderingFromEntries (entries : list RollEntry)
    (playlistItems : list QueueItem) : list (Z * Q) :=
  omap (fun item =>
          match resolveOrder entries item with
          | Some q => Some (Playlist.id item, q)
          | None => None
          end)
       playlistItems.

(** The comparator [(a, b) => a.order - b.order]. *)
Definition byOrder (a b : QueueItem * Q) : bool := Qle_bool (snd a) (snd b).

Definition orderMap (orderingData : list (Z * Q)) : gmap Z Q :=
  foldl (fun m d => <[fst d := snd d]> m) ∅ orderingData.

Definition itemsWithOrder (orderingData : list (Z * Q))
    (playlistItems : list QueueItem) : list (QueueItem * Q) :=
  omap (fun item =>
          match orderMap orderingData !! Playlist.id item with
          | Some q => Some (item, q)
          | None => None
          end)
       playlistItems.

Definition itemsWithoutOrder (orderingData : list (Z * Q))
    (playlistItems : list QueueItem) : list QueueItem :=
  List.filter (fun item =>
            match orderMap orderingData !! Playlist.id item with
            | Some _ => false
            | None => true
            end)
         playlistItems.

(** [finalOrdering]: the sorted items at [0 .. k-1], the others after. *)
Definition finalOrdering (orderingData : list (Z * Q))
    (playlistItems : list QueueItem) : list (Z * Z) :=
  let sorted := sortBy byOrder (itemsWithOrder orderingData playlistItems) in
  let rest := itemsWithoutOrder orderingData playlistItems in
  imap (fun i io => (Playlist.id (fst io), Z.of_nat i)) sorted
  ++ imap (fun i item => (Playlist.id item,
                          Z.of_nat (List.length sorted) + Z.of_nat i)) rest.

(** [reorderAllItems(orderingData, playlistItems)]. *)
Definition reorderAllItems (orderingData : list (Z * Q))
    (playlistItems : list QueueItem) (s : Store) : Store * result nat :=
  match playlistItems with
  | [] => (s, Ok 0%nat)
  | _ =>
      let '(s', failure) :=
        Playlist.batchUpdateQueueIndices
          (finalOrdering orderingData playlistItems) s in
      (s', match failure with
           | Some e => Err e
           | None => Ok (List.length (itemsWithOrder orderingData playlistItems))
           end)
  end.

(** [updateOrdering()]. *)
Definition updateOrdering (entries : list RollEntry) (s : Store)
    : Store * result nat :=
  let playlistItems := Playlist.getAll s in
  match playlistItems with
  | [] => (s, Ok 0%nat)
  | _ =>
      let orderingData := buildOrderingFromEntries entries playlistItems in
      match orderingData with
      | [] => (s, Ok 0%nat)
      | _ => reorderAllItems orderingData playlistItems s
      end
  end.

(** The comparator [(a, b) => a.queueIndex - b.queueIndex] on
    [{id, queueIndex}] pairs. *)
Definition byIndex (a b : Z * Z) : bool := snd a <=? snd b.

(** [getCurrentOrdering()]. *)
Definition getCurrentOrdering (s : Store) : list (Z * Z) :=
  sortBy byIndex
    (map (fun item => (Playlist.id item, Playlist.queueIndex item))
         (Playlist.getAll s)).

(** A [Map] built from pairs and then iterated: [set] on a key that is
    there replaces the value in place, on a new key appends. *)
Fixpoint mapSet {V} (k : Z) (v : V) (m : list (Z * V)) : list (Z * V) :=
  match m with
  | [] => [(k, v)]
  | kv :: m' => if fst kv =? k then (k, v) :: m' else kv :: mapSet k v m'
  end.

Definition mapOf {V} (pairs : list (Z * V)) : list (Z * V) :=
  foldl (fun m kv => mapSet (fst kv) (snd kv) m) [] pairs.

Definition mapGet {V} (k : Z) (m : list (Z * V)) : option V :=
  snd <$> find (fun kv => fst kv =? k) m.

Record Difference : Type := {
  d_id : Z;
  currentOrder : Z;
  desiredOrder : Q;
}.

Record Comparison : Type := {
  matches : bool;
  c_current : list (Z * Z);
  desired : list (Z * Q);
  differences : list Difference;
}.

(** [compareOrdering()]: an id of the desired ordering is a difference
    when the store has it and its queueIndex is not the desired order. *)
Definition compareOrdering (entries : list RollEntry) (s : Store)
    : Comparison :=
  let current := getCurrentOrdering s in
  let playlistItems := Playlist.getAll s in
  let desired := buildOrderingFromEntries entries playlistItems in
  let currentMap := mapOf current in
  let desiredMap := mapOf desired in
  let differences :=
    omap (fun kv =>
            match mapGet (fst kv) currentMap with
            | Some currentOrder =>
                if negb (Qeq_bool (inject_Z currentOrder) (snd kv))
                then Some {| d_id := fst kv; currentOrder := currentOrder;
                             desiredOrder := snd kv |}
                else None
            | None => None
            end)
         desiredMap in
  {| matches := (List.length differences =? 0)%nat;
     c_current := current;
     desired := desired;
     differences := differences |}.

(** *** The buffering scheduler *)

(** What the scheduler reads from the video element at one instant. *)
Record VideoElement : Type := {
  currentTime : Q;
  buffered : list (Q * Q);
}.

(** [getBufferedEnd()] on an attached element. *)
Definition getBufferedEnd (video : VideoElement) : Q :=
  match last (buffered video) with
  | None => 0%Q
  | Some r => snd r
  end.

(** The scheduler's fields.  [attached] stands for [playoutBuffer] and
    [videoElement], which are set and cleared together.  A callback field
    tells whether a callback is registered; running it is an effect, and
    it is taken not to call back into the scheduler.  The cursor and the
    cached count start at 0 and are only reset or incremented. *)
Record State : Type := {
  attached : bool;
  bufferThresholdSeconds : Q;
  bufferedQueueIndex : nat;
  totalItems : nat;
  pendingTrimBoundary : option Q;
  nextSegmentScheduled : bool;
  onRollEndCallback : bool;
  onStreamEndCallback : bool;
}.

(** Calls the scheduler makes on its collaborators. *)
Inductive Effect : Type :=
| BufferEnqueue (segment : Segment)   (* playoutBuffer.enqueue(segment) *)
| BufferTrim (start_ end' : JS.num)   (* playoutBuffer.trim(start, end) *)
| RollEnd                             (* onRollEndCallback() *)
| StreamEnd.                          (* onStreamEndCallback() *)

Definition initial : State :=
  {| attached := false; bufferThresholdSeconds := 4%Q;
     bufferedQueueIndex := 0; totalItems := 0;
     pendingTrimBoundary := None; nextSegmentScheduled := false;
     onRollEndCallback := false; onStreamEndCallback := false |}.

Definition setOnRollEnd (callback : bool) (st : State) : State :=
  {| attached := attached st;
     bufferThresholdSeconds := bufferThresholdSeconds st;
     bufferedQueueIndex := bufferedQueueIndex st;
     totalItems := totalItems st;
     pendingTrimBoundary := pendingTrimBoundary st;
     nextSegmentScheduled := nextSegmentScheduled st;
     onRollEndCallback := callback;
     onStreamEndCallback := onStreamEndCallback st |}.

Definition withScheduled (flag : bool) (st : State) : State :=
  {| attached := attached st;
     bufferThresholdSeconds := bufferThresholdSeconds st;
     bufferedQueueIndex := bufferedQueueIndex st;
     totalItems := totalItems st;
     pendingTrimBoundary := pendingTrimBoundary st;
     nextSegmentScheduled := flag;
     onRollEndCallback := onRollEndCallback st;
     onStreamEndCallback := onStreamEndCallback st |}.

Definition withTotalItems (n : nat) (st : State) : State :=
  {| attached := attached st;
     bufferThresholdSeconds := bufferThresholdSeconds st;
     bufferedQueueIndex := bufferedQueueIndex st;
     totalItems := n;
     pendingTrimBoundary := pendingTrimBoundary st;
     nextSegmentScheduled := nextSegmentScheduled st;
     onRollEndCallback := onRollEndCallback st;
     onStreamEndCallback := onStreamEndCallback st |}.

(** [resetQueueIndex()]. *)
Definition resetQueueIndex (st : State) : State :=
  {| attached := attached st;
     bufferThresholdSeconds := bufferThresholdSeconds st;
     bufferedQueueIndex := 0;
     totalItems := totalItems st;
     pendingTrimBoundary := None;
     nextSegmentScheduled := false;
     onRollEndCallback := onRollEndCallback st;
     onStreamEndCallback := onStreamEndCallback st |}.

(** [detachBuffer()]. *)
Definition detachBuffer (st : State) : State :=
  {| attached := false;
     bufferThresholdSeconds := bufferThresholdSeconds st;
     bufferedQueueIndex := 0;
     totalItems := 0;
     pendingTrimBoundary := None;
     nextSegmentScheduled := false;
     onRollEndCallback := onRollEndCallback st;
     onStreamEndCallback := onStreamEndCallback st |}.

(** [createSegmentFromItem(item)], given the bytes read from the blob:
    the id is [metadata.originalIndex ?? item.queueIndex], the stream tag
    [metadata.streamId ?? metadata.stream_id ?? 'main-stream']. *)
Definition createSegmentFromItem (item : QueueItem)
    (bytes : Playlist.ArrayBuffer) : Segment :=
  let originalIndex := JS.get (Playlist.metadata item) "originalIndex" in
  let streamId := JS.get (Playlist.metadata item) "streamId" in
  let stream_id := JS.get (Playlist.metadata item) "stream_id" in
  {| PlayoutBuffer.id :=
       if JS.nullish originalIndex
       then JS.VNum (Playlist.queueIndex item)
       else originalIndex;
     PlayoutBuffer.data := Some bytes;
     PlayoutBuffer.variant :=
       Some {| PlayoutBuffer.stream_id :=
                 if JS.nullish streamId
                 then (if JS.nullish stream_id
                       then JS.VStr "main-stream"
                       else stream_id)
                 else streamId;
               PlayoutBuffer.init := None |} |}.

(** [hasMoreSegments()], without the write to [totalItems]. *)
Definition hasMoreSegments (s : Store) (st : State) : bool :=
  let length := Z.to_nat (Playlist.length s) in
  if (length =? 0)%nat then false
  else if onRollEndCallback st then (bufferedQueueIndex st <? length)%nat
  else true.

(** [shouldQueueNextVideo(currentTime)] on an attached element. *)
Definition shouldQueueNextVideo (video : VideoElement) (st : State) : bool :=
  let bufferedEnd := getBufferedEnd video in
  if Qeq_bool bufferedEnd 0 then false
  else Qle_bool (bufferedEnd - currentTime video) (bufferThresholdSeconds st).

Definition isNull {A} (o : option A) : bool :=
  match o with None => true | Some _ => false end.

(** [queueNextSegment()].  A row without a blob, or whose blob cannot be
    read, releases the gate and leaves the cursor where it was. *)
Definition queueNextSegment (video : VideoElement) (s : Store) (st : State)
    : State * list Effect :=
  if negb (attached st) then (st, [])
  else if nextSegmentScheduled st then (st, [])
  else
    let items := Playlist.getAll s in
    let n := List.length items in
    let st1 := withTotalItems n (withScheduled true st) in
    if (n =? 0)%nat then (withScheduled false st1, [])
    else
      let currentIndex := (bufferedQueueIndex st mod n)%nat in
      match items !! currentIndex with
      | None => (withScheduled false st1, [])
      | Some item =>
          match Playlist.blob item ≫= Playlist.content with
          | None => (withScheduled false st1, [])
          | Some bytes =>
              let previousBoundary := getBufferedEnd video in
              let segment := createSegmentFromItem item bytes in
              let cursor := S (bufferedQueueIndex st) in
              let rollEnd :=
                onRollEndCallback st && (0 <? cursor)%nat
                && (cursor mod n =? 0)%nat in
              let waitForTrim :=
                negb (Qle_bool previousBoundary 0)
                && isNull (pendingTrimBoundary st) in
              ({| attached := attached st;
                  bufferThresholdSeconds := bufferThresholdSeconds st;
                  bufferedQueueIndex := cursor;
                  totalItems := n;
                  pendingTrimBoundary :=
                    if waitForTrim then Some previousBoundary
                    else pendingTrimBoundary st;
                  nextSegmentScheduled := waitForTrim;
                  onRollEndCallback := onRollEndCallback st;
                  onStreamEndCallback := onStreamEndCallback st |},
               BufferEnqueue segment :: (if rollEnd then [RollEnd] else []))
          end
      end.

(** The first block of [onTimeUpdate]: a pending boundary that playback
    has reached is trimmed and the gate is released. *)
Definition applyPendingTrim (video : VideoElement) (st : State)
    : State * list Effect :=
  match pendingTrimBoundary st with
  | Some boundary =>
      if Qle_bool boundary (currentTime video)
      then ({| attached := attached st;
               bufferThresholdSeconds := bufferThresholdSeconds st;
               bufferedQueueIndex := bufferedQueueIndex st;
               totalItems := totalItems st;
               pendingTrimBoundary := None;
               nextSegmentScheduled := false;
               onRollEndCallback := onRollEndCallback st;
               onStreamEndCallback := onStreamEndCallback st |},
            [BufferTrim (JS.Fin 0) (JS.Fin boundary)])
      else (st, [])
  | None => (st, [])
  end.

(** The stream-end check of [onTimeUpdate]. *)
Definition streamEndCheck (video : VideoElement) (hasMore : bool)
    (st : State) : list Effect :=
  if onStreamEndCallback st && negb hasMore
  then
    let bufferedEnd := getBufferedEnd video in
    if negb (Qle_bool bufferedEnd 0)
       && Qle_bool (Qminmax.Qmax 0 (bufferedEnd - (1 # 10))) (currentTime video)
    then [StreamEnd] else []
  else [].

(** [onTimeUpdate()]. *)
Definition onTimeUpdate (video : VideoElement) (s : Store) (st : State)
    : State * list Effect :=
  if negb (attached st) then (st, [])
  else
    let '(st1, trimmed) := applyPendingTrim video st in
    let hasMore := hasMoreSegments s st1 in
    let st2 := withTotalItems (Z.to_nat (Playlist.length s)) st1 in
    let ended := streamEndCheck video hasMore st2 in
    if negb hasMore then (st2, trimmed ++ ended)
    else if negb (nextSegmentScheduled st2) && shouldQueueNextVideo video st2
    then
      let '(st3, queued) := queueNextSegment video s st2 in
      (st3, trimmed ++ ended ++ queued)
    else (st2, trimmed ++ ended).

(** [attachBuffer(playoutBuffer, videoElement, options)]. *)
Definition attachBuffer (thresholdSeconds : option Q) (video : VideoElement)
    (s : Store) (st : State) : State * list Effect :=
  let st0 := detachBuffer st in
  let st1 :=
    {| attached := true;
       bufferThresholdSeconds :=
         default (bufferThresholdSeconds st0) thresholdSeconds;
       bufferedQueueIndex := 0;
       totalItems := Z.to_nat (Playlist.length s);
       pendingTrimBoundary := None;
       nextSegmentScheduled := false;
       onRollEndCallback := onRollEndCallback st0;
       onStreamEndCallback := onStreamEndCallback st0 |} in
  if (totalItems st1 =? 0)%nat then (st1, [])
  else queueNextSegment video s st1.

(** A sequence of [timeupdate] events, each with the element as it stands
    then; the store does not change in between. *)
Fixpoint ticks (videos : list VideoElement) (s : Store) (st : State)
    : State * list Effect :=
  match videos with
  | [] => (st, [])
  | video :: videos' =>
      let '(st1, effects1) := onTimeUpdate video s st in
      let '(st2, effects2) := ticks videos' s st1 in
      (st2, effects1 ++ effects2)
  end.

Definition isEnqueue (e : Effect) : bool :=
  match e with BufferEnqueue _ => true | _ => false end.

Definition isRollEnd (e : Effect) : bool :=
  match e with RollEnd => true | _ => false end.

(** The segments handed to the sink, and the number of times the
    end-of-roll callback ran. *)
Definition deliveries (effects : list Effect) : nat :=
  List.length (List.filter isEnqueue effects).

Definition rollEnds (effects : list Effect) : nat :=
  List.length (List.filter isRollEnd effects).

(** [setOnStreamEnd(callback)]. *)
Definition setOnStreamEnd (callback : bool) (st : State) : State :=
  {| attached := attached st;
     bufferThresholdSeconds := bufferThresholdSeconds st;
     bufferedQueueIndex := bufferedQueueIndex st;
     totalItems := totalItems st;
     pendingTrimBoundary := pendingTrimBoundary st;
     nextSegmentScheduled := nextSegmentScheduled st;
     onRollEndCallback := onRollEndCallback st;
     onStreamEndCallback := callback |}.

(** [handleEnded()], the listener of the element's [ended] event. *)
Definition handleEnded (st : State) : list Effect :=
  if onStreamEndCallback st then [StreamEnd] else [].

Definition isStreamEnd (e : Effect) : bool :=
  match e with StreamEnd => true | _ => false end.

(** The number of times the end-of-stream callback ran. *)
Definition streamEnds (effects : list Effect) : nat :=
  List.length (List.filter isStreamEnd effects).

(** The segments handed to the sink, in order. *)
Definition enqueued (effects : list Effect) : list Segment :=
  omap (fun e => match e with BufferEnqueue segment => Some segment | _ => None end)
       effects.

(** Playback has reached the last tenth of a second of what is buffered:
    [bufferedEnd > 0 && currentTime >= Math.max(0, bufferedEnd - 0.1)]. *)
Definition atBufferedEnd (video : VideoElement) : bool :=
  negb (Qle_bool (getBufferedEnd video) 0)
  && Qle_bool (Qminmax.Qmax 0 (getBufferedEnd video - (1 # 10)))
              (currentTime video).

(** *** Notions used in the statements about reconciliation *)

(** The items that resolve to an order, with it, and those that do not,
    both in queue order. *)
Definition resolved (entries : list RollEntry) (items : list QueueItem)
    : list (QueueItem * Q) :=
  omap (fun item =>
          match resolveOrder entries item with
          | Some q => Some (item, q)
          | None => None
          end) items.

Definition unresolved (entries : list RollEntry) (items : list QueueItem)
    : list QueueItem :=
  List.filter (fun item => isNull (resolveOrder entries item)) items.

(** The assignment of each item to its position in a list. *)
Definition assignment (items : list QueueItem) : list (Z * Z) :=
  imap (fun i item => (Playlist.id item, Z.of_nat i)) items.

(** The difference [compareOrdering] reports for an item: it resolves to
    an order and its queueIndex is another number. *)
Definition differs (entries : list RollEntry) (item : QueueItem)
    : option Difference :=
  match resolveOrder entries item with
  | Some o =>
      if negb (Qeq_bool (inject_Z (Playlist.queueIndex item)) o)
      then Some {| d_id := Playlist.id item;
                   currentOrder := Playlist.queueIndex item;
                   desiredOrder := o |}
      else None
  | None => None
  end.

(** *** Notions used in the statements about the scheduler *)

(** A pending trim boundary that playback has reached. *)
Definition boundaryReached (video : VideoElement) (st : State) : bool :=
  match pendingTrimBoundary st with
  | Some boundary => Qle_bool boundary (currentTime video)
  | None => false
  end.

(** A push is in flight when the tick decides: the gate is set and the
    tick's trim step has not released it. *)
Definition inFlight (video : VideoElement) (st : State) : bool :=
  nextSegmentScheduled st && negb (boundaryReached video st).

(** The row under the cursor has a blob that can be read. *)
Definition cursorDeliverable (s : Store) (st : State) : Prop :=
  forall item,
    Playlist.getAll s
      !! (bufferedQueueIndex st mod List.length (Playlist.getAll s))%nat
    = Some item ->
    is_Some (Playlist.blob item ≫= Playlist.content).

(** The end-of-roll callback runs with this delivery. *)
Definition completesRoll (s : Store) (st : State) : bool :=
  onRollEndCallback st
  && (S (bufferedQueueIndex st) mod List.length (Playlist.getAll s) =? 0)%nat.

(** A session: attach, then a sequence of ticks. *)
Definition session (thresholdSeconds : option Q) (video0 : VideoElement)
    (videos : list VideoElement) (s : Store) (st : State)
    : State * list Effect :=
  let '(st1, effects1) := attachBuffer thresholdSeconds video0 s st in
  let '(st2, effects2) := ticks videos s st1 in
  (st2, effects1 ++ effects2).

(** The element when playback has caught up with [c] seconds of media. *)
Definition caughtUp (c : Q) : VideoElement :=
  {| currentTime := c; buffered := [(0%Q, c)] |}.

(** A row whose blob is there and can be read. *)
Definition deliverable (item : QueueItem) : Prop :=
  is_Some (Playlist.blob item ≫= Playlist.content).

(** What holds of the scheduler and of the effects so far, throughout a
    session over a store that does not change. *)
Definition sessionInv (s : Store) (st : State) (effects : list Effect) : Prop :=
  attached st = true
  /\ bufferedQueueIndex st = deliveries effects
  /\ (onRollEndCallback st = true ->
      (bufferedQueueIndex st <= List.length (Playlist.rows s))%nat
      /\ rollEnds effects
         = (if (bufferedQueueIndex st =? List.length (Playlist.rows s))%nat
            then 1 else 0)%nat)
  /\ (onRollEndCallback st = false -> rollEnds effects = 0%nat).

(** A segment built from a stored row and the bytes of its blob. *)
Definition fromRow (s : Store) (segment : Segment) : Prop :=
  exists item bytes,
    item ∈ Playlist.rows s
    /\ Playlist.blob item ≫= Playlist.content = Some bytes
    /\ segment = createSegmentFromItem item bytes.

(** The scheduler loops: a callback is not registered, the threshold is
    not negative, and no push is in flight once playback has caught up. *)
Definition looping (c : Q) (st : State) : Prop :=
  attached st = true
  /\ onRollEndCallback st = false
  /\ (0 <= bufferThresholdSeconds st)%Q
  /\ inFlight (caughtUp c) st = false.

End Roll.

(* ================================================================== *)
(** ** Stores and sessions used as examples *)

Module Examples.
Import Playlist Roll.

Definition blobOf (n : nat) : Blob := {| content := Some (repeat Byte.x00 n) |}.

(** Four entries: "a", "b", and two that no ordering entry names. *)
Definition fourEntries : Store :=
  run [ OpAdd (blobOf 1) {[ "filename" := JS.VStr "a" ]} None;
        OpAdd (blobOf 2) {[ "filename" := JS.VStr "b" ]} None;
        OpAdd (blobOf 3) {[ "filename" := JS.VStr "c" ]} None;
        OpAdd (blobOf 4) ∅ None ].

Definition bThenA : list RollEntry :=
  [ {| file := "b"; order := JS.Fin 0 |}; {| file := "a"; order := JS.Fin 1 |} ].

(** Two entries, the second moved to position 5 by an upsert that names
    its id and a queueIndex. *)
Definition gapStore : Store :=
  match upsertItem (blobOf 2) ∅
          {| o_id := Some 2; matchBy := None; o_queueIndex := Some 5;
             updateBlob := None; mergeMetadata := None |}
          (run [ OpAdd (blobOf 1) ∅ None; OpAdd (blobOf 2) ∅ None ]) with
  | Ok (s, _) => s
  | Err _ => emptyStore
  end.

(** The id names entry 2; the predicate selects entry 1 ("a"). *)
Definition idAndPredicate : UpsertOptions :=
  {| o_id := Some 2;
     matchBy := Some {| fields := ["filename"]; values := [JS.VStr "a"] |};
     o_queueIndex := None; updateBlob := None; mergeMetadata := None |}.

(** An attached scheduler at the start of a pass, threshold 4 s. *)
Definition attachedIdle : State :=
  {| attached := true; bufferThresholdSeconds := 4;
     bufferedQueueIndex := 0; totalItems := 4;
     pendingTrimBoundary := None; nextSegmentScheduled := false;
     onRollEndCallback := false; onStreamEndCallback := false |}.

(** Playback at 8 s with 10 s buffered. *)
Definition nearEnd : VideoElement :=
  {| currentTime := 8; buffered := [(0%Q, 10%Q)] |}.

(** A scheduler that pushed entry 0 with 5 s buffered and waits for
    playback to reach that boundary; then playback at 6 s, 8 s buffered. *)
Definition waitingForTrim : State :=
  {| attached := true; bufferThresholdSeconds := 4;
     bufferedQueueIndex := 1; totalItems := 4;
     pendingTrimBoundary := Some 5%Q; nextSegmentScheduled := true;
     onRollEndCallback := false; onStreamEndCallback := false |}.

Definition pastBoundary : VideoElement :=
  {| currentTime := 6; buffered := [(0%Q, 8%Q)] |}.

Definition beforeBoundary : VideoElement :=
  {| currentTime := 4; buffered := [(0%Q, 8%Q)] |}.

(** [fourEntries] after [reorder(0, 2)]. *)
Definition swapped : Store :=
  match reorder 0 2 fourEntries with
  | Ok s => s
  | Err _ => emptyStore
  end.

(** [fourEntries] with entry 2 ("b") moved to queueIndex 5 by an upsert
    that names its id: the positions are 0, 5, 2, 3. *)
Definition gapNamed : Store :=
  match upsertItem (blobOf 2) ∅
          {| o_id := Some 2; matchBy := None; o_queueIndex := Some 5;
             updateBlob := None; mergeMetadata := None |}
          fourEntries with
  | Ok (s, _) => s
  | Err _ => emptyStore
  end.

(** Orders that are not queue positions. *)
Definition tens : list RollEntry :=
  [ {| file := "a"; order := JS.Fin 10 |}; {| file := "b"; order := JS.Fin 20 |} ].

Definition noOptions : UpsertOptions :=
  {| o_id := None; matchBy := None; o_queueIndex := None;
     updateBlob := None; mergeMetadata := None |}.

(** A [matchBy] with two fields and one value. *)
Definition lopsided : UpsertOptions :=
  {| o_id := None;
     matchBy := Some {| fields := ["filename"; "title"];
                        values := [JS.VStr "a"] |};
     o_queueIndex := None; updateBlob := None; mergeMetadata := None |}.

(** A scheduler with both callbacks that has delivered the four entries;
    playback at the end of the ten seconds buffered. *)
Definition passDone : State :=
  {| attached := true; bufferThresholdSeconds := 4;
     bufferedQueueIndex := 4; totalItems := 4;
     pendingTrimBoundary := None; nextSegmentScheduled := false;
     onRollEndCallback := true; onStreamEndCallback := true |}.

Definition atEnd : VideoElement :=
  {| currentTime := 10; buffered := [(0%Q, 10%Q)] |}.

(** *** Sessions on the example SourceBuffer *)

Import PlayoutBuffer.

(** An adapter whose MediaSource has not opened yet. *)
Definition unopened : State Mse :=
  {| source := None; queue := []; lastSegmentId := None;
     pendingTrimRanges := [] |}.

(** A fresh SourceBuffer, as [addSourceBuffer] returns it. *)
Definition freshMse : Mse :=
  {| mseUpdating := false; room := 100; duration := 10;
     appendedBytes := []; removedRanges := [] |}.

Definition mseFlush := flush mseUpdating mseAppend mseRemove.
Definition mseEnqueue := enqueue mseUpdating mseAppend mseRemove.
Definition mseTrim := trim mseUpdating mseAppend mseRemove.

Definition bytes (n : nat) : ArrayBuffer := repeat Byte.x00 n.

(** An opened adapter over a buffer holding ten seconds of media. *)
Definition opened (busy : bool) : State Mse :=
  {| source := Some {| mseUpdating := busy; room := 100; duration := 10;
                       appendedBytes := []; removedRanges := [] |};
     queue := []; lastSegmentId := None; pendingTrimRanges := [] |}.

(** A segment of the stream "main" that declares an init payload. *)
Definition withInit (n : Z) : Segment :=
  {| id := JS.VNum n; data := Some (bytes 2);
     variant := Some {| stream_id := JS.VStr "main"; init := Some (bytes 1) |} |}.

Definition plain (n : Z) : Segment :=
  {| id := JS.VNum n; data := Some (bytes 2);
     variant := Some {| stream_id := JS.VStr "main"; init := None |} |}.

(** While the buffer is busy a segment and a trim beyond the duration are
    queued; on [updateend] the trim is refused and the segment is appended
    in the same flush. *)
Definition rejectedTrimSession : State Mse * list SinkCall :=
  let st1 := (mseEnqueue (plain 7) (opened true)).1 in
  let st2 := (mseTrim (JS.Fin 20) (JS.Fin 30) st1).1 in
  onUpdateEnd st2.

(** Two segments of the same stream, each declaring the init payload: the
    init payload reaches the sink twice. *)
Definition twoInitsSession : list SinkCall :=
  let '(st1, c1) := mseEnqueue (withInit 1) (opened false) in
  let '(st2, c2) := onUpdateEnd st1 in
  let '(st3, c3) := onUpdateEnd st2 in
  let '(st4, c4) := mseEnqueue (withInit 2) st3 in
  c1 ++ c2 ++ c3 ++ c4.

(** A ready sink with one trim and one segment queued. *)
Definition trimAndSegmentQueued : State Mse :=
  {| source := source (opened false);
     queue := [dataEntry (plain 7) (bytes 2)];
     lastSegmentId := None;
     pendingTrimRanges := [ {| start := JS.Fin 0; end_ := JS.Fin 5 |} ] |}.

End Examples.

(* ================================================================== *)
(** * Properties *)

(** ** The sort *)

Section SortFacts.
Context {A : Type} (le : A -> A -> bool).

Lemma insertSorted_Permutation x l : insertSorted le x l ≡ₚ x :: l.
Proof.
  induction l as [|y l IH]; simpl; [done|].
  destruct (le x y); [done|].
  rewrite IH. apply Permutation_swap.
Qed.

Lemma sortBy_Permutation l : sortBy le l ≡ₚ l.
Proof.
  induction l as [|x l IH]; simpl; [done|].
  rewrite insertSorted_Permutation. by rewrite IH.
Qed.

Lemma sortBy_length l : List.length (sortBy le l) = List.length l.
Proof. apply Permutation_length, sortBy_Permutation. Qed.

Lemma elem_of_sortBy x l : x ∈ sortBy le l ↔ x ∈ l.
Proof. by rewrite sortBy_Permutation. Qed.

Lemma insertSorted_HdRel a x l :
  le a x = true -> HdRel (fun u v => le u v = true) a l ->
  HdRel (fun u v => le u v = true) a (insertSorted le x l).
Proof.
  intros Hax Hal. destruct l as [|y l]; simpl.
  - by constructor.
  - destruct (le x y); constructor; [done|].
    by inversion Hal.
Qed.

Section Total.
Hypothesis le_total : forall x y, le x y = false -> le y x = true.

Lemma insertSorted_Sorted x l :
  Sorted (fun u v => le u v = true) l ->
  Sorted (fun u v => le u v = true) (insertSorted le x l).
Proof.
  induction 1 as [|y l Hs IH Hhd]; simpl.
  - repeat constructor.
  - destruct (le x y) eqn:Hxy.
    + constructor; [by constructor|by constructor].
    + constructor; [done|].
      apply insertSorted_HdRel; [by apply le_total|done].
Qed.

Lemma sortBy_Sorted l : Sorted (fun u v => le u v = true) (sortBy le l).
Proof.
  induction l as [|x l IH]; simpl; [constructor|].
  by apply insertSorted_Sorted.
Qed.
End Total.

End SortFacts.

(** ** The queue store *)

Module PlaylistFacts.
Import Playlist Examples.

Lemma withQueueIndex_same item : withQueueIndex (queueIndex item) item = item.
Proof. by destruct item. Qed.

Lemma getItem_Some i s item :
  getItem i s = Some item -> item ∈ rows s /\ id item = i.
Proof.
  unfold getItem. intros H. apply find_some in H as [Hin Heq].
  split; [by apply list_elem_of_In|lia].
Qed.

Lemma getItem_None i s : getItem i s = None -> i ∉ ids s.
Proof.
  unfold getItem, ids. intros H Hin.
  apply list_elem_of_In, in_map_iff in Hin as (r & Hr & Hin).
  pose proof (find_none _ _ H r Hin) as Hn. simpl in Hn. lia.
Qed.

Lemma id_inj_in s a b :
  NoDup (ids s) -> a ∈ rows s -> b ∈ rows s -> id a = id b -> a = b.
Proof.
  unfold ids. generalize (rows s). intros l Hnd Ha Hb Hab.
  induction l as [|r l IH]; [by apply elem_of_nil in Ha|].
  simpl in Hnd. apply NoDup_cons in Hnd as [Hr Hnd].
  apply elem_of_cons in Ha as [->|Ha]; apply elem_of_cons in Hb as [->|Hb];
    try done.
  - exfalso. apply Hr. rewrite Hab.
    apply list_elem_of_In, in_map, list_elem_of_In, Hb.
  - exfalso. apply Hr. rewrite <- Hab.
    apply list_elem_of_In, in_map, list_elem_of_In, Ha.
  - by apply IH.
Qed.

Lemma queueIndex_inj_in s a b :
  NoDup (indices s) -> a ∈ rows s -> b ∈ rows s ->
  queueIndex a = queueIndex b -> a = b.
Proof.
  unfold indices. generalize (rows s). intros l Hnd Ha Hb Hab.
  induction l as [|r l IH]; [by apply elem_of_nil in Ha|].
  simpl in Hnd. apply NoDup_cons in Hnd as [Hr Hnd].
  apply elem_of_cons in Ha as [->|Ha]; apply elem_of_cons in Hb as [->|Hb];
    try done.
  - exfalso. apply Hr. rewrite Hab.
    apply list_elem_of_In, in_map, list_elem_of_In, Hb.
  - exfalso. apply Hr. rewrite <- Hab.
    apply list_elem_of_In, in_map, list_elem_of_In, Ha.
  - by apply IH.
Qed.

Lemma getItem_in s item :
  NoDup (ids s) -> item ∈ rows s -> getItem (id item) s = Some item.
Proof.
  intros Hnd Hin. unfold getItem.
  destruct (find _ _) as [r|] eqn:Hf.
  - apply find_some in Hf as [Hr Heq].
    f_equal. apply (id_inj_in s); [done| |done|lia].
    by apply list_elem_of_In.
  - apply list_elem_of_In in Hin.
    pose proof (find_none _ _ Hf item Hin) as Hn. simpl in Hn. lia.
Qed.

(** *** Index lists after each primitive *)

Lemma indices_shift fromIndex shift s :
  indices (shiftQueueIndices fromIndex shift s)
  = map (shiftIndex fromIndex shift) (indices s).
Proof.
  unfold indices, shiftQueueIndices, shiftIndex; simpl.
  rewrite !map_map. apply map_ext. intros r.
  by destruct (fromIndex <=? queueIndex r).
Qed.

Lemma ids_shift fromIndex shift s :
  ids (shiftQueueIndices fromIndex shift s) = ids s.
Proof.
  unfold ids, shiftQueueIndices; simpl.
  rewrite map_map. apply map_ext. intros r.
  by destruct (fromIndex <=? queueIndex r).
Qed.

Lemma count_shift fromIndex shift s :
  count (shiftQueueIndices fromIndex shift s) = count s.
Proof. unfold count, shiftQueueIndices; simpl. by rewrite length_map. Qed.

Lemma wf_shift fromIndex shift s : wf s -> wf (shiftQueueIndices fromIndex shift s).
Proof.
  intros [Hnd Hlt]. split; [by rewrite ids_shift|].
  unfold shiftQueueIndices; simpl.
  apply Forall_forall. intros r Hr.
  apply list_elem_of_In, in_map_iff in Hr as (r0 & <- & Hr0).
  rewrite Forall_forall in Hlt. apply list_elem_of_In in Hr0.
  specialize (Hlt r0 Hr0). by destruct (fromIndex <=? queueIndex r0).
Qed.

Lemma shiftIndex_spec f d q :
  (f <= q /\ shiftIndex f d q = q + d) \/ (q < f /\ shiftIndex f d q = q).
Proof. unfold shiftIndex. destruct (Z.leb_spec f q); [left|right]; done. Qed.

Lemma add_rows b md ins s :
  rows (fst (add b md ins s))
  = rows (match ins with
          | Some i => if i <? count s then shiftQueueIndices i 1 s else s
          | None => s
          end)
    ++ [ {| id := keyGen s; blob := Some b;
            queueIndex := match ins with
                          | Some i => Z.max 0 (Z.min i (count s))
                          | None => count s
                          end;
            metadata := md |} ].
Proof.
  unfold add; simpl. destruct ins as [i|]; [|done].
  by destruct (i <? count s).
Qed.

Lemma add_keyGen b md ins s : keyGen (fst (add b md ins s)) = keyGen s + 1.
Proof.
  unfold add; simpl. destruct ins as [i|]; [|done].
  by destruct (i <? count s).
Qed.

Lemma add_count b md ins s : count (fst (add b md ins s)) = count s + 1.
Proof.
  unfold count. rewrite add_rows, length_app; simpl.
  destruct ins as [i|]; [destruct (i <? _)|]; simpl; rewrite ?length_map; lia.
Qed.

Lemma wf_add b md ins s : wf s -> wf (fst (add b md ins s)).
Proof.
  intros Hwf.
  assert (Hwf1 : wf (match ins with
          | Some i => if i <? count s then shiftQueueIndices i 1 s else s
          | None => s
          end)).
  { destruct ins as [i|]; [destruct (i <? _)|]; auto using wf_shift. }
  assert (Hk : keyGen (match ins with
          | Some i => if i <? count s then shiftQueueIndices i 1 s else s
          | None => s
          end) = keyGen s).
  { destruct ins as [i|]; [destruct (i <? _)|]; done. }
  destruct Hwf1 as [Hnd Hlt]. rewrite Hk in Hlt.
  split.
  - unfold ids. rewrite add_rows, map_app; simpl.
    apply NoDup_app. split; [done|]. split; [|apply NoDup_singleton].
    intros x Hx Hx'. apply list_elem_of_singleton in Hx'. subst x.
    apply list_elem_of_In, in_map_iff in Hx as (r & Hr & Hin).
    rewrite Forall_forall in Hlt. apply list_elem_of_In in Hin.
    specialize (Hlt r Hin). lia.
  - rewrite add_keyGen, add_rows. apply Forall_app. split.
    + eapply Forall_impl; [exact Hlt|]. simpl. intros; lia.
    + apply Forall_singleton. simpl. lia.
Qed.

Lemma contiguous_add b md ins s : contiguous s -> contiguous (fst (add b md ins s)).
Proof.
  intros [Hnd Hrange]. unfold contiguous.
  rewrite add_count. unfold indices in *. rewrite add_rows, map_app. simpl.
  fold (indices s) in *.
  rewrite Forall_forall in Hrange.
  assert (Hc : 0 <= count s) by (unfold count; lia).
  destruct ins as [i|]; [destruct (Z.ltb_spec i (count s)) as [Hi|Hi]|].
  - fold (indices (shiftQueueIndices i 1 s)). rewrite indices_shift.
    split.
    + apply NoDup_app. split; [|split; [|apply NoDup_singleton]].
      * apply NoDup_fmap_2_strong; [|done].
        intros x y Hx Hy.
        destruct (shiftIndex_spec i 1 x) as [[? ->]|[? ->]],
                 (shiftIndex_spec i 1 y) as [[? ->]|[? ->]]; intros ?; lia.
      * intros x Hx Hx'. apply list_elem_of_singleton in Hx'. subst x.
        apply list_elem_of_In, in_map_iff in Hx as (q & Hq & Hin).
        apply list_elem_of_In in Hin. specialize (Hrange q Hin).
        destruct (shiftIndex_spec i 1 q) as [[? Hs]|[? Hs]]; lia.
    + apply Forall_app. split; [|apply Forall_singleton; lia].
      apply Forall_forall. intros x Hx.
      apply list_elem_of_In, in_map_iff in Hx as (q & Hq & Hin).
      apply list_elem_of_In in Hin. specialize (Hrange q Hin).
      destruct (shiftIndex_spec i 1 q) as [[? Hs]|[? Hs]]; lia.
  - split.
    + apply NoDup_app. split; [done|split; [|apply NoDup_singleton]].
      intros x Hx Hx'. apply list_elem_of_singleton in Hx'. subst x.
      specialize (Hrange _ Hx). lia.
    + apply Forall_app. split; [|apply Forall_singleton; lia].
      apply Forall_forall. intros x Hx. specialize (Hrange _ Hx). lia.
  - split.
    + apply NoDup_app. split; [done|split; [|apply NoDup_singleton]].
      intros x Hx Hx'. apply list_elem_of_singleton in Hx'. subst x.
      specialize (Hrange _ Hx). lia.
    + apply Forall_app. split; [|apply Forall_singleton; lia].
      apply Forall_forall. intros x Hx. specialize (Hrange _ Hx). lia.
Qed.

(** remove *)
Lemma elem_of_ids r s : r ∈ rows s -> id r ∈ ids s.
Proof. intros. unfold ids. apply list_elem_of_In, in_map, list_elem_of_In. done. Qed.

Lemma elem_of_indices r s : r ∈ rows s -> queueIndex r ∈ indices s.
Proof. intros. unfold indices. apply list_elem_of_In, in_map, list_elem_of_In. done. Qed.

Lemma NoDup_rows s : NoDup (ids s) -> NoDup (rows s).
Proof. unfold ids. apply (NoDup_fmap_1 id). Qed.

Lemma rows_delete i s r : r ∈ rows (delete i s) <-> r ∈ rows s /\ id r <> i.
Proof.
  unfold delete; simpl. rewrite !list_elem_of_In, filter_In.
  destruct (Z.eqb_spec (id r) i); simpl; intuition congruence.
Qed.

Lemma length_delete i s item :
  NoDup (ids s) -> item ∈ rows s -> id item = i ->
  count (delete i s) = count s - 1.
Proof.
  unfold count, delete, ids; simpl. generalize (rows s).
  intros l Hnd Hin <-. induction l as [|r l IH]; [by apply elem_of_nil in Hin|].
  simpl in Hnd. apply NoDup_cons in Hnd as [Hr Hnd]. simpl.
  apply elem_of_cons in Hin as [->|Hin].
  - rewrite Z.eqb_refl; simpl.
    assert (Hall : List.filter (fun x => negb (id x =? id r)) l = l).
    { apply forallb_filter_id, forallb_forall. intros x Hx.
      destruct (Z.eqb_spec (id x) (id r)) as [Heq|Hne]; [|done].
      exfalso. apply Hr. rewrite <- Heq.
      apply list_elem_of_In, in_map, Hx. }
    rewrite Hall. lia.
  - destruct (Z.eqb_spec (id r) (id item)) as [Heq|Hne]; simpl.
    + exfalso. apply Hr. rewrite Heq.
      apply list_elem_of_In, in_map, list_elem_of_In, Hin.
    + specialize (IH Hnd Hin). simpl. lia.
Qed.

Lemma wf_delete i s : wf s -> wf (delete i s).
Proof.
  intros [Hnd Hlt]. split.
  - unfold ids, delete; simpl. revert Hnd. unfold ids.
    generalize (rows s). intros l Hnd.
    induction l as [|r l IH]; simpl; [constructor|].
    simpl in Hnd. apply NoDup_cons in Hnd as [Hr Hnd].
    destruct (negb (id r =? i)); simpl; [|by apply IH].
    apply NoDup_cons. split; [|by apply IH].
    intros Hin. apply Hr.
    apply list_elem_of_In, in_map_iff in Hin as (x & Hx & Hin).
    apply filter_In in Hin as [Hin _].
    rewrite <- Hx. apply list_elem_of_In, in_map, Hin.
  - apply Forall_forall. intros r Hr. apply rows_delete in Hr as [Hr _].
    rewrite Forall_forall in Hlt. by apply Hlt.
Qed.

Lemma wf_remove i s s' : wf s -> remove i s = Ok s' -> wf s'.
Proof.
  unfold remove. intros Hwf. destruct (getItem i s) as [item|]; [|done].
  intros [= <-]. by apply wf_shift, wf_delete.
Qed.

Lemma contiguous_remove i s s' :
  wf s -> contiguous s -> remove i s = Ok s' -> contiguous s'.
Proof.
  unfold remove. intros [Hids _] [Hnd Hrange].
  destruct (getItem i s) as [item|] eqn:Hget; [|done].
  intros [= <-]. apply getItem_Some in Hget as [Hin Hid].
  rewrite Forall_forall in Hrange.
  pose proof (Hrange _ (elem_of_indices _ _ Hin)) as Hitem.
  assert (Hdel : forall q, q ∈ indices (delete i s) ->
                   0 <= q < count s /\ q <> queueIndex item).
  { intros q Hq. unfold indices in Hq.
    apply list_elem_of_In, in_map_iff in Hq as (r & <- & Hr).
    apply list_elem_of_In, rows_delete in Hr as [Hr Hne].
    split; [by apply Hrange, elem_of_indices|].
    intros Heq. apply Hne. rewrite <- Hid. f_equal.
    by apply (queueIndex_inj_in s). }
  unfold contiguous. rewrite indices_shift, count_shift.
  rewrite (length_delete i s item) by done.
  split.
  - apply NoDup_fmap_2_strong.
    + intros x y Hx Hy. apply Hdel in Hx, Hy.
      destruct (shiftIndex_spec (queueIndex item + 1) (-1) x) as [[? ->]|[? ->]],
               (shiftIndex_spec (queueIndex item + 1) (-1) y) as [[? ->]|[? ->]];
        intros ?; lia.
    + unfold indices. apply NoDup_fmap_2_strong.
      * intros x y Hx Hy. apply rows_delete in Hx as [Hx _].
        apply rows_delete in Hy as [Hy _]. by apply (queueIndex_inj_in s).
      * unfold delete; simpl. apply NoDup_ListNoDup, List.NoDup_filter,
          NoDup_ListNoDup, NoDup_rows, Hids.
  - apply Forall_forall. intros x Hx.
    apply list_elem_of_In, in_map_iff in Hx as (q & <- & Hq).
    apply list_elem_of_In, Hdel in Hq.
    destruct (shiftIndex_spec (queueIndex item + 1) (-1) q) as [[? ->]|[? ->]]; lia.
Qed.

(** reorder *)
Lemma elem_of_getAll r s : r ∈ getAll s <-> r ∈ rows s.
Proof. unfold getAll, indexGetAll. by rewrite !elem_of_sortBy. Qed.

Lemma length_getAll s : List.length (getAll s) = List.length (rows s).
Proof. unfold getAll, indexGetAll. by rewrite !sortBy_length. Qed.

Lemma put_rows item s :
  id item ∈ ids s ->
  rows (put item s) = map (fun r => if id r =? id item then item else r) (rows s).
Proof.
  intros Hin. unfold put; simpl.
  destruct (existsb _ _) eqn:He; [done|].
  exfalso. unfold ids in Hin.
  apply list_elem_of_In, in_map_iff in Hin as (r & Hr & Hin).
  apply Bool.not_true_iff_false in He. apply He.
  apply existsb_exists. exists r. split; [done|]. lia.
Qed.

Lemma ids_put item s : id item ∈ ids s -> ids (put item s) = ids s.
Proof.
  intros Hin. unfold ids. rewrite put_rows by done.
  rewrite map_map. apply map_ext. intros r.
  destruct (Z.eqb_spec (id r) (id item)); done.
Qed.

Lemma wf_put item s : wf s -> id item ∈ ids s -> wf (put item s).
Proof.
  intros [Hnd Hlt] Hin. rewrite Forall_forall in Hlt.
  assert (Hk : id item < keyGen s).
  { unfold ids in Hin.
    apply list_elem_of_In, in_map_iff in Hin as (r & <- & Hin).
    by apply Hlt, list_elem_of_In. }
  split; [by rewrite ids_put|].
  rewrite put_rows by done. apply Forall_forall. intros r Hr.
  apply list_elem_of_In, in_map_iff in Hr as (r0 & <- & Hr0).
  apply list_elem_of_In, Hlt in Hr0. simpl.
  destruct (id r0 =? id item); lia.
Qed.

Lemma reorder_Ok f t s s' :
  reorder f t s = Ok s' ->
  exists a b,
    getAll s !! Z.to_nat f = Some a /\ getAll s !! Z.to_nat t = Some b /\
    s' = put (withQueueIndex (queueIndex a) b)
             (put (withQueueIndex (queueIndex b) a) s).
Proof.
  unfold reorder. destruct (_ || _); [done|].
  destruct (getAll s !! Z.to_nat f) as [a|] eqn:Ha; [|done].
  destruct (getAll s !! Z.to_nat t) as [b|] eqn:Hb; [|done].
  intros H. exists a, b. split; [done|]. split; [done|].
  pose proof (lookup_lt_Some _ _ _ Ha) as Hlf.
  pose proof (lookup_lt_Some _ _ _ Hb) as Hlt.
  destruct (decide (Z.to_nat f = Z.to_nat t)) as [Heq|Hne].
  - rewrite Heq in *. assert (a = b) by congruence. subst b.
    rewrite withQueueIndex_same in *.
    rewrite list_insert_id in H by done. rewrite Hb in H.
    rewrite withQueueIndex_same in H.
    rewrite list_insert_id in H by done. rewrite Hb in H.
    by injection H as <-.
  - rewrite list_lookup_insert_ne in H by done. rewrite Hb in H.
    rewrite list_lookup_insert_ne in H by done.
    rewrite list_lookup_insert_eq in H by done.
    rewrite list_lookup_insert_eq in H by (by rewrite length_insert).
    by injection H as <-.
Qed.

Lemma transpose_inj x y : Inj (=) (=) (transpose x y).
Proof.
  intros p q. unfold transpose.
  destruct (Z.eqb_spec p x), (Z.eqb_spec p y), (Z.eqb_spec q x),
    (Z.eqb_spec q y); intros ?; lia.
Qed.

Lemma swap_indices a b s :
  wf s -> NoDup (indices s) -> a ∈ rows s -> b ∈ rows s ->
  let s' := put (withQueueIndex (queueIndex a) b)
                (put (withQueueIndex (queueIndex b) a) s) in
  wf s' /\ count s' = count s /\
  indices s' = map (transpose (queueIndex a) (queueIndex b)) (indices s).
Proof.
  intros Hwf Hnd Ha Hb s'.
  assert (Hia : id (withQueueIndex (queueIndex b) a) ∈ ids s)
    by (simpl; by apply elem_of_ids).
  assert (Hwf1 : wf (put (withQueueIndex (queueIndex b) a) s))
    by (by apply wf_put).
  assert (Hib : id (withQueueIndex (queueIndex a) b)
                  ∈ ids (put (withQueueIndex (queueIndex b) a) s)).
  { rewrite ids_put by done. simpl. by apply elem_of_ids. }
  split; [by apply wf_put|].
  unfold s', count, indices. rewrite !put_rows by done.
  split; [by rewrite !length_map|].
  rewrite !map_map. apply map_ext_in. intros r Hr. simpl.
  apply list_elem_of_In in Hr. destruct Hwf as [Hids _].
  unfold transpose.
  destruct (Z.eqb_spec (id r) (id a)) as [Hra|Hra]; simpl.
  - assert (r = a) by (by apply (id_inj_in s)). subst r.
    rewrite Z.eqb_refl.
    destruct (Z.eqb_spec (id a) (id b)) as [Hab|Hab]; simpl; [|done].
    assert (a = b) by (by apply (id_inj_in s)). by subst b.
  - destruct (Z.eqb_spec (id r) (id b)) as [Hrb|Hrb]; simpl.
    + assert (r = b) by (by apply (id_inj_in s)). subst r.
      destruct (Z.eqb_spec (queueIndex b) (queueIndex a)) as [Hq|Hq]; [done|].
      by rewrite Z.eqb_refl.
    + destruct (Z.eqb_spec (queueIndex r) (queueIndex a)) as [Hq|Hq].
      { exfalso. apply Hra. f_equal. by apply (queueIndex_inj_in s). }
      destruct (Z.eqb_spec (queueIndex r) (queueIndex b)) as [Hq'|Hq']; [|done].
      exfalso. apply Hrb. f_equal. by apply (queueIndex_inj_in s).
Qed.

Lemma reorder_preserves f t s s' :
  wf s -> contiguous s -> reorder f t s = Ok s' -> wf s' /\ contiguous s'.
Proof.
  intros Hwf [Hnd Hrange] Hre.
  apply reorder_Ok in Hre as (a & b & Ha & Hb & ->).
  apply list_elem_of_lookup_2, elem_of_getAll in Ha, Hb.
  destruct (swap_indices a b s Hwf Hnd Ha Hb) as (Hwf' & Hcount & Hind).
  split; [done|]. unfold contiguous. rewrite Hind, Hcount.
  rewrite Forall_forall in Hrange.
  split.
  - apply NoDup_fmap_2; [apply transpose_inj|done].
  - apply Forall_forall. intros x Hx.
    apply list_elem_of_In, in_map_iff in Hx as (q & <- & Hq).
    apply list_elem_of_In in Hq.
    pose proof (Hrange _ Hq). pose proof (Hrange _ (elem_of_indices _ _ Ha)).
    pose proof (Hrange _ (elem_of_indices _ _ Hb)).
    unfold transpose. destruct (q =? _); [done|]. by destruct (q =? _).
Qed.

Lemma wf_empty : wf emptyStore.
Proof. split; constructor. Qed.

Lemma contiguous_empty : contiguous emptyStore.
Proof. split; constructor. Qed.

Lemma step_preserves s op :
  wf s /\ contiguous s -> wf (step s op) /\ contiguous (step s op).
Proof.
  intros [Hwf Hc]. destruct op as [b md ins|i|f t]; simpl.
  - split; [by apply wf_add|by apply contiguous_add].
  - destruct (remove i s) as [s'|e] eqn:Hr; [|done].
    split; [by eapply wf_remove|by eapply contiguous_remove].
  - destruct (reorder f t s) as [s'|e] eqn:Hr; [|done].
    by eapply reorder_preserves.
Qed.

Lemma run_preserves ops : wf (run ops) /\ contiguous (run ops).
Proof.
  unfold run. 
  assert (H : forall s, wf s /\ contiguous s ->
                wf (foldl step s ops) /\ contiguous (foldl step s ops)).
  { induction ops as [|op ops IH]; intros s Hs; simpl; [done|].
    by apply IH, step_preserves. }
  apply H. split; [apply wf_empty|apply contiguous_empty].
Qed.

Lemma contiguous_exact s :
  contiguous s -> forall q, q ∈ indices s <-> 0 <= q < count s.
Proof.
  intros [Hnd Hrange] q. rewrite Forall_forall in Hrange.
  split; [apply Hrange|]. intros Hq.
  assert (Hincl : incl (map Z.of_nat (seq 0 (List.length (indices s))))
                       (indices s)).
  { apply NoDup_length_incl.
    - by apply NoDup_ListNoDup.
    - by rewrite length_map, length_seq.
    - intros x Hx. apply list_elem_of_In, Hrange in Hx.
      apply in_map_iff. exists (Z.to_nat x). split; [lia|].
      apply in_seq. unfold count, indices in *. rewrite length_map. lia. }
  apply list_elem_of_In, Hincl, in_map_iff. exists (Z.to_nat q).
  split; [lia|]. apply in_seq. unfold count, indices in *.
  rewrite length_map. lia.
Qed.


Lemma getItem_app i l1 l2 k :
  getItem i {| rows := l1 ++ l2; keyGen := k |}
  = match getItem i {| rows := l1; keyGen := k |} with
    | Some r => Some r
    | None => getItem i {| rows := l2; keyGen := k |}
    end.
Proof.
  unfold getItem; simpl. induction l1 as [|r l1 IH]; simpl; [done|].
  by destruct (id r =? i).
Qed.

Lemma getItem_rows i s k : getItem i {| rows := rows s; keyGen := k |} = getItem i s.
Proof. done. Qed.

Lemma getItem_shift i fromIndex shift s :
  getItem i (shiftQueueIndices fromIndex shift s)
  = option_map (fun item => withQueueIndex (shiftIndex fromIndex shift (queueIndex item)) item)
               (getItem i s).
Proof.
  unfold getItem, shiftQueueIndices, shiftIndex; simpl.
  induction (rows s) as [|r l IH]; simpl; [done|].
  destruct (fromIndex <=? queueIndex r) eqn:Hle; simpl.
  - destruct (id r =? i); simpl; [by rewrite Hle|done].
  - destruct (id r =? i); simpl; [|done].
    rewrite Hle. by rewrite withQueueIndex_same.
Qed.


Lemma getItem_put_ne j item s :
  j <> id item -> getItem j (put item s) = getItem j s.
Proof.
  intros Hne. unfold getItem, put; simpl.
  destruct (existsb _ _).
  - induction (rows s) as [|r l IH]; simpl; [done|].
    destruct (Z.eqb_spec (id r) (id item)) as [Heq|Hneq].
    + destruct (Z.eqb_spec (id item) j); [lia|].
      destruct (Z.eqb_spec (id r) j); [lia|]. done.
    + destruct (id r =? j); [done|]. done.
  - induction (rows s) as [|r l IH]; simpl.
    + destruct (Z.eqb_spec (id item) j); [lia|done].
    + by destruct (id r =? j).
Qed.

Lemma getItem_put_eq item s :
  is_Some (getItem (id item) s) ->
  getItem (id item) (put item s) = Some item.
Proof.
  intros [r Hr]. unfold put; simpl.
  assert (He : existsb (fun r => id r =? id item) (rows s) = true).
  { apply existsb_exists. exists r. apply getItem_Some in Hr as [Hin Hid].
    split; [by apply list_elem_of_In|lia]. }
  rewrite He. unfold getItem in *; simpl.
  induction (rows s) as [|x l IH]; simpl in *; [done|].
  destruct (Z.eqb_spec (id x) (id item)) as [Heq|Hneq].
  - by rewrite Z.eqb_refl.
  - destruct (Z.eqb_spec (id x) (id item)); [done|].
    apply IH; [done|]. simpl in He.
    destruct (Z.eqb_spec (id x) (id item)); [done|]. done.
Qed.

Lemma getItem_is_Some r s : r ∈ rows s -> is_Some (getItem (id r) s).
Proof.
  intros Hin. unfold getItem. destruct (find _ _) eqn:Hf; [by eexists|].
  apply list_elem_of_In in Hin.
  pose proof (find_none _ _ Hf r Hin) as Hn. simpl in Hn. lia.
Qed.

Lemma updateItem_Ok i updates s item :
  getItem i s = Some item ->
  updateItem i updates s = Ok (put (updated updates item) s)
  /\ getItem i (put (updated updates item) s) = Some (updated updates item)
  /\ forall j, j <> i -> getItem j (put (updated updates item) s) = getItem j s.
Proof.
  intros Hg. pose proof (getItem_Some _ _ _ Hg) as [Hin Hid].
  split; [|split].
  - unfold updateItem. by rewrite Hg.
  - rewrite <- Hid at 1.
    change (id item) with (id (updated updates item)).
    apply getItem_put_eq. simpl. rewrite Hid, Hg. by eexists.
  - intros j Hj. apply getItem_put_ne. simpl. lia.
Qed.

Theorem updateItem_merges_metadata i updates m s item :
  getItem i s = Some item ->
  u_metadata updates = Some m ->
  exists s' item',
    updateItem i updates s = Ok s'
    /\ getItem i s' = Some item'
    /\ metadata item' = m ∪ metadata item
    /\ (forall k v, m !! k = Some v -> metadata item' !! k = Some v)
    /\ (forall k, m !! k = None -> metadata item' !! k = metadata item !! k).
Proof.
  intros Hg Hm. destruct (updateItem_Ok i updates s item Hg) as (Hu & Hget & _).
  exists (put (updated updates item) s), (updated updates item).
  split; [done|]. split; [done|]. simpl. rewrite Hm.
  split; [done|]. split.
  - intros k v Hk. by apply lookup_union_Some_l.
  - intros k Hk. by apply lookup_union_r.
Qed.

Lemma wf_fourEntries : wf fourEntries.
Proof. apply run_preserves. Qed.


End PlaylistFacts.

(** ** Upsert *)

Module UpsertFacts.
Import Playlist PlaylistFacts Roll Examples.

Lemma matchesAll_agrees fs vs md :
  List.length fs = List.length vs ->
  matchesAll fs vs md = true <->
  (forall (k : nat) f v, fs !! k = Some f -> vs !! k = Some v -> JS.get md f = v).
Proof.
  revert vs. induction fs as [|f fs IH]; intros vs Hlen; simpl.
  - split; [|done]. intros _ k f v Hk. by rewrite lookup_nil in Hk.
  - destruct vs as [|v vs]; [done|]. simpl in Hlen.
    unfold JS.strict_eq. simpl. case_bool_decide as Heq.
    + rewrite IH by lia. split.
      * intros H [|k] f' v' Hf Hv; simpl in *; [congruence|by eapply H].
      * intros H k f' v' Hf Hv. by apply (H (S k)).
    + split; [done|]. intros H. exfalso. apply Heq. by apply (H 0%nat).
Qed.

Lemma find_first {A} (p : A -> bool) (l : list A) :
  match find p l with
  | Some x => exists k : nat, l !! k = Some x /\ p x = true /\
                forall (j : nat) y, (j < k)%nat -> l !! j = Some y -> p y = false
  | None => forall y, y ∈ l -> p y = false
  end.
Proof.
  induction l as [|a l IH]; simpl.
  - intros y Hy. by apply elem_of_nil in Hy.
  - destruct (p a) eqn:Hpa.
    + exists 0%nat. split; [done|]. split; [done|]. intros; lia.
    + destruct (find p l) as [x|].
      * destruct IH as (k & Hk & Hpx & Hmin). exists (S k).
        split; [done|]. split; [done|].
        intros [|j] y Hj Hy; simpl in Hy; [congruence|].
        apply (Hmin j); [lia|done].
      * intros y Hy. apply elem_of_cons in Hy as [->|Hy]; [done|by apply IH].
Qed.

Lemma findItemByMetadata_spec mb s :
  List.length (fields mb) = List.length (values mb) ->
  match find (fun item => matchesAll (fields mb) (values mb) (metadata item))
             (getAll s) with
  | Some m =>
      findItemByMetadata (fields mb) (values mb) s = Ok (Some m)
      /\ firstMatch mb s m
  | None =>
      findItemByMetadata (fields mb) (values mb) s = Ok None
      /\ forall r, r ∈ rows s -> ~ agrees mb r
  end.
Proof.
  intros Hlen. unfold findItemByMetadata. rewrite Hlen, Nat.eqb_refl. simpl.
  pose proof (find_first
    (fun item => matchesAll (fields mb) (values mb) (metadata item))
    (getAll s)) as Hf.
  destruct (find _ _) as [m|].
  - split; [done|]. destruct Hf as (k & Hk & Hm & Hmin).
    exists k. split; [done|]. split.
    + exact (proj1 (matchesAll_agrees _ _ (metadata m) Hlen) Hm).
    + intros j r Hj Hr Hag.
      pose proof (proj2 (matchesAll_agrees _ _ (metadata r) Hlen) Hag) as Hag'.
      specialize (Hmin j r Hj Hr). simpl in Hmin. congruence.
  - split; [done|]. intros r Hr Hag.
    pose proof (proj2 (matchesAll_agrees _ _ (metadata r) Hlen) Hag) as Hag'.
    apply elem_of_getAll in Hr. specialize (Hf r Hr). simpl in Hf. congruence.
Qed.

Lemma upsert_existing b md options s i item existing :
  getItem i s = Some item ->
  updatesEntry b md options s i existing
    (s' <-? updateItem i (upsertUpdate b md options existing) s ;;
     Ok (s', {| r_id := i; inserted := false; matchedId := Some i |})).
Proof.
  intros Hg.
  destruct (updateItem_Ok i (upsertUpdate b md options existing) s item Hg)
    as (Hu & Hget & Hother).
  rewrite Hu. simpl. eexists. split; [done|]. split; [|done].
  intros stored Hs. rewrite Hg in Hs. by injection Hs as <-.
Qed.

(** C9.  An upsert that names the id of a stored entry rewrites that
    entry and reports [inserted = false] with that id as [matchedId];
    every other entry is as before, whatever [matchBy] says, and
    [matchBy] is not even checked for its arity.  Without an id match, a
    well-formed [matchBy] resolves to the first entry, in queue order, all
    of whose listed fields carry the listed values, and that entry is
    rewritten; when no entry agrees, or there is no [matchBy], the item is
    inserted by [add] and the outcome reports [inserted = true]. *)
Theorem upsert_match_priority b md options s :
  (forall i item,
      o_id options = Some i -> getItem i s = Some item ->
      updatesEntry b md options s i item (upsertItem b md options s))
  /\ (forall mb,
        (o_id options ≫= fun i => getItem i s) = None ->
        matchBy options = Some mb ->
        List.length (fields mb) = List.length (values mb) ->
        (forall m, firstMatch mb s m ->
                   updatesEntry b md options s (id m) m (upsertItem b md options s))
        /\ ((forall r, r ∈ rows s -> ~ agrees mb r) ->
            insertsEntry b md options s (upsertItem b md options s)))
  /\ ((o_id options ≫= fun i => getItem i s) = None ->
      matchBy options = None ->
      insertsEntry b md options s (upsertItem b md options s)).
Proof.
  split; [|split].
  - intros i item Hid Hg. unfold upsertItem. rewrite Hid, Hg. simpl.
    exact (upsert_existing b md options s i item item Hg).
  - intros mb Hnone Hmb Hlen.
    assert (Hup : upsertItem b md options s =
              (existing <-?
                 (matched <-? findItemByMetadata (fields mb) (values mb) s ;;
                  Ok (option_map (fun m => (m, id m)) matched)) ;;
               match existing with
               | Some (existingItem, matched) =>
                   s' <-? updateItem matched
                            (upsertUpdate b md options existingItem) s ;;
                   Ok (s', {| r_id := matched; inserted := false;
                              matchedId := Some matched |})
               | None =>
                   let '(s', key) := add b md (o_queueIndex options) s in
                   Ok (s', {| r_id := key; inserted := true; matchedId := None |})
               end)).
    { unfold upsertItem. rewrite Hmb.
      destruct (o_id options) as [i|]; simpl in *; [|done].
      by rewrite Hnone. }
    rewrite Hup. pose proof (findItemByMetadata_spec mb s Hlen) as Hspec.
    destruct (find _ _) as [m0|] eqn:Hfind.
    + destruct Hspec as [-> Hfirst]. simpl. split.
      * intros m Hm.
        assert (m = m0) as ->.
        { destruct Hfirst as (k0 & Hk0 & Ha0 & Hmin0).
          destruct Hm as (k & Hk & Ha & Hmin).
          destruct (Nat.lt_trichotomy k k0) as [Hlt|[Heq|Hgt]].
          - exfalso. by apply (Hmin0 k m).
          - subst. congruence.
          - exfalso. by apply (Hmin k0 m0). }
        destruct Hfirst as (k0 & Hk0 & _).
        apply list_elem_of_lookup_2, elem_of_getAll, getItem_is_Some in Hk0
          as [stored Hstored].
        by eapply upsert_existing.
      * intros Hno. exfalso. destruct Hfirst as (k0 & Hk0 & Ha0 & _).
        apply (Hno m0); [|done].
        by apply list_elem_of_lookup_2, elem_of_getAll in Hk0.
    + destruct Hspec as [-> Hno]. simpl. split.
      * intros m (k & Hk & Ha & _). exfalso. apply (Hno m); [|done].
        by apply list_elem_of_lookup_2, elem_of_getAll in Hk.
      * intros _. reflexivity.
  - intros Hnone Hmb. unfold upsertItem. rewrite Hmb.
    assert (Hex : match
               match o_id options with
               | Some i => getItem i s
               | None => None
               end, o_id options
             with
             | Some item, Some i => Ok (Some (item, i))
             | _, _ => Ok None
             end = Ok None).
    { destruct (o_id options) as [i|]; simpl in *; [|done]. by rewrite Hnone. }
    rewrite Hex. reflexivity.
Qed.

Lemma upsertItem_updated b md options s s' r :
  upsertItem b md options s = Ok (s', r) -> inserted r = false ->
  exists existing stored,
    getItem (r_id r) s = Some stored
    /\ s' = put (updated (upsertUpdate b md options existing) stored) s.
Proof.
  unfold upsertItem. intros H Hins.
  assert (Hupd : forall existing matched,
    (s1 <-? updateItem matched (upsertUpdate b md options existing) s ;;
     Ok (s1, {| r_id := matched; inserted := false;
                matchedId := Some matched |})) = Ok (s', r) ->
    exists existing stored,
      getItem (r_id r) s = Some stored
      /\ s' = put (updated (upsertUpdate b md options existing) stored) s).
  { intros existing matched Hu. unfold updateItem in Hu.
    destruct (getItem matched s) as [stored|] eqn:Hg; simpl in Hu; [|done].
    simplify_eq/=. exists existing, stored. by split. }
  assert (Hadd : (let '(s1, key) := add b md (o_queueIndex options) s in
                  Ok (s1, {| r_id := key; inserted := true;
                             matchedId := None |})) = Ok (s', r) -> False).
  { destruct (add b md (o_queueIndex options) s). intros ?. by simplify_eq/=. }
  destruct (o_id options) as [i|]; [destruct (getItem i s) as [item|]|];
    simpl in H; try (by eapply Hupd);
    (destruct (matchBy options) as [mb|]; simpl in H; [|by destruct Hadd]);
    (destruct (findItemByMetadata (fields mb) (values mb) s) as [[m|]|e];
     simpl in H; [by eapply Hupd|by destruct Hadd|done]).
Qed.

(** C10.  [updateItem] with a metadata map stores the shallow merge of the
    map over the previous metadata: a key of the map takes the map's
    value, any other key keeps its value.  So an upsert that updates an
    entry with [mergeMetadata = false] still leaves the stored keys that
    the supplied metadata does not mention. *)
Theorem metadata_never_replaced :
  (forall i updates m s item,
      getItem i s = Some item ->
      u_metadata updates = Some m ->
      exists s' item',
        updateItem i updates s = Ok s'
        /\ getItem i s' = Some item'
        /\ metadata item' = m ∪ metadata item
        /\ (forall k v, m !! k = Some v -> metadata item' !! k = Some v)
        /\ (forall k, m !! k = None -> metadata item' !! k = metadata item !! k))
  /\ (forall b md options s s' r,
        mergeMetadata options = Some false ->
        upsertItem b md options s = Ok (s', r) ->
        inserted r = false ->
        exists stored item',
          getItem (r_id r) s = Some stored
          /\ getItem (r_id r) s' = Some item'
          /\ (forall k v, md !! k = Some v -> metadata item' !! k = Some v)
          /\ (forall k, md !! k = None ->
                        metadata item' !! k = metadata stored !! k)).
Proof.
  split; [apply updateItem_merges_metadata|].
  intros b md options s s' r Hmerge Hup Hins.
  destruct (upsertItem_updated _ _ _ _ _ _ Hup Hins)
    as (existing & stored & Hg & ->).
  exists stored, (updated (upsertUpdate b md options existing) stored).
  split; [done|]. split.
  - pose proof (getItem_Some _ _ _ Hg) as [_ Hid].
    rewrite <- Hid at 1.
    change (id stored)
      with (id (updated (upsertUpdate b md options existing) stored)).
    apply getItem_put_eq. simpl. rewrite Hid, Hg. by eexists.
  - simpl. rewrite Hmerge. simpl. split.
    + intros k v Hk. by apply lookup_union_Some_l.
    + intros k Hk. by apply lookup_union_r.
Qed.

(** C9 at an example: the id names entry 2 while the predicate selects
    entry 1; entry 2 is the one rewritten. *)
Lemma upsert_match_priority_witness :
  exists item,
    getItem 2 fourEntries = Some item
    /\ updatesEntry (blobOf 7) {[ "title" := JS.VStr "t" ]} idAndPredicate
         fourEntries 2 item
         (upsertItem (blobOf 7) {[ "title" := JS.VStr "t" ]} idAndPredicate
            fourEntries).
Proof.
  eexists. split; [reflexivity|].
  apply (proj1 (upsert_match_priority (blobOf 7) {[ "title" := JS.VStr "t" ]}
                  idAndPredicate fourEntries));
    reflexivity.
Defined.

Example id_beats_predicate :
  firstMatch {| fields := ["filename"]; values := [JS.VStr "a"] |} fourEntries
    {| id := 1; blob := Some (blobOf 1); queueIndex := 0;
       metadata := {[ "filename" := JS.VStr "a" ]} |}
  /\ match upsertItem (blobOf 7) {[ "title" := JS.VStr "t" ]} idAndPredicate
             fourEntries with
     | Ok (s', r) =>
         r = {| r_id := 2; inserted := false; matchedId := Some 2 |}
         /\ getItem 1 s' = getItem 1 fourEntries
         /\ (metadata <$> getItem 2 s')
            = Some ({[ "title" := JS.VStr "t" ]} ∪ {[ "filename" := JS.VStr "b" ]})
     | Err _ => False
     end.
Proof.
  split.
  - exists 0%nat. split; [reflexivity|]. split.
    + intros [|[|k]] f v Hf Hv; simpl in *; simplify_eq; reflexivity.
    + intros j r Hj. lia.
  - vm_compute. repeat split; reflexivity.
Qed.

(** C10 at an example: updating entry 2 with a title keeps its filename. *)
Lemma metadata_never_replaced_witness :
  exists s' item',
    updateItem 2 {| u_blob := None; u_queueIndex := None;
                    u_metadata := Some {[ "title" := JS.VStr "t" ]} |}
      fourEntries = Ok s'
    /\ getItem 2 s' = Some item'
    /\ metadata item' !! "filename" = Some (JS.VStr "b")
    /\ metadata item' !! "title" = Some (JS.VStr "t").
Proof.
  destruct (proj1 metadata_never_replaced 2
              {| u_blob := None; u_queueIndex := None;
                 u_metadata := Some {[ "title" := JS.VStr "t" ]} |}
              {[ "title" := JS.VStr "t" ]} fourEntries
              {| id := 2; blob := Some (blobOf 2); queueIndex := 1;
                 metadata := {[ "filename" := JS.VStr "b" ]} |}
              eq_refl eq_refl)
    as (s' & item' & Hup & Hget & _ & Hnew & Hold).
  exists s', item'. split; [exact Hup|]. split; [exact Hget|]. split.
  - rewrite Hold; reflexivity.
  - apply Hnew. reflexivity.
Defined.

Example replace_flag_still_merges :
  match upsertItem (blobOf 7) {[ "title" := JS.VStr "t" ]}
          {| o_id := Some 2; matchBy := None; o_queueIndex := None;
             updateBlob := None; mergeMetadata := Some false |}
          fourEntries with
  | Ok (s', _) =>
      (metadata <$> getItem 2 s')
      = Some ({[ "title" := JS.VStr "t" ]} ∪ {[ "filename" := JS.VStr "b" ]})
  | Err _ => False
  end.
Proof. vm_compute. reflexivity. Qed.

End UpsertFacts.

(** ** Ordering reconciliation *)

Module OrderingFacts.
Import Playlist PlaylistFacts Roll Examples.

Lemma orderMap_snoc l d : orderMap (l ++ [d]) = <[fst d := snd d]> (orderMap l).
Proof. unfold orderMap. by rewrite foldl_snoc. Qed.

Lemma orderMap_lookup_Some l k q : orderMap l !! k = Some q -> k ∈ l.*1.
Proof.
  induction l as [|d l IH] using rev_ind.
  - unfold orderMap; simpl. by rewrite lookup_empty.
  - rewrite orderMap_snoc, fmap_app. intros H.
    destruct (decide (fst d = k)) as [<-|Hne].
    + apply elem_of_app. right. simpl. apply list_elem_of_singleton. done.
    + rewrite lookup_insert_ne in H by done.
      apply elem_of_app. left. by apply IH.
Qed.

Lemma buildOrdering_keys entries items k :
  k ∈ (buildOrderingFromEntries entries items).*1 -> k ∈ map id items.
Proof.
  unfold buildOrderingFromEntries. induction items as [|x items IH]; simpl.
  - by rewrite elem_of_nil.
  - destruct (resolveOrder entries x); simpl.
    + rewrite !elem_of_cons. intros [->|H]; [by left|right; by apply IH].
    + rewrite elem_of_cons. intros H. right. by apply IH.
Qed.

Lemma orderMap_build entries items item :
  NoDup (map id items) -> item ∈ items ->
  orderMap (buildOrderingFromEntries entries items) !! id item
  = resolveOrder entries item.
Proof.
  induction items as [|x items IH] using rev_ind; [by rewrite elem_of_nil|].
  rewrite map_app. intros Hnd Hin.
  apply NoDup_app in Hnd as (Hnd & Hdisj & _).
  assert (Hx : id x ∉ map id items).
  { intros Hx. apply (Hdisj _ Hx). simpl. by apply list_elem_of_singleton. }
  unfold buildOrderingFromEntries in *. rewrite omap_app. simpl.
  apply elem_of_app in Hin as [Hin|Hin].
  - assert (Hne : id x <> id item).
    { intros Heq. apply Hx. rewrite Heq.
      apply list_elem_of_In, in_map, list_elem_of_In, Hin. }
    destruct (resolveOrder entries x) as [q|]; simpl.
    + rewrite orderMap_snoc; simpl. rewrite lookup_insert_ne by done. by apply IH.
    + rewrite app_nil_r. by apply IH.
  - apply list_elem_of_singleton in Hin. subst item.
    destruct (resolveOrder entries x) as [q|]; simpl.
    + rewrite orderMap_snoc; simpl. by rewrite lookup_insert_eq.
    + rewrite app_nil_r.
      destruct (orderMap _ !! id x) as [q|] eqn:Hq; [|done].
      exfalso. apply Hx. eapply buildOrdering_keys, orderMap_lookup_Some, Hq.
Qed.

Lemma omap_ext_in {A B} (f g : A -> option B) (l : list A) :
  (forall x, x ∈ l -> f x = g x) -> omap f l = omap g l.
Proof.
  intros H. apply list_omap_ext.
  induction l as [|x l IH]; constructor.
  - apply H. by left.
  - apply IH. intros y Hy. apply H. by right.
Qed.

Lemma itemsWithOrder_resolved entries items :
  NoDup (map id items) ->
  itemsWithOrder (buildOrderingFromEntries entries items) items
  = resolved entries items.
Proof.
  intros Hnd. unfold itemsWithOrder, resolved.
  apply omap_ext_in. intros item Hin. by rewrite orderMap_build.
Qed.

Lemma itemsWithoutOrder_unresolved entries items :
  NoDup (map id items) ->
  itemsWithoutOrder (buildOrderingFromEntries entries items) items
  = unresolved entries items.
Proof.
  intros Hnd. unfold itemsWithoutOrder, unresolved.
  apply filter_ext_in. intros item Hin. apply list_elem_of_In in Hin.
  by rewrite orderMap_build.
Qed.

Lemma buildOrdering_length entries items :
  List.length (buildOrderingFromEntries entries items)
  = List.length (resolved entries items).
Proof.
  unfold buildOrderingFromEntries, resolved.
  induction items as [|x items IH] using rev_ind; [done|].
  rewrite !omap_app, !length_app, IH. f_equal. simpl.
  by destruct (resolveOrder entries x).
Qed.

Lemma finalOrdering_assignment entries items :
  NoDup (map id items) ->
  finalOrdering (buildOrderingFromEntries entries items) items
  = assignment (map fst (sortBy byOrder (resolved entries items))
                ++ unresolved entries items).
Proof.
  intros Hnd. unfold finalOrdering, assignment.
  rewrite itemsWithOrder_resolved, itemsWithoutOrder_unresolved by done.
  rewrite imap_app. f_equal.
  - generalize (sortBy byOrder (resolved entries items)). intros l.
    change (map fst l) with (fst <$> l). by rewrite imap_fmap.
  - rewrite length_map. apply imap_ext. intros i x _. simpl. f_equal. lia.
Qed.

(** A batch whose keys are distinct and present: every listed key gets its
    new position, on the record as it was; the rest is untouched. *)
Lemma batch_lookup updates s :
  NoDup updates.*1 ->
  (forall u, u ∈ updates -> is_Some (getItem (fst u) s)) ->
  snd (batchUpdateQueueIndices updates s) = None
  /\ forall j,
       (forall q, (j, q) ∈ updates ->
          getItem j (fst (batchUpdateQueueIndices updates s))
          = withQueueIndex q <$> getItem j s)
       /\ (j ∉ updates.*1 ->
           getItem j (fst (batchUpdateQueueIndices updates s)) = getItem j s).
Proof.
  unfold batchUpdateQueueIndices.
  induction updates as [|u updates IH] using rev_ind; intros Hnd Hpresent.
  - simpl. split; [done|]. intros j. split; [|done].
    intros q Hq. by apply elem_of_nil in Hq.
  - rewrite fmap_app in Hnd. apply NoDup_app in Hnd as (Hnd & Hdisj & _).
    assert (Hu : fst u ∉ updates.*1).
    { intros Hin. apply (Hdisj _ Hin). simpl. by apply list_elem_of_singleton. }
    destruct IH as [Hnone Hget]; [done| |].
    { intros v Hv. apply Hpresent, elem_of_app. by left. }
    rewrite foldl_snoc.
    destruct (Hpresent u) as [item Hitem].
    { apply elem_of_app. right. by apply list_elem_of_singleton. }
    rewrite Hitem. simpl. split; [done|]. intros j.
    pose proof (getItem_Some _ _ _ Hitem) as [_ Hid].
    destruct (decide (j = fst u)) as [->|Hne].
    + split.
      * intros q Hq. apply elem_of_app in Hq as [Hq|Hq].
        { exfalso. apply Hu. apply list_elem_of_In, in_map_iff.
          exists (fst u, q). split; [done|]. by apply list_elem_of_In. }
        apply list_elem_of_singleton in Hq. destruct u as [j q'].
        simpl in *. injection Hq as <-.
        rewrite Hitem. simpl. rewrite <- Hid at 1.
        change (id item) with (id (withQueueIndex q item)).
        apply getItem_put_eq. simpl. rewrite Hid.
        destruct (Hget j) as [_ Hout]. rewrite Hout by done.
        rewrite Hitem. by eexists.
      * intros Hj. exfalso. apply Hj. rewrite fmap_app, elem_of_app.
        right. simpl. by apply list_elem_of_singleton.
    + rewrite getItem_put_ne by (simpl; lia).
      destruct (Hget j) as [Hin Hout]. split.
      * intros q Hq. apply elem_of_app in Hq as [Hq|Hq]; [by apply Hin|].
        apply list_elem_of_singleton in Hq. subst u. simpl in Hne. done.
      * intros Hj. apply Hout. intros Hj'. apply Hj.
        rewrite fmap_app, elem_of_app. by left.
Qed.

Lemma byOrder_total x y : byOrder x y = false -> byOrder y x = true.
Proof.
  unfold byOrder. intros H. apply Qle_bool_iff.
  destruct (Qlt_le_dec (snd x) (snd y)) as [Hlt|Hle]; [|done].
  apply Qlt_le_weak in Hlt. apply Qle_bool_iff in Hlt. congruence.
Qed.

Lemma resolved_unresolved_ids entries items :
  map id (map fst (resolved entries items) ++ unresolved entries items)
  ≡ₚ map id items.
Proof.
  unfold resolved, unresolved. induction items as [|x items IH]; simpl; [done|].
  destruct (resolveOrder entries x); simpl.
  - by rewrite IH.
  - rewrite map_app. simpl. rewrite <- Permutation_middle.
    rewrite <- map_app. by rewrite IH.
Qed.

Lemma getAll_Permutation s : getAll s ≡ₚ rows s.
Proof. unfold getAll, indexGetAll. by rewrite !sortBy_Permutation. Qed.

Lemma resolved_unresolved entries items :
  map fst (resolved entries items) ++ unresolved entries items ≡ₚ items.
Proof.
  unfold resolved, unresolved. induction items as [|x items IH]; simpl; [done|].
  destruct (resolveOrder entries x); simpl.
  - by rewrite IH.
  - rewrite <- Permutation_middle. by rewrite IH.
Qed.

Lemma assignment_keys items : (assignment items).*1 = map id items.
Proof.
  unfold assignment. apply list_eq. intros i.
  rewrite list_lookup_fmap, list_lookup_imap.
  change (map id items) with (id <$> items). rewrite list_lookup_fmap.
  by destruct (items !! i).
Qed.

Lemma updateOrdering_cases entries s :
  updateOrdering entries s
  = match buildOrderingFromEntries entries (getAll s) with
    | [] => (s, Ok 0%nat)
    | _ =>
        let '(s', failure) :=
          batchUpdateQueueIndices
            (finalOrdering (buildOrderingFromEntries entries (getAll s))
                           (getAll s)) s in
        (s', match failure with
             | Some e => Err e
             | None =>
                 Ok (List.length
                       (itemsWithOrder
                          (buildOrderingFromEntries entries (getAll s))
                          (getAll s)))
             end)
    end.
Proof.
  unfold updateOrdering, reorderAllItems.
  destruct (getAll s) as [|x l]; [done|].
  by destruct (buildOrderingFromEntries entries (x :: l)).
Qed.


Example reconciliation_example :
  snd (updateOrdering bThenA fourEntries) = Ok 2%nat
  /\ map (fun item => (id item, queueIndex item))
         (getAll (fst (updateOrdering bThenA fourEntries)))
     = [(2, 0); (1, 1); (3, 2); (4, 3)].
Proof. vm_compute. split; reflexivity. Qed.



End OrderingFacts.

(** ** The stream sink *)

Module SinkFacts.
Import PlayoutBuffer Examples.

Lemma le_refl x : JS.isNaN x = false -> JS.le x x = true.
Proof.
  destruct x; simpl; try done. intros _. apply Qle_bool_iff, Qle_refl.
Qed.

Lemma le_total x y :
  JS.isNaN x = false -> JS.isNaN y = false -> JS.le x y = false -> JS.le y x = true.
Proof.
  destruct x as [| |p|], y as [| |q|]; simpl; try done.
  intros _ _ H. apply Qle_bool_iff.
  destruct (Qlt_le_dec p q) as [Hlt|Hle]; [|done].
  apply Qlt_le_weak, Qle_bool_iff in Hlt. congruence.
Qed.

Lemma max_le a b :
  JS.isNaN a = false -> JS.isNaN b = false ->
  JS.le (JS.max a b) a = JS.le b a
  /\ (JS.le b a = false -> JS.max a b = b)
  /\ (JS.le a b = true -> JS.max a b = b)
  /\ JS.isNaN (JS.max a b) = false.
Proof.
  intros Ha Hb.
  assert (Hmax : JS.max a b = if JS.le a b then b else a).
  { by destruct a, b. }
  rewrite Hmax. destruct (JS.le a b) eqn:Hab.
  - repeat split; done.
  - rewrite (le_refl a Ha), (le_total a b Ha Hb Hab). repeat split; done.
Qed.

Section AnySink.
Context {SourceBuffer : Type}.
Context (updating : SourceBuffer -> bool).
Context (appendBuffer : ArrayBuffer -> SourceBuffer -> option SourceBuffer).
Context (sbRemove : JS.num -> JS.num -> SourceBuffer -> option SourceBuffer).

#[local] Abbreviation State := (State SourceBuffer).
#[local] Abbreviation drain := (drain updating appendBuffer).
#[local] Abbreviation flushAppends := (flushAppends updating appendBuffer).
#[local] Abbreviation flush := (flush updating appendBuffer sbRemove).
#[local] Abbreviation enqueue := (enqueue updating appendBuffer sbRemove).
#[local] Abbreviation trim := (trim updating appendBuffer sbRemove).

Lemma watermark_cons before q done :
  watermark before (q :: done)
  = watermark (if isInit q then before else Some (q_id q)) done.
Proof.
  unfold watermark. simpl. destruct (isInit q); simpl; [done|].
  destruct (List.filter _ done) as [|x l]; simpl; [done|].
  destruct (last (x :: l)) eqn:Hl; [done|]. by apply last_None in Hl.
Qed.

(** The drain loop appends a prefix of the queue, in order, one
    [appendBuffer] call per segment; it stops at the first rejection,
    leaving the rejected segment at the front. *)
Lemma drain_spec snapshot (st : State) :
  exists done,
    queue st = done ++ queue (drain snapshot st).1
    /\ ((drain snapshot st).2 = map Appended done
        \/ exists q, head (queue (drain snapshot st).1) = Some q
                     /\ (drain snapshot st).2 = map Appended done ++ [AppendRejected q])
    /\ lastSegmentId (drain snapshot st).1 = watermark (lastSegmentId st) done
    /\ pendingTrimRanges (drain snapshot st).1 = pendingTrimRanges st.
Proof.
  revert st. induction snapshot as [|x snapshot IH]; intros st; simpl.
  { exists []. repeat split; try done. by left. }
  destruct (source st) as [sb|] eqn:Hsrc.
  2:{ exists []. repeat split; try done. by left. }
  destruct (updating sb).
  { exists []. repeat split; try done. by left. }
  destruct (queue st) as [|queued rest] eqn:Hq.
  { destruct (IH st) as (done & Hd & Hc & Hw & Hp). rewrite Hq in Hd.
    exists done. done. }
  destruct (appendBuffer (q_data queued) sb) as [sb'|].
  - set (st' := {| source := Some sb'; queue := rest;
                   lastSegmentId := if isInit queued then lastSegmentId st
                                    else Some (q_id queued);
                   pendingTrimRanges := pendingTrimRanges st |}).
    destruct (IH st') as (done & Hd & Hc & Hw & Hp).
    destruct (PlayoutBuffer.drain updating appendBuffer snapshot st')
      as [st'' calls]. simpl in *.
    exists (queued :: done). split; [by rewrite Hd|]. split.
    + destruct Hc as [->|(q & Hh & ->)]; [by left|right].
      exists q. by split.
    + by rewrite watermark_cons.
  - exists []. simpl. split; [done|]. split; [|done].
    right. exists queued. by split.
Qed.

Lemma flushAppends_spec (st : State) :
  exists done,
    queue st = done ++ queue (flushAppends st).1
    /\ ((flushAppends st).2 = map Appended done
        \/ exists q, head (queue (flushAppends st).1) = Some q
                     /\ (flushAppends st).2 = map Appended done ++ [AppendRejected q])
    /\ lastSegmentId (flushAppends st).1 = watermark (lastSegmentId st) done
    /\ pendingTrimRanges (flushAppends st).1 = pendingTrimRanges st.
Proof.
  unfold PlayoutBuffer.flushAppends.
  destruct (queue st) as [|q rest] eqn:Hq.
  - exists []. simpl. rewrite Hq. repeat split; try done. by left.
  - rewrite <- Hq. apply drain_spec.
Qed.

Lemma appendedOf_map done : appendedOf (map Appended done) = done.
Proof. induction done as [|q done IH]; simpl; [done|]. by rewrite IH. Qed.

Lemma appendedOf_app c1 c2 : appendedOf (c1 ++ c2) = appendedOf c1 ++ appendedOf c2.
Proof. apply omap_app. Qed.

Lemma flushAppends_fifo (st : State) :
  appendedOf (flushAppends st).2 ++ queue (flushAppends st).1 = queue st.
Proof.
  destruct (flushAppends_spec st) as (done & Hq & Hc & _).
  rewrite Hq at 1. f_equal.
  destruct Hc as [->|(q & _ & ->)].
  - apply appendedOf_map.
  - rewrite appendedOf_app, appendedOf_map. simpl. apply app_nil_r.
Qed.

Lemma flush_fifo (st : State) :
  appendedOf (flush st).2 ++ queue (flush st).1 = queue st.
Proof.
  unfold PlayoutBuffer.flush.
  destruct (source st) as [sb|]; [|done].
  destruct (updating sb); [done|].
  destruct (pendingTrimRanges st) as [|range ranges].
  - apply flushAppends_fifo.
  - destruct (sbRemove _ _ sb); [done|].
    pose proof (flushAppends_fifo (withPendingTrimRanges ranges st)) as H.
    destruct (PlayoutBuffer.flushAppends _ _ _) as [st2 calls]. done.
Qed.


(** C8, amended.  [enqueue] of a segment that declares an init payload
    queues the init payload and then the data payload, behind what was
    queued, in every state: nothing records which stream tags the sink
    has seen.  Entries leave the queue from the front: after [enqueue],
    and after any [flush], what was appended followed by what is still
    queued is the queue as submitted. *)
Theorem enqueue_init_unconditional (segment : Segment) (st : State) :
  (forall v i d,
      variant segment = Some v -> init v = Some i -> data segment = Some d ->
      enqueue segment st
      = flush (withQueue
                 (queue st
                  ++ [ {| q_id := id segment; q_data := i;
                          q_variant := Some v; isInit := true |};
                       dataEntry segment d ]) st))
  /\ (forall d,
        data segment = Some d ->
        appendedOf (enqueue segment st).2 ++ queue (enqueue segment st).1
        = queue st ++ initEntry segment ++ [dataEntry segment d])
  /\ appendedOf (flush st).2 ++ queue (flush st).1 = queue st.
Proof.
  split; [|split].
  - intros v i d Hv Hi Hd. unfold PlayoutBuffer.enqueue, initEntry.
    rewrite Hv, Hi, Hd. unfold withQueue, dataEntry. simpl.
    by rewrite Hv, <- app_assoc.
  - intros d Hd. unfold PlayoutBuffer.enqueue. rewrite Hd.
    rewrite flush_fifo. simpl. by rewrite <- app_assoc.
  - apply flush_fifo.
Qed.

(** C7, amended.  [trim(start, end)] changes nothing when a bound is NaN
    or [end <= max(0, start)]; otherwise it queues the range from
    [max(0, start)] to [end] and flushes.  A negative start is clamped to
    0, not refused, and an infinite end is accepted; when [0 <= start] the
    bounds queued are the bounds given. *)
Theorem trim_clamps (start_ end' : JS.num) (st : State) :
  (JS.isNaN start_ || JS.isNaN end' || JS.le end' (JS.max (JS.Fin 0) start_) = true ->
   trim start_ end' st = (st, []))
  /\ (JS.isNaN start_ || JS.isNaN end' || JS.le end' (JS.max (JS.Fin 0) start_) = false ->
      trim start_ end' st
      = flush (withPendingTrimRanges
                 (pendingTrimRanges st
                  ++ [ {| start := JS.max (JS.Fin 0) start_; end_ := end' |} ])
                 st))
  /\ (JS.le (JS.Fin 0) start_ = true -> JS.max (JS.Fin 0) start_ = start_).
Proof.
  unfold PlayoutBuffer.trim.
  destruct (JS.isNaN start_) eqn:Hs.
  { destruct start_; try discriminate. by repeat split. }
  destruct (JS.isNaN end') eqn:He.
  { destruct end'; try discriminate. simpl. repeat split; try done.
    apply (max_le (JS.Fin 0) start_ eq_refl Hs). }
  cbn [orb].
  destruct (max_le (JS.Fin 0) start_ eq_refl Hs) as (_ & _ & Hpos & Hn).
  destruct (max_le (JS.max (JS.Fin 0) start_) end' Hn He) as (Hle & Hmax & _).
  rewrite Hle. split; [|split; [|done]].
  - by intros ->.
  - intros Hf. rewrite Hf. by rewrite (Hmax Hf).
Qed.

End AnySink.

(** C7 as stated fails for a negative start and for an infinite end:
    [trim(-5, 3)] on a ready sink removes [0, 3) and [trim(0, Infinity)]
    removes from 0 on, where the claim has a silent no-op. *)
Example trim_negative_start_not_noop :
  (mseTrim (JS.Fin (-5)) (JS.Fin 3) (opened false)).2
  = [Removed {| start := JS.Fin 0; end_ := JS.Fin 3 |}]
  /\ (mseTrim (JS.Fin 0) JS.PosInf (opened false)).2
     = [Removed {| start := JS.Fin 0; end_ := JS.PosInf |}].
Proof. split; reflexivity. Qed.


(** C8 as stated fails on the second segment of a stream: once the init
    payload and the data of segment 1 are in the sink, [enqueue] of
    segment 2 of the same stream queues and appends the init payload
    again, where the claim has no second init entry. *)
Example second_init_is_queued :
  initsAppended (JS.VStr "main")
    ((mseEnqueue (withInit 1) (opened false)).2) = 1%nat
  /\ initsAppended (JS.VStr "main") twoInitsSession = 2%nat
  /\ map isInit (appendedOf twoInitsSession) = [true; false; true].
Proof. repeat split; reflexivity. Qed.


(** C7, amended, at an example: [trim(1, 3)] queues [1, 3); [trim(3, 1)]
    does nothing. *)
Lemma trim_clamps_witness :
  mseTrim (JS.Fin 1) (JS.Fin 3) (opened true)
  = mseFlush (withPendingTrimRanges
                [ {| start := JS.Fin 1; end_ := JS.Fin 3 |} ] (opened true))
  /\ mseTrim (JS.Fin 3) (JS.Fin 1) (opened true) = (opened true, []).
Proof.
  split.
  - exact (proj1 (proj2 (trim_clamps mseUpdating mseAppend mseRemove
                           (JS.Fin 1) (JS.Fin 3) (opened true))) eq_refl).
  - exact (proj1 (trim_clamps mseUpdating mseAppend mseRemove
                    (JS.Fin 3) (JS.Fin 1) (opened true)) eq_refl).
Defined.

(** C8, amended, at an example. *)
Lemma enqueue_init_unconditional_witness :
  mseEnqueue (withInit 1) (opened true)
  = mseFlush (withQueue
                [ {| q_id := JS.VNum 1; q_data := bytes 1;
                     q_variant := variant (withInit 1); isInit := true |};
                  dataEntry (withInit 1) (bytes 2) ] (opened true)).
Proof.
  exact (proj1 (enqueue_init_unconditional mseUpdating mseAppend mseRemove
                  (withInit 1) (opened true)) _ _ _ eq_refl eq_refl eq_refl).
Defined.

End SinkFacts.

(** ** The buffering scheduler *)

Module SchedulerFacts.
Import Playlist PlaylistFacts Roll Examples.

Lemma ltb_0_S n : (0 <? S n)%nat = true.
Proof. apply Nat.ltb_lt. lia. Qed.

Lemma deliveries_app e1 e2 : deliveries (e1 ++ e2) = (deliveries e1 + deliveries e2)%nat.
Proof. unfold deliveries. by rewrite List.filter_app, length_app. Qed.

Lemma rollEnds_app e1 e2 : rollEnds (e1 ++ e2) = (rollEnds e1 + rollEnds e2)%nat.
Proof. unfold rollEnds. by rewrite List.filter_app, length_app. Qed.

Lemma applyPendingTrim_spec video st :
  let r := applyPendingTrim video st in
  nextSegmentScheduled r.1 = inFlight video st
  /\ attached r.1 = attached st
  /\ bufferedQueueIndex r.1 = bufferedQueueIndex st
  /\ onRollEndCallback r.1 = onRollEndCallback st
  /\ bufferThresholdSeconds r.1 = bufferThresholdSeconds st
  /\ deliveries r.2 = 0%nat /\ rollEnds r.2 = 0%nat
  /\ pendingTrimBoundary r.1
     = (if boundaryReached video st then None else pendingTrimBoundary st).
Proof.
  unfold applyPendingTrim, inFlight, boundaryReached.
  destruct (pendingTrimBoundary st) as [boundary|] eqn:Hp; simpl.
  - destruct (Qle_bool boundary (currentTime video)); simpl.
    + rewrite andb_false_r. by repeat split.
    + rewrite andb_true_r. by repeat split.
  - rewrite andb_true_r. by repeat split.
Qed.

Lemma streamEndCheck_counts video hasMore st :
  deliveries (streamEndCheck video hasMore st) = 0%nat
  /\ rollEnds (streamEndCheck video hasMore st) = 0%nat.
Proof.
  unfold streamEndCheck.
  destruct (_ && _); [|done]. by destruct (_ && _).
Qed.

(** What a call of [queueNextSegment] that gets past the gate on a
    non-empty queue with a readable row does. *)
Lemma queueNextSegment_delivers video s st :
  attached st = true -> nextSegmentScheduled st = false ->
  rows s <> [] -> cursorDeliverable s st ->
  exists item bytes,
    getAll s !! (bufferedQueueIndex st mod List.length (getAll s))%nat = Some item
    /\ blob item ≫= content = Some bytes
    /\ (queueNextSegment video s st).2
       = BufferEnqueue (createSegmentFromItem item bytes)
         :: (if completesRoll s st then [RollEnd] else [])
    /\ bufferedQueueIndex (queueNextSegment video s st).1
       = S (bufferedQueueIndex st)
    /\ attached (queueNextSegment video s st).1 = true
    /\ onRollEndCallback (queueNextSegment video s st).1 = onRollEndCallback st
    /\ bufferThresholdSeconds (queueNextSegment video s st).1
       = bufferThresholdSeconds st.
Proof.
  intros Hatt Hgate Hrows Hdel. unfold queueNextSegment.
  rewrite Hatt, Hgate. simpl.
  assert (Hn : List.length (getAll s) <> 0%nat).
  { rewrite length_getAll. by destruct (rows s). }
  destruct (Nat.eqb_spec (List.length (getAll s)) 0) as [|_]; [done|].
  destruct (lookup_lt_is_Some_2 (getAll s)
              (bufferedQueueIndex st mod List.length (getAll s))%nat)
    as [item Hitem].
  { by apply Nat.mod_upper_bound. }
  destruct (Hdel item Hitem) as [bytes Hbytes].
  exists item, bytes. rewrite Hitem, Hbytes. simpl.
  unfold completesRoll. rewrite ltb_0_S, andb_true_r. by repeat split.
Qed.

(** A call of [queueNextSegment] delivers at most once, and never moves
    the cursor without delivering. *)
Lemma queueNextSegment_counts video s st :
  let r := queueNextSegment video s st in
  attached r.1 = attached st
  /\ onRollEndCallback r.1 = onRollEndCallback st
  /\ bufferThresholdSeconds r.1 = bufferThresholdSeconds st
  /\ (bufferedQueueIndex r.1 = (bufferedQueueIndex st + deliveries r.2)%nat)
  /\ (deliveries r.2 <= 1)%nat
  /\ rollEnds r.2
     = (if (deliveries r.2 =? 1)%nat && completesRoll s st then 1 else 0)%nat
  /\ (nextSegmentScheduled st = true -> r = (st, [])).
Proof.
  unfold queueNextSegment, completesRoll, deliveries, rollEnds.
  destruct (attached st) eqn:Hatt; simpl.
  2:{ repeat split; try done; lia. }
  destruct (nextSegmentScheduled st) eqn:Hgate; simpl.
  { repeat split; try done; lia. }
  destruct (List.length (getAll s) =? 0)%nat; simpl.
  { repeat split; try done; lia. }
  destruct (getAll s !! _) as [item|]; simpl.
  2:{ repeat split; try done; lia. }
  destruct (blob item ≫= content) as [bytes|]; simpl.
  2:{ repeat split; try done; lia. }
  rewrite ltb_0_S, andb_true_r.
  destruct (onRollEndCallback st && _); simpl; repeat split; try done; lia.
Qed.

Lemma hasMore_cursor s st st' :
  onRollEndCallback st' = onRollEndCallback st ->
  bufferedQueueIndex st' = bufferedQueueIndex st ->
  hasMoreSegments s st' = hasMoreSegments s st.
Proof. unfold hasMoreSegments. by intros -> ->. Qed.

Lemma hasMore_nonempty s st : hasMoreSegments s st = true -> rows s <> [].
Proof.
  unfold hasMoreSegments, Playlist.length, count. intros H Hrows.
  rewrite Hrows in H. done.
Qed.

Lemma shouldQueue_iff video st :
  (0 <= getBufferedEnd video)%Q ->
  shouldQueueNextVideo video st = true <->
  (0 < getBufferedEnd video)%Q
  /\ (getBufferedEnd video - currentTime video <= bufferThresholdSeconds st)%Q.
Proof.
  intros Hb. unfold shouldQueueNextVideo.
  destruct (Qeq_bool (getBufferedEnd video) 0) eqn:Heq.
  - apply Qeq_bool_iff in Heq. split; [done|]. intros [Hlt _].
    rewrite Heq in Hlt. by apply Qlt_irrefl in Hlt.
  - rewrite Qle_bool_iff. split; [|by intros [_ ?]].
    intros Hle. split; [|done].
    apply Qle_lteq in Hb as [Hlt|Heq0]; [done|].
    apply Qeq_sym, Qeq_bool_iff in Heq0. congruence.
Qed.

(** The effects of one tick, as far as deliveries go. *)
Lemma onTimeUpdate_deliveries video s st :
  attached st = true ->
  let st2 := withTotalItems (Z.to_nat (Playlist.length s))
               (applyPendingTrim video st).1 in
  deliveries (onTimeUpdate video s st).2
  = (if hasMoreSegments s st && negb (inFlight video st)
        && shouldQueueNextVideo video st
     then deliveries (queueNextSegment video s st2).2
     else 0%nat).
Proof.
  intros Hatt st2. unfold onTimeUpdate. rewrite Hatt. simpl.
  destruct (applyPendingTrim_spec video st)
    as (Hgate & Hatt1 & Hidx & Hcb & Hthr & Hd & _).
  subst st2.
  destruct (applyPendingTrim video st) as [st1 trimmed]. simpl in *.
  rewrite (hasMore_cursor s st st1) by done.
  destruct (streamEndCheck_counts video (hasMoreSegments s st)
              (withTotalItems (Z.to_nat (Playlist.length s)) st1)) as [He _].
  destruct (hasMoreSegments s st); simpl.
  2:{ by rewrite deliveries_app, Hd, He. }
  rewrite Hgate.
  assert (Hsq : shouldQueueNextVideo video
                  (withTotalItems (Z.to_nat (Playlist.length s)) st1)
                = shouldQueueNextVideo video st).
  { unfold shouldQueueNextVideo. simpl. by rewrite Hthr. }
  rewrite Hsq.
  destruct (negb (inFlight video st) && shouldQueueNextVideo video st).
  - destruct (queueNextSegment video s _) as [st3 queued]. simpl.
    by rewrite !deliveries_app, Hd, He.
  - simpl. by rewrite deliveries_app, Hd, He.
Qed.

Lemma onTimeUpdate_delivers_iff video s st :
  attached st = true ->
  (0 <= getBufferedEnd video)%Q ->
  cursorDeliverable s st ->
  (deliveries (onTimeUpdate video s st).2 = 1%nat <->
   hasMoreSegments s st = true
   /\ (0 < getBufferedEnd video)%Q
   /\ (getBufferedEnd video - currentTime video <= bufferThresholdSeconds st)%Q
   /\ inFlight video st = false)
  /\ (deliveries (onTimeUpdate video s st).2 <= 1)%nat
  /\ (inFlight video st = true -> deliveries (onTimeUpdate video s st).2 = 0%nat).
Proof.
  intros Hatt Hb Hdel.
  rewrite (onTimeUpdate_deliveries video s st Hatt).
  destruct (applyPendingTrim_spec video st)
    as (Hgate & Hatt1 & Hidx & Hcb & Hthr & _).
  set (st2 := withTotalItems (Z.to_nat (Playlist.length s))
                (applyPendingTrim video st).1).
  pose proof (queueNextSegment_counts video s st2) as (_ & _ & _ & _ & Hle & _).
  pose proof (shouldQueue_iff video st Hb) as Hsq.
  destruct (hasMoreSegments s st) eqn:Hmore; simpl.
  2:{ split; [|split; [lia|done]]. split; [done|]. by intros [? _]. }
  destruct (inFlight video st) eqn:Hfl; simpl.
  { split; [|split; [lia|done]]. split; [done|]. by intros (_ & _ & _ & ?). }
  destruct (shouldQueueNextVideo video st) eqn:Hq.
  - destruct (queueNextSegment_delivers video s st2)
      as (item & bytes & _ & _ & Heff & _).
    + unfold st2. simpl. by rewrite Hatt1.
    + unfold st2. simpl. by rewrite Hgate.
    + by eapply hasMore_nonempty.
    + unfold cursorDeliverable, st2. simpl. rewrite Hidx. exact Hdel.
    + assert (Hone : deliveries (queueNextSegment video s st2).2 = 1%nat).
      { rewrite Heff. unfold deliveries. simpl. by destruct (completesRoll s st2). }
      rewrite Hone. split; [|split; [lia|done]].
      split; [|done]. intros _. destruct (proj1 Hsq eq_refl). done.
  - split; [|split; [lia|done]]. split; [done|].
    intros (_ & H1 & H2 & _). destruct Hsq as [_ Hsq].
    by pose proof (Hsq (conj H1 H2)).
Qed.


(** Counts of one tick. *)
Lemma onTimeUpdate_counts video s st :
  attached st = true ->
  let r := onTimeUpdate video s st in
  attached r.1 = true
  /\ onRollEndCallback r.1 = onRollEndCallback st
  /\ bufferThresholdSeconds r.1 = bufferThresholdSeconds st
  /\ bufferedQueueIndex r.1 = (bufferedQueueIndex st + deliveries r.2)%nat
  /\ (deliveries r.2 <= 1)%nat
  /\ rollEnds r.2
     = (if (deliveries r.2 =? 1)%nat && completesRoll s st then 1 else 0)%nat
  /\ (deliveries r.2 = 1%nat -> hasMoreSegments s st = true).
Proof.
  intros Hatt. unfold onTimeUpdate. rewrite Hatt. simpl.
  destruct (applyPendingTrim_spec video st)
    as (Hgate & Hatt1 & Hidx & Hcb & Hthr & Hd & Hr & _).
  destruct (applyPendingTrim video st) as [st1 trimmed]. simpl in *.
  rewrite (hasMore_cursor s st st1) by done.
  set (st2 := withTotalItems (Z.to_nat (Playlist.length s)) st1).
  destruct (streamEndCheck_counts video (hasMoreSegments s st) st2) as [He Hre].
  assert (Hquiet :
    attached st2 = true
    /\ onRollEndCallback st2 = onRollEndCallback st
    /\ bufferThresholdSeconds st2 = bufferThresholdSeconds st
    /\ bufferedQueueIndex st2
       = (bufferedQueueIndex st
          + deliveries (trimmed ++ streamEndCheck video (hasMoreSegments s st) st2))%nat
    /\ (deliveries (trimmed ++ streamEndCheck video (hasMoreSegments s st) st2) <= 1)%nat
    /\ rollEnds (trimmed ++ streamEndCheck video (hasMoreSegments s st) st2)
       = (if (deliveries (trimmed ++ streamEndCheck video (hasMoreSegments s st) st2) =? 1)%nat
             && completesRoll s st then 1 else 0)%nat
    /\ (deliveries (trimmed ++ streamEndCheck video (hasMoreSegments s st) st2) = 1%nat
        -> hasMoreSegments s st = true)).
  { rewrite deliveries_app, rollEnds_app, Hd, He, Hr, Hre. simpl.
    repeat split; try done; try lia. congruence. }
  destruct (hasMoreSegments s st) eqn:Hmore; simpl; [|exact Hquiet].
  destruct (negb (nextSegmentScheduled st1) && shouldQueueNextVideo video st2);
    [|exact Hquiet].
  pose proof (queueNextSegment_counts video s st2)
    as (Ha & Hc & Ht & Hi & Hle & Hre' & _).
  assert (Hcr : completesRoll s st2 = completesRoll s st).
  { unfold completesRoll, st2. simpl. by rewrite Hcb, Hidx. }
  destruct (queueNextSegment video s st2) as [st3 queued]. simpl in *.
  rewrite !deliveries_app, !rollEnds_app, Hd, He, Hr, Hre. simpl.
  rewrite Hre', Hcr, Hi, Ha, Hc, Ht.
  repeat split; try done; try lia. congruence.
Qed.

Lemma completesRoll_last s st :
  rows s <> [] ->
  (bufferedQueueIndex st < List.length (rows s))%nat ->
  completesRoll s st
  = onRollEndCallback st
    && (S (bufferedQueueIndex st) =? List.length (rows s))%nat.
Proof.
  intros Hrows Hlt. unfold completesRoll. rewrite length_getAll. f_equal.
  destruct (Nat.eqb_spec (S (bufferedQueueIndex st)) (List.length (rows s)))
    as [Heq|Hne].
  - rewrite Heq, Nat.Div0.mod_same. done.
  - rewrite Nat.mod_small by lia. done.
Qed.

Lemma hasMore_callback s st :
  rows s <> [] -> onRollEndCallback st = true ->
  hasMoreSegments s st = (bufferedQueueIndex st <? List.length (rows s))%nat.
Proof.
  intros Hrows Hcb. unfold hasMoreSegments, Playlist.length, count.
  rewrite Hcb, Nat2Z.id. destruct (rows s); done.
Qed.

Lemma hasMore_looping s st :
  rows s <> [] -> onRollEndCallback st = false -> hasMoreSegments s st = true.
Proof.
  intros Hrows Hcb. unfold hasMoreSegments, Playlist.length, count.
  rewrite Hcb, Nat2Z.id. destruct (rows s); done.
Qed.

Lemma sessionInv_tick video s st effects :
  rows s <> [] -> sessionInv s st effects ->
  sessionInv s (onTimeUpdate video s st).1
             (effects ++ (onTimeUpdate video s st).2)
  /\ onRollEndCallback (onTimeUpdate video s st).1 = onRollEndCallback st.
Proof.
  intros Hrows (Hatt & Hidx & Hcb & Hloop).
  destruct (onTimeUpdate_counts video s st Hatt)
    as (Ha & Hc & _ & Hi & Hle & Hre & Hmore).
  split; [|done]. unfold sessionInv.
  rewrite deliveries_app, rollEnds_app, Ha, Hc, Hi, Hre, Hidx.
  split; [done|]. split; [done|]. split.
  - intros Hcbt. destruct (Hcb Hcbt) as [Hk Hends].
    rewrite Hends, <- Hidx.
    destruct (Nat.eqb_spec (deliveries (onTimeUpdate video s st).2) 1)
      as [Hone|Hnone]; simpl.
    + specialize (Hmore Hone).
      rewrite (hasMore_callback s st Hrows Hcbt) in Hmore.
      apply Nat.ltb_lt in Hmore.
      rewrite (completesRoll_last s st Hrows Hmore), Hcbt, Hone. cbn [andb].
      destruct (Nat.eqb_spec (bufferedQueueIndex st) (List.length (rows s)));
        [lia|].
      split; [lia|].
      replace (bufferedQueueIndex st + 1)%nat with (S (bufferedQueueIndex st))
        by lia.
      by destruct (S (bufferedQueueIndex st) =? _)%nat.
    + assert (deliveries (onTimeUpdate video s st).2 = 0%nat) as -> by lia.
      rewrite !Nat.add_0_r. done.
  - intros Hcbf. rewrite (Hloop Hcbf).
    unfold completesRoll. rewrite Hcbf. simpl. by rewrite andb_false_r.
Qed.

Lemma sessionInv_ticks videos s st effects :
  rows s <> [] -> sessionInv s st effects ->
  sessionInv s (ticks videos s st).1 (effects ++ (ticks videos s st).2)
  /\ onRollEndCallback (ticks videos s st).1 = onRollEndCallback st.
Proof.
  intros Hrows. revert st effects.
  induction videos as [|video videos IH]; intros st effects Hinv; simpl.
  - by rewrite app_nil_r.
  - destruct (sessionInv_tick video s st effects Hrows Hinv) as [Hinv1 Hcb1].
    destruct (onTimeUpdate video s st) as [st1 effects1]. simpl in *.
    destruct (IH st1 (effects ++ effects1) Hinv1) as [Hinv2 Hcb2].
    destruct (ticks videos s st1) as [st2 effects2]. simpl in *.
    rewrite app_assoc. split; [done|congruence].
Qed.

Lemma sessionInv_attach thresholdSeconds video s st :
  rows s <> [] ->
  sessionInv s (attachBuffer thresholdSeconds video s st).1
             (attachBuffer thresholdSeconds video s st).2
  /\ onRollEndCallback (attachBuffer thresholdSeconds video s st).1
     = onRollEndCallback st.
Proof.
  intros Hrows. unfold attachBuffer.
  set (st1 := {| attached := true; bufferedQueueIndex := 0%nat |}).
  assert (Hn : (totalItems st1 =? 0)%nat = false).
  { unfold st1. simpl. unfold Playlist.length, count. rewrite Nat2Z.id.
    by destruct (rows s). }
  rewrite Hn.
  pose proof (queueNextSegment_counts video s st1)
    as (Ha & Hc & _ & Hi & Hle & Hre & _).
  assert (Hcr : completesRoll s st1
                = onRollEndCallback st1 && (1 =? List.length (rows s))%nat).
  { apply (completesRoll_last s st1 Hrows). unfold st1. simpl.
    destruct (rows s); [done|simpl; lia]. }
  split; [|by rewrite Hc]. unfold sessionInv.
  rewrite Ha, Hc, Hi, Hre, Hcr.
  change (bufferedQueueIndex st1) with 0%nat.
  change (onRollEndCallback st1) with (onRollEndCallback st).
  assert (Hlen : (1 <= List.length (rows s))%nat).
  { destruct (rows s); [done|simpl; lia]. }
  split; [done|]. split; [done|]. split.
  - intros Hcbt. rewrite Hcbt. simpl.
    split; [lia|].
    destruct (Nat.eqb_spec (deliveries (queueNextSegment video s st1).2) 1)
      as [->|Hne]; simpl.
    + done.
    + assert (deliveries (queueNextSegment video s st1).2 = 0%nat) as -> by lia.
      destruct (Nat.eqb_spec 0 (List.length (rows s))); [lia|done].
  - intros Hcbf. rewrite Hcbf. simpl. by rewrite andb_false_r.
Qed.

Lemma session_inv thresholdSeconds video0 videos s st :
  rows s <> [] ->
  sessionInv s (session thresholdSeconds video0 videos s st).1
             (session thresholdSeconds video0 videos s st).2
  /\ onRollEndCallback (session thresholdSeconds video0 videos s st).1
     = onRollEndCallback st.
Proof.
  intros Hrows. unfold session.
  destruct (sessionInv_attach thresholdSeconds video0 s st Hrows) as [Hinv Hcb].
  destruct (attachBuffer thresholdSeconds video0 s st) as [st1 effects1].
  simpl in *.
  destruct (sessionInv_ticks videos s st1 effects1 Hrows Hinv) as [Hinv2 Hcb2].
  destruct (ticks videos s st1) as [st2 effects2]. simpl in *.
  split; [done|congruence].
Qed.

(** When a call of [queueNextSegment] leaves the gate set, it has recorded
    the buffered end as the boundary to wait for. *)
Lemma queueNextSegment_gate video s st :
  nextSegmentScheduled st = false ->
  nextSegmentScheduled (queueNextSegment video s st).1 = true ->
  pendingTrimBoundary (queueNextSegment video s st).1
  = Some (getBufferedEnd video).
Proof.
  intros Hgate. unfold queueNextSegment. rewrite Hgate.
  destruct (attached st); simpl; [|congruence].
  destruct (List.length (getAll s) =? 0)%nat; simpl; [done|].
  destruct (getAll s !! _) as [item|]; simpl; [|done].
  destruct (blob item ≫= content) as [bytes|]; simpl; [|done].
  by intros ->.
Qed.

Lemma onTimeUpdate_gate video s st :
  attached st = true -> inFlight video st = false ->
  nextSegmentScheduled (onTimeUpdate video s st).1 = true ->
  pendingTrimBoundary (onTimeUpdate video s st).1 = Some (getBufferedEnd video).
Proof.
  intros Hatt Hfl. unfold onTimeUpdate. rewrite Hatt. simpl.
  destruct (applyPendingTrim_spec video st) as (Hgate & _).
  destruct (applyPendingTrim video st) as [st1 trimmed]. simpl in *.
  rewrite Hfl in Hgate.
  set (st2 := withTotalItems (Z.to_nat (Playlist.length s)) st1).
  assert (Hgate2 : nextSegmentScheduled st2 = false) by done.
  destruct (negb (hasMoreSegments s st1)); simpl; [congruence|].
  destruct (negb (nextSegmentScheduled st1) && shouldQueueNextVideo video st2);
    simpl; [|congruence].
  pose proof (queueNextSegment_gate video s st2 Hgate2) as Hq.
  by destruct (queueNextSegment video s st2).
Qed.

Lemma caughtUp_inFlight c st :
  (nextSegmentScheduled st = true ->
   pendingTrimBoundary st = Some (getBufferedEnd (caughtUp c))) ->
  inFlight (caughtUp c) st = false.
Proof.
  intros H. unfold inFlight, boundaryReached.
  destruct (nextSegmentScheduled st); [|done].
  rewrite (H eq_refl). cbn [andb negb].
  change (negb (Qle_bool c c) = false).
  assert (Qle_bool c c = true) as -> by apply Qle_bool_iff, Qle_refl. done.
Qed.

Lemma deliverable_cursor s st :
  Forall deliverable (rows s) -> cursorDeliverable s st.
Proof.
  intros Hall item Hitem. rewrite Forall_forall in Hall.
  apply Hall, elem_of_getAll. by eapply list_elem_of_lookup_2.
Qed.

Lemma looping_tick c s st :
  rows s <> [] -> Forall deliverable (rows s) -> (0 < c)%Q ->
  looping c st ->
  deliveries (onTimeUpdate (caughtUp c) s st).2 = 1%nat
  /\ looping c (onTimeUpdate (caughtUp c) s st).1.
Proof.
  intros Hrows Hall Hc (Hatt & Hcb & Hthr & Hfl).
  assert (Hb : getBufferedEnd (caughtUp c) = c) by done.
  split.
  - apply (onTimeUpdate_delivers_iff (caughtUp c) s st Hatt).
    + rewrite Hb. by apply Qlt_le_weak.
    + by apply deliverable_cursor.
    + split; [by apply hasMore_looping|]. rewrite Hb.
      split; [done|]. split; [|done].
      change (c - c <= bufferThresholdSeconds st)%Q. lra.
  - destruct (onTimeUpdate_counts (caughtUp c) s st Hatt)
      as (Ha & Hcb' & Hthr' & _).
    split; [done|]. split; [congruence|]. split; [by rewrite Hthr'|].
    apply caughtUp_inFlight. by apply onTimeUpdate_gate.
Qed.

Lemma looping_ticks c n s st :
  rows s <> [] -> Forall deliverable (rows s) -> (0 < c)%Q ->
  looping c st ->
  deliveries (ticks (repeat (caughtUp c) n) s st).2 = n.
Proof.
  intros Hrows Hall Hc. revert st.
  induction n as [|n IH]; intros st Hloop; simpl; [done|].
  destruct (looping_tick c s st Hrows Hall Hc Hloop) as [Hone Hloop1].
  destruct (onTimeUpdate (caughtUp c) s st) as [st1 effects1]. simpl in *.
  specialize (IH st1 Hloop1).
  destruct (ticks (repeat (caughtUp c) n) s st1) as [st2 effects2]. simpl in *.
  rewrite deliveries_app. lia.
Qed.

Lemma looping_attach thresholdSeconds c s st :
  rows s <> [] -> Forall deliverable (rows s) ->
  onRollEndCallback st = false ->
  (0 <= default (bufferThresholdSeconds st) thresholdSeconds)%Q ->
  deliveries (attachBuffer thresholdSeconds (caughtUp c) s st).2 = 1%nat
  /\ looping c (attachBuffer thresholdSeconds (caughtUp c) s st).1.
Proof.
  intros Hrows Hall Hcb Hthr. unfold attachBuffer.
  set (st1 := {| attached := true; bufferedQueueIndex := 0%nat |}).
  assert (Hn : (totalItems st1 =? 0)%nat = false).
  { unfold st1. simpl. unfold Playlist.length, count. rewrite Nat2Z.id.
    by destruct (rows s). }
  rewrite Hn.
  destruct (queueNextSegment_delivers (caughtUp c) s st1)
    as (item & bytes & _ & _ & Heff & _ & Ha & Hc' & Ht); try done.
  { by apply deliverable_cursor. }
  split.
  - rewrite Heff. unfold deliveries. simpl. by destruct (completesRoll s st1).
  - split; [done|]. split; [by rewrite Hc'|]. split; [by rewrite Ht|].
    apply caughtUp_inFlight. by apply queueNextSegment_gate.
Qed.

(** C3.  Over a store of [k >= 1] entries that does not change: a
    delivery hands over the entry at cursor mod [k], advances the cursor
    by one, and runs the end-of-roll callback exactly when a callback is
    registered and the new cursor is a multiple of [k].  In a session
    (attach, then any ticks) with a callback registered, the cursor counts
    the deliveries and never passes [k]; the callback has run once when
    [k] deliveries were made and not before; and "has more" is false from
    then on and true before.  With no callback registered the callback
    never runs and "has more" stays true; and when the rows are readable
    and playback keeps up, [n] ticks after the attach have delivered
    [n + 1] segments, for every [n]. *)
Theorem cycle_detection s :
  rows s <> [] ->
  let k := List.length (rows s) in
  (forall video st,
      attached st = true -> nextSegmentScheduled st = false ->
      cursorDeliverable s st ->
      exists item bytes,
        getAll s !! (bufferedQueueIndex st mod k)%nat = Some item
        /\ (queueNextSegment video s st).2
           = BufferEnqueue (createSegmentFromItem item bytes)
             :: (if onRollEndCallback st
                    && (S (bufferedQueueIndex st) mod k =? 0)%nat
                 then [RollEnd] else [])
        /\ bufferedQueueIndex (queueNextSegment video s st).1
           = S (bufferedQueueIndex st))
  /\ (forall thresholdSeconds video0 videos st,
        onRollEndCallback st = true ->
        let r := session thresholdSeconds video0 videos s st in
        deliveries r.2 = bufferedQueueIndex r.1
        /\ (bufferedQueueIndex r.1 <= k)%nat
        /\ rollEnds r.2 = (if (bufferedQueueIndex r.1 =? k)%nat then 1 else 0)%nat
        /\ hasMoreSegments s r.1 = negb (bufferedQueueIndex r.1 =? k)%nat)
  /\ (forall thresholdSeconds video0 videos st,
        onRollEndCallback st = false ->
        let r := session thresholdSeconds video0 videos s st in
        rollEnds r.2 = 0%nat /\ hasMoreSegments s r.1 = true)
  /\ (forall thresholdSeconds c n st,
        onRollEndCallback st = false ->
        Forall deliverable (rows s) ->
        (0 < c)%Q ->
        (0 <= default (bufferThresholdSeconds st) thresholdSeconds)%Q ->
        deliveries (session thresholdSeconds (caughtUp c)
                      (repeat (caughtUp c) n) s st).2 = S n).
Proof.
  intros Hrows k. split; [|split; [|split]].
  - intros video st Hatt Hgate Hdel.
    destruct (queueNextSegment_delivers video s st Hatt Hgate Hrows Hdel)
      as (item & bytes & Hitem & _ & Heff & Hidx & _).
    exists item, bytes. unfold completesRoll in Heff.
    rewrite length_getAll in Hitem, Heff. by repeat split.
  - intros thr video0 videos st Hcb r.
    destruct (session_inv thr video0 videos s st Hrows)
      as [(Hatt & Hidx & Hreg & _) Hcb'].
    fold r in Hatt, Hidx, Hreg, Hcb'. rewrite Hcb in Hcb'.
    destruct (Hreg Hcb') as [Hle Hends].
    split; [done|]. split; [done|]. split; [done|].
    rewrite (hasMore_callback s r.1 Hrows Hcb'). fold k.
    destruct (Nat.eqb_spec (bufferedQueueIndex r.1) k); simpl.
    + apply Nat.ltb_ge. lia.
    + apply Nat.ltb_lt. unfold k. lia.
  - intros thr video0 videos st Hcb r.
    destruct (session_inv thr video0 videos s st Hrows)
      as [(_ & _ & _ & Hloop) Hcb'].
    fold r in Hloop, Hcb'. rewrite Hcb in Hcb'.
    split; [by apply Hloop|by apply hasMore_looping].
  - intros thr c n st Hcb Hall Hc Hthr. unfold session.
    destruct (looping_attach thr c s st Hrows Hall Hcb Hthr) as [Hone Hloop].
    destruct (attachBuffer thr (caughtUp c) s st) as [st1 effects1].
    simpl in *.
    pose proof (looping_ticks c n s st1 Hrows Hall Hc Hloop) as Hn.
    destruct (ticks (repeat (caughtUp c) n) s st1) as [st2 effects2].
    simpl in *. rewrite deliveries_app. lia.
Qed.

Lemma fourEntries_deliverable : Forall deliverable (rows fourEntries).
Proof. repeat constructor; by eexists. Qed.

(** The gate over two ticks: before the boundary the tick does nothing;
    once playback is past it, the same tick trims up to the boundary,
    which releases the gate, and pushes the next entry. *)
Example release_then_push :
  (onTimeUpdate beforeBoundary fourEntries waitingForTrim).2 = []
  /\ inFlight beforeBoundary waitingForTrim = true
  /\ inFlight pastBoundary waitingForTrim = false
  /\ map isEnqueue (onTimeUpdate pastBoundary fourEntries waitingForTrim).2
     = [false; true]
  /\ head (onTimeUpdate pastBoundary fourEntries waitingForTrim).2
     = Some (BufferTrim (JS.Fin 0) (JS.Fin 5))
  /\ pendingTrimBoundary (onTimeUpdate pastBoundary fourEntries waitingForTrim).1
     = Some 8%Q.
Proof. vm_compute. repeat split; reflexivity. Qed.


Lemma fourEntries_nonempty : rows fourEntries <> [].
Proof. discriminate. Qed.

(** C3 at an example: four entries, a callback, ten chances to deliver. *)
Lemma cycle_detection_witness :
  let r := session None (caughtUp 5) (repeat (caughtUp 5) 9) fourEntries
             (setOnRollEnd true initial) in
  deliveries r.2 = bufferedQueueIndex r.1
  /\ (bufferedQueueIndex r.1 <= 4)%nat
  /\ rollEnds r.2 = (if (bufferedQueueIndex r.1 =? 4)%nat then 1 else 0)%nat
  /\ hasMoreSegments fourEntries r.1 = negb (bufferedQueueIndex r.1 =? 4)%nat.
Proof.
  exact (proj1 (proj2 (cycle_detection fourEntries fourEntries_nonempty))
           None (caughtUp 5) (repeat (caughtUp 5) 9)
           (setOnRollEnd true initial) eq_refl).
Defined.

Example one_pass_with_callback :
  let r := session None (caughtUp 5) (repeat (caughtUp 5) 9) fourEntries
             (setOnRollEnd true initial) in
  deliveries r.2 = 4%nat /\ rollEnds r.2 = 1%nat
  /\ hasMoreSegments fourEntries r.1 = false.
Proof. vm_compute. repeat split; reflexivity. Qed.

Example looping_without_callback :
  let r := session None (caughtUp 5) (repeat (caughtUp 5) 9) fourEntries initial in
  deliveries r.2 = 10%nat /\ rollEnds r.2 = 0%nat
  /\ bufferedQueueIndex r.1 = 10%nat
  /\ hasMoreSegments fourEntries r.1 = true.
Proof. vm_compute. repeat split; reflexivity. Qed.

End SchedulerFacts.

(* ================================================================== *)
(** * Further properties *)

(** ** Sorting a list that is sorted *)

Section SortedInput.
Context {A : Type} (le : A -> A -> bool).

Lemma insertSorted_HdRel_id x l :
  HdRel (fun u v => le u v = true) x l -> insertSorted le x l = x :: l.
Proof. destruct 1 as [|y l Hxy]; simpl; [done|]. by rewrite Hxy. Qed.

Lemma sortBy_Sorted_id l :
  Sorted (fun u v => le u v = true) l -> sortBy le l = l.
Proof.
  induction 1 as [|x l Hs IH Hhd]; simpl; [done|].
  rewrite IH. by apply insertSorted_HdRel_id.
Qed.

End SortedInput.

Lemma Sorted_weaken {A} (P Q : A -> A -> Prop) l :
  (forall a b, P a b -> Q a b) -> Sorted P l -> Sorted Q l.
Proof.
  intros HPQ. induction 1 as [|x l Hs IH Hhd]; constructor; [done|].
  destruct Hhd; constructor; auto.
Qed.

Lemma StronglySorted_lookup_lt {A} (R : A -> A -> Prop) l (i j : nat) a b :
  StronglySorted R l -> (i < j)%nat -> l !! i = Some a -> l !! j = Some b -> R a b.
Proof.
  intros Hs. revert i j. induction Hs as [|x l Hs IH Hall]; intros i j Hij Ha Hb.
  - done.
  - destruct j as [|j]; [lia|]. simpl in Hb. destruct i as [|i]; simpl in Ha.
    + injection Ha as <-. rewrite Forall_forall in Hall.
      apply Hall. by eapply list_elem_of_lookup_2.
    + apply (IH i j); [lia|done|done].
Qed.

Lemma strictly_sorted_range (qs : list Z) lo :
  StronglySorted Z.lt qs ->
  Forall (fun q => lo <= q < lo + Z.of_nat (List.length qs)) qs ->
  qs = seqZ lo (Z.of_nat (List.length qs)).
Proof.
  intros Hs. revert lo. induction Hs as [|q qs Hs IH Hall]; intros lo Hr.
  - done.
  - apply Forall_cons in Hr as [Hq Hr]. simpl List.length in *.
    rewrite Nat2Z.inj_succ, seqZ_cons by lia.
    replace (Z.pred (Z.succ (Z.of_nat (List.length qs)))) with (Z.of_nat (List.length qs)) by lia.
    assert (Hrest : qs = seqZ (Z.succ lo) (Z.of_nat (List.length qs))).
    { apply IH. rewrite Forall_forall in *. intros x Hx.
      specialize (Hall x Hx). specialize (Hr x Hx). lia. }
    assert (q = lo) as ->; [|by f_equal].
    destruct qs as [|q' qs'].
    + simpl in Hq. lia.
    + rewrite Hrest in Hall. simpl List.length in Hall.
      rewrite Nat2Z.inj_succ, seqZ_cons in Hall by lia.
      apply Forall_cons in Hall as [Hlt _]. lia.
Qed.

(** ** The queue store: removal, listing, exchange, single-record updates *)

Module QueueFacts.
Import Playlist PlaylistFacts Examples.

Lemma contiguous_fourEntries : contiguous fourEntries.
Proof. apply run_preserves. Qed.

Lemma getItem_delete_eq i s : getItem i (delete i s) = None.
Proof.
  unfold getItem, delete; simpl. induction (rows s) as [|r l IH]; [done|].
  simpl. destruct (Z.eqb_spec (id r) i) as [Heq|Hne]; simpl; [done|].
  destruct (Z.eqb_spec (id r) i); [done|]. exact IH.
Qed.

Lemma getItem_delete_ne j i s : j <> i -> getItem j (delete i s) = getItem j s.
Proof.
  intros Hji. unfold getItem, delete; simpl.
  induction (rows s) as [|r l IH]; [done|].
  simpl. destruct (Z.eqb_spec (id r) i) as [Heq|Hne]; simpl.
  - destruct (Z.eqb_spec (id r) j); [lia|]. exact IH.
  - destruct (Z.eqb_spec (id r) j); [done|]. exact IH.
Qed.

(** X1.  [remove(id)] on a store with unique keys: an id that is not
    stored rejects with "not found"; otherwise the entry is gone, the
    count drops by one, every other entry that was behind the removed one
    is one position earlier, and every entry before it is where it was. *)
Theorem remove_compacts i s :
  wf s ->
  (getItem i s = None -> remove i s = Err (NotFound i))
  /\ (forall item,
        getItem i s = Some item ->
        exists s',
          remove i s = Ok s'
          /\ getItem i s' = None
          /\ count s' = count s - 1
          /\ forall r, r ∈ rows s -> id r <> i ->
               getItem (id r) s'
               = Some (withQueueIndex
                         (if queueIndex item <? queueIndex r
                          then queueIndex r - 1 else queueIndex r) r)).
Proof.
  intros [Hnd Hlt]. split.
  - intros Hn. unfold remove. by rewrite Hn.
  - intros item Hitem. unfold remove. rewrite Hitem.
    eexists. split; [reflexivity|].
    destruct (getItem_Some _ _ _ Hitem) as [Hin Hid].
    split; [|split].
    + rewrite getItem_shift, getItem_delete_eq. done.
    + rewrite count_shift. by apply (length_delete i s item).
    + intros r Hr Hne. rewrite getItem_shift, getItem_delete_ne by done.
      rewrite (getItem_in s r Hnd Hr). simpl. do 2 f_equal.
      unfold shiftIndex.
      destruct (Z.leb_spec (queueIndex item + 1) (queueIndex r)),
               (Z.ltb_spec (queueIndex item) (queueIndex r)); lia.
Qed.

(** X1 at an example: entry 2 of the four is removed. *)
Lemma remove_compacts_witness :
  wf fourEntries
  /\ exists s',
       remove 2 fourEntries = Ok s'
       /\ getItem 2 s' = None
       /\ count s' = count fourEntries - 1.
Proof.
  split; [apply wf_fourEntries|].
  destruct (proj2 (remove_compacts 2 fourEntries wf_fourEntries) _ eq_refl)
    as (s' & Hr & Hn & Hc & _).
  exists s'. split; [exact Hr|]. split; [exact Hn|exact Hc].
Defined.

Example remove_example :
  (fun s => map (fun r => (id r, queueIndex r)) (getAll s))
    <$> (match remove 2 fourEntries with Ok s => Some s | Err _ => None end)
  = Some [(1, 0); (3, 1); (4, 2)].
Proof. reflexivity. Qed.

Lemma indexOrder_inOrder a b : indexOrder a b = true <-> inOrder a b.
Proof. unfold indexOrder, inOrder. lia. Qed.

Lemma indexOrder_total a b : indexOrder a b = false -> indexOrder b a = true.
Proof. unfold indexOrder. lia. Qed.

Lemma indexGetAll_Sorted s : Sorted (fun a b => indexOrder a b = true) (indexGetAll s).
Proof. apply sortBy_Sorted, indexOrder_total. Qed.

Lemma getAll_indexGetAll s : getAll s = indexGetAll s.
Proof.
  unfold getAll. apply sortBy_Sorted_id.
  eapply Sorted_weaken; [|apply indexGetAll_Sorted].
  intros a b. unfold indexOrder, byQueueIndex. lia.
Qed.

Lemma getAll_StronglySorted s : StronglySorted inOrder (getAll s).
Proof.
  rewrite getAll_indexGetAll. apply Sorted_StronglySorted.
  - intros a b c. unfold inOrder. lia.
  - eapply Sorted_weaken; [|apply indexGetAll_Sorted].
    intros a b. apply indexOrder_inOrder.
Qed.

Lemma getAll_indices s : map queueIndex (getAll s) ≡ₚ indices s.
Proof.
  unfold indices. apply Permutation_map.
  unfold getAll, indexGetAll. by rewrite !sortBy_Permutation.
Qed.

Lemma getAll_rows s : getAll s ≡ₚ rows s.
Proof. unfold getAll, indexGetAll. by rewrite !sortBy_Permutation. Qed.

Lemma inOrder_strict l :
  StronglySorted inOrder l -> NoDup (map queueIndex l) ->
  StronglySorted Z.lt (map queueIndex l).
Proof.
  induction 1 as [|x l Hs IH Hall]; simpl; intros Hnd; [constructor|].
  apply NoDup_cons in Hnd as [Hx Hnd].
  constructor; [by apply IH|].
  rewrite Forall_forall in Hall. apply Forall_forall. intros q Hq.
  apply list_elem_of_fmap in Hq as (r & -> & Hin).
  destruct (Hall r Hin) as [Hlt|[Heq _]]; [done|].
  exfalso. apply Hx. rewrite Heq. apply list_elem_of_fmap. by exists r.
Qed.

Lemma getAll_seqZ s :
  contiguous s -> map queueIndex (getAll s) = seqZ 0 (count s).
Proof.
  intros [Hnd Hr].
  assert (Hlen : List.length (map queueIndex (getAll s)) = List.length (rows s)).
  { rewrite length_map. apply Permutation_length, getAll_rows. }
  unfold count. rewrite <- Hlen. apply strictly_sorted_range.
  - apply inOrder_strict; [apply getAll_StronglySorted|].
    by rewrite getAll_indices.
  - rewrite Hlen. fold (count s). simpl.
    rewrite Forall_forall in *. intros q Hq. apply Hr.
    by rewrite <- getAll_indices.
Qed.

Lemma getAll_position s (n : nat) r :
  contiguous s ->
  getAll s !! n = Some r <-> r ∈ rows s /\ queueIndex r = Z.of_nat n.
Proof.
  intros Hc. pose proof (getAll_seqZ s Hc) as Hseq. split.
  - intros Hn. split.
    + rewrite <- getAll_rows. by eapply list_elem_of_lookup_2.
    + assert (Hq : map queueIndex (getAll s) !! n = Some (queueIndex r)).
      { change (map queueIndex (getAll s)) with (queueIndex <$> getAll s).
        by rewrite list_lookup_fmap, Hn. }
      rewrite Hseq in Hq. apply lookup_seqZ in Hq. lia.
  - intros [Hin Hq]. rewrite <- getAll_rows in Hin.
    apply list_elem_of_lookup_1 in Hin as [k Hk].
    assert (Hq' : map queueIndex (getAll s) !! k = Some (queueIndex r)).
    { change (map queueIndex (getAll s)) with (queueIndex <$> getAll s).
      by rewrite list_lookup_fmap, Hk. }
    rewrite Hseq in Hq'. apply lookup_seqZ in Hq'.
    assert (k = n) as -> by lia. done.
Qed.

(** X2.  [getAll()] lists every stored entry once, by ascending
    queueIndex and, among entries with the same queueIndex, by ascending
    key.  On a store whose positions are pairwise distinct and within
    [0, count), the positions listed are 0, 1, ..., count-1: the entry at
    array index [n] is the entry whose queueIndex is [n]. *)
Theorem getAll_queue_order s :
  getAll s ≡ₚ rows s
  /\ (forall (i j : nat) a b,
        (i < j)%nat -> getAll s !! i = Some a -> getAll s !! j = Some b ->
        queueIndex a < queueIndex b
        \/ (queueIndex a = queueIndex b /\ id a <= id b))
  /\ (contiguous s ->
      map queueIndex (getAll s) = seqZ 0 (count s)
      /\ forall (n : nat) r,
           getAll s !! n = Some r <-> r ∈ rows s /\ queueIndex r = Z.of_nat n).
Proof.
  split; [apply getAll_rows|]. split.
  - intros i j a b Hij Ha Hb.
    exact (StronglySorted_lookup_lt inOrder _ i j a b
             (getAll_StronglySorted s) Hij Ha Hb).
  - intros Hc. split; [by apply getAll_seqZ|].
    intros n r. by apply getAll_position.
Qed.

(** X2 at an example. *)
Lemma getAll_queue_order_witness :
  contiguous fourEntries
  /\ map queueIndex (getAll fourEntries) = seqZ 0 (count fourEntries).
Proof.
  split; [apply contiguous_fourEntries|].
  exact (proj1 (proj2 (proj2 (getAll_queue_order fourEntries))
                  contiguous_fourEntries)).
Defined.

Lemma reorder_defined f t s :
  0 <= f < count s -> 0 <= t < count s -> exists s', reorder f t s = Ok s'.
Proof.
  intros Hf Ht. unfold reorder.
  assert (Hlen : Z.of_nat (List.length (getAll s)) = count s).
  { unfold count. by rewrite length_getAll. }
  rewrite Hlen.
  destruct (Z.ltb_spec f 0); [lia|]. destruct (Z.leb_spec (count s) f); [lia|].
  destruct (Z.ltb_spec t 0); [lia|]. destruct (Z.leb_spec (count s) t); [lia|].
  cbn [orb].
  destruct (lookup_lt_is_Some_2 (getAll s) (Z.to_nat f)) as [a Ha]; [lia|].
  destruct (lookup_lt_is_Some_2 (getAll s) (Z.to_nat t)) as [b Hb]; [lia|].
  rewrite Ha, Hb.
  set (items1 := <[Z.to_nat f := withQueueIndex (queueIndex b) a]> (getAll s)).
  destruct (lookup_lt_is_Some_2 items1 (Z.to_nat t)) as [b1 Hb1].
  { unfold items1. rewrite length_insert. lia. }
  rewrite Hb1.
  set (items2 := <[Z.to_nat t := withQueueIndex (queueIndex a) b1]> items1).
  destruct (lookup_lt_is_Some_2 items2 (Z.to_nat f)) as [x Hx].
  { unfold items2, items1. rewrite !length_insert. lia. }
  destruct (lookup_lt_is_Some_2 items2 (Z.to_nat t)) as [y Hy].
  { unfold items2, items1. rewrite !length_insert. lia. }
  rewrite Hx, Hy. by eexists.
Qed.

Lemma reorder_rejects f t s :
  ~ (0 <= f < count s /\ 0 <= t < count s) -> reorder f t s = Err InvalidIndices.
Proof.
  intros Hn. unfold reorder.
  assert (Hlen : Z.of_nat (List.length (getAll s)) = count s).
  { unfold count. by rewrite length_getAll. }
  rewrite Hlen.
  destruct (Z.ltb_spec f 0); [done|]. destruct (Z.leb_spec (count s) f); [done|].
  destruct (Z.ltb_spec t 0); [done|]. destruct (Z.leb_spec (count s) t); [done|].
  lia.
Qed.

Lemma reorder_getAll f t s s' :
  wf s -> contiguous s -> reorder f t s = Ok s' ->
  exists a b,
    getAll s !! Z.to_nat f = Some a /\ getAll s !! Z.to_nat t = Some b
    /\ 0 <= f < count s /\ 0 <= t < count s
    /\ getAll s'
       = <[Z.to_nat f := withQueueIndex f b]>
           (<[Z.to_nat t := withQueueIndex t a]> (getAll s)).
Proof.
  intros Hwf Hc Hre.
  assert (Hb : 0 <= f < count s /\ 0 <= t < count s).
  { destruct (decide (0 <= f < count s /\ 0 <= t < count s)) as [|Hn]; [done|].
    rewrite (reorder_rejects _ _ _ Hn) in Hre. done. }
  destruct (reorder_preserves f t s s' Hwf Hc Hre) as [Hwf' Hc'].
  destruct (reorder_Ok _ _ _ _ Hre) as (a & b & Ha & Hbb & Hs').
  exists a, b. split; [done|]. split; [done|]. split; [lia|]. split; [lia|].
  destruct (proj1 (getAll_position s _ a Hc) Ha) as [Hain Hqa].
  destruct (proj1 (getAll_position s _ b Hc) Hbb) as [Hbin Hqb].
  rewrite Z2Nat.id in Hqa, Hqb by lia.
  destruct Hwf as [Hnd Hlt].
  assert (Hcnt : count s' = count s).
  { rewrite Hs'. apply (swap_indices a b s); [by split|apply Hc|done|done]. }
  assert (Hga : id a <> id b -> getItem (id a) s' = Some (withQueueIndex t a)).
  { intros Hne. rewrite Hs', Hqa, Hqb.
    rewrite getItem_put_ne by (simpl; done).
    apply (getItem_put_eq (withQueueIndex t a)). simpl.
    by apply getItem_is_Some. }
  assert (Hgb : getItem (id b) s' = Some (withQueueIndex f b)).
  { rewrite Hs', Hqa, Hqb.
    apply (getItem_put_eq (withQueueIndex f b)). simpl.
    destruct (decide (id b = id a)) as [Heq|Hne].
    - rewrite Heq. change (id a) with (id (withQueueIndex t a)).
      rewrite getItem_put_eq; [done|]. simpl. by apply getItem_is_Some.
    - rewrite getItem_put_ne by (simpl; done). by apply getItem_is_Some. }
  apply list_eq. intros n.
  destruct (decide (n < List.length (getAll s))%nat) as [Hn|Hn].
  2: { rewrite !lookup_ge_None_2; [done| |].
       - rewrite !length_insert. lia.
       - rewrite length_getAll. unfold count in Hcnt.
         rewrite length_getAll in Hn. lia. }
  destruct (lookup_lt_is_Some_2 (getAll s') n) as [r' Hr'].
  { rewrite length_getAll. unfold count in Hcnt. rewrite length_getAll in Hn. lia. }
  rewrite Hr'. symmetry.
  destruct (proj1 (getAll_position s' _ r' Hc') Hr') as [Hr'in Hq'].
  assert (Huniq : forall x, x ∈ rows s' -> queueIndex x = Z.of_nat n -> x = r').
  { intros x Hx Hqx. apply (queueIndex_inj_in s'); [apply Hc'|done|done|lia]. }
  destruct (decide (n = Z.to_nat f)) as [->|Hnf].
  - rewrite list_lookup_insert_eq by (rewrite length_insert; done).
    f_equal. apply Huniq.
    + by apply getItem_Some in Hgb as [? _].
    + simpl. lia.
  - rewrite list_lookup_insert_ne by done.
    destruct (decide (n = Z.to_nat t)) as [->|Hnt].
    + rewrite list_lookup_insert_eq by done.
      f_equal. apply Huniq.
      * assert (Hne : id a <> id b).
        { intros Heq. assert (a = b) by (by apply (id_inj_in s)). subst b. lia. }
        specialize (Hga Hne). by apply getItem_Some in Hga as [? _].
      * simpl. lia.
    + rewrite list_lookup_insert_ne by done.
      destruct (lookup_lt_is_Some_2 (getAll s) n Hn) as [r Hr]. rewrite Hr.
      f_equal.
      destruct (proj1 (getAll_position s _ r Hc) Hr) as [Hrin Hqr].
      apply Huniq; [|done].
      assert (Hra : id r <> id a).
      { intros Heq. assert (r = a) by (by apply (id_inj_in s)). subst r. lia. }
      assert (Hrb : id r <> id b).
      { intros Heq. assert (r = b) by (by apply (id_inj_in s)). subst r. lia. }
      assert (Hg : getItem (id r) s' = Some r).
      { rewrite Hs'. rewrite !getItem_put_ne by (simpl; done).
        by apply getItem_in. }
      by apply getItem_Some in Hg as [? _].
Qed.

(** X3.  [reorder(fromIndex, toIndex)] on a store that satisfies the
    index invariant: an index outside [0, count) rejects with "invalid
    indices"; otherwise the queue read back by [getAll()] is the queue as
    it was with the entries at the two positions exchanged, each carrying
    the queueIndex of its new position, and every other entry in place. *)
Theorem reorder_exchanges f t s :
  wf s -> contiguous s ->
  (~ (0 <= f < count s /\ 0 <= t < count s) ->
   reorder f t s = Err InvalidIndices)
  /\ (0 <= f < count s -> 0 <= t < count s ->
      exists a b s',
        getAll s !! Z.to_nat f = Some a /\ getAll s !! Z.to_nat t = Some b
        /\ reorder f t s = Ok s'
        /\ getAll s'
           = <[Z.to_nat f := withQueueIndex f b]>
               (<[Z.to_nat t := withQueueIndex t a]> (getAll s))).
Proof.
  intros Hwf Hc. split; [apply reorder_rejects|].
  intros Hf Ht. destruct (reorder_defined f t s Hf Ht) as [s' Hs'].
  destruct (reorder_getAll f t s s' Hwf Hc Hs') as (a & b & Ha & Hb & _ & _ & Hg).
  by exists a, b, s'.
Qed.

(** X3 at an example: positions 0 and 2 of the four entries. *)
Lemma reorder_exchanges_witness :
  wf fourEntries /\ contiguous fourEntries
  /\ exists a b s',
       getAll fourEntries !! Z.to_nat 0 = Some a
       /\ getAll fourEntries !! Z.to_nat 2 = Some b
       /\ reorder 0 2 fourEntries = Ok s'
       /\ getAll s'
          = <[Z.to_nat 0 := withQueueIndex 0 b]>
              (<[Z.to_nat 2 := withQueueIndex 2 a]> (getAll fourEntries)).
Proof.
  split; [apply wf_fourEntries|]. split; [apply contiguous_fourEntries|].
  apply (proj2 (reorder_exchanges 0 2 fourEntries wf_fourEntries
                  contiguous_fourEntries));
    change (count fourEntries) with 4; lia.
Defined.

Example reorder_example :
  map (fun r => (id r, queueIndex r)) (getAll swapped)
  = [(3, 0); (2, 1); (1, 2); (4, 3)]
  /\ reorder 0 4 fourEntries = Err InvalidIndices
  /\ reorder (-1) 0 fourEntries = Err InvalidIndices.
Proof. repeat split; reflexivity. Qed.

Lemma withQueueIndex_twice p q item :
  withQueueIndex p (withQueueIndex q item) = withQueueIndex p item.
Proof. done. Qed.

(** X4.  On a store that satisfies the index invariant, a [reorder] that
    succeeded is undone by the same [reorder]: the queue read back is the
    queue as it was before the first.  And [reorder(t, f)] gives the same
    queue as [reorder(f, t)]. *)
Theorem reorder_twice f t s s' :
  wf s -> contiguous s -> reorder f t s = Ok s' ->
  (exists s'', reorder f t s' = Ok s'' /\ getAll s'' = getAll s)
  /\ (exists s2, reorder t f s = Ok s2 /\ getAll s2 = getAll s').
Proof.
  intros Hwf Hc Hre.
  destruct (reorder_getAll f t s s' Hwf Hc Hre) as (a & b & Ha & Hb & Hf & Ht & Hg).
  destruct (reorder_preserves f t s s' Hwf Hc Hre) as [Hwf' Hc'].
  destruct (proj1 (getAll_position s _ a Hc) Ha) as [_ Hqa].
  destruct (proj1 (getAll_position s _ b Hc) Hb) as [_ Hqb].
  rewrite Z2Nat.id in Hqa, Hqb by lia.
  assert (Hlen : (Z.to_nat f < List.length (getAll s))%nat
                 /\ (Z.to_nat t < List.length (getAll s))%nat).
  { split; by eapply lookup_lt_Some. }
  assert (Hcnt : count s' = count s).
  { unfold count. rewrite <- !length_getAll, Hg, !length_insert. done. }
  split.
  - destruct (reorder_defined f t s') as [s'' Hs'']; [lia|lia|].
    exists s''. split; [done|].
    destruct (reorder_getAll f t s' s'' Hwf' Hc' Hs'')
      as (a' & b' & Ha' & Hb' & _ & _ & Hg').
    rewrite Hg', Hg. rewrite Hg in Ha', Hb'.
    rewrite list_lookup_insert_eq in Ha' by (rewrite length_insert; lia).
    injection Ha' as <-.
    apply list_eq. intros n.
    destruct (decide (n = Z.to_nat f)) as [->|Hnf].
    + rewrite list_lookup_insert_eq by (rewrite !length_insert; lia).
      rewrite Ha. f_equal.
      destruct (decide (Z.to_nat f = Z.to_nat t)) as [Heq|Hne].
      * rewrite Heq in Hb'.
        rewrite list_lookup_insert_eq in Hb' by (rewrite length_insert; lia).
        injection Hb' as <-. rewrite Heq, Hb in Ha. injection Ha as <-.
        assert (f = t) as -> by lia.
        rewrite withQueueIndex_twice, <- Hqb. apply withQueueIndex_same.
      * rewrite list_lookup_insert_ne in Hb' by done.
        rewrite list_lookup_insert_eq in Hb' by lia.
        injection Hb' as <-. rewrite withQueueIndex_twice, <- Hqa.
        apply withQueueIndex_same.
    + rewrite list_lookup_insert_ne by done.
      destruct (decide (n = Z.to_nat t)) as [->|Hnt].
      * rewrite list_lookup_insert_eq by (rewrite !length_insert; lia).
        rewrite Hb. f_equal. rewrite withQueueIndex_twice, <- Hqb.
        apply withQueueIndex_same.
      * by rewrite !list_lookup_insert_ne by done.
  - destruct (reorder_defined t f s) as [s2 Hs2]; [lia|lia|].
    exists s2. split; [done|].
    destruct (reorder_getAll t f s s2 Hwf Hc Hs2)
      as (a2 & b2 & Ha2 & Hb2 & _ & _ & Hg2).
    rewrite Hg2, Hg. rewrite Hb in Ha2. rewrite Ha in Hb2.
    injection Ha2 as <-. injection Hb2 as <-.
    destruct (decide (Z.to_nat f = Z.to_nat t)) as [Heq|Hne].
    + rewrite Heq in *. assert (f = t) as -> by lia.
      assert (a = b) as -> by congruence. done.
    + by apply list_insert_insert_ne.
Qed.

(** X4 at an example. *)
Lemma reorder_twice_witness :
  reorder 0 2 fourEntries = Ok swapped
  /\ exists s'', reorder 0 2 swapped = Ok s'' /\ getAll s'' = getAll fourEntries.
Proof.
  split; [reflexivity|].
  exact (proj1 (reorder_twice 0 2 fourEntries swapped wf_fourEntries
                  contiguous_fourEntries eq_refl)).
Defined.

Lemma map_id_in {A} (f : A -> A) l : (forall x, x ∈ l -> f x = x) -> map f l = l.
Proof.
  intros H. induction l as [|x l IH]; simpl; [done|].
  rewrite H by (apply elem_of_cons; by left). f_equal. apply IH.
  intros y Hy. apply H. apply elem_of_cons; by right.
Qed.



(** X6.  [updateQueueIndex(id, q)]: an id that is not stored rejects with
    "not found"; otherwise that entry, and no other, is rewritten with
    queueIndex [q]; nothing is shifted.  So on a store that satisfies the
    index invariant, every call that changes the entry's position breaks
    the invariant: the new position is outside [0, count) or another
    entry already has it. *)
Theorem updateQueueIndex_no_shift i q s :
  wf s ->
  (getItem i s = None -> updateQueueIndex i q s = Err (NotFound i))
  /\ (forall item,
        getItem i s = Some item ->
        exists s',
          updateQueueIndex i q s = Ok s'
          /\ getItem i s' = Some (withQueueIndex q item)
          /\ (forall j, j <> i -> getItem j s' = getItem j s)
          /\ count s' = count s
          /\ (contiguous s -> q <> queueIndex item -> ~ contiguous s')).
Proof.
  intros Hwf. split.
  - intros Hn. unfold updateQueueIndex. by rewrite Hn.
  - intros item Hitem. unfold updateQueueIndex. rewrite Hitem.
    eexists. split; [reflexivity|].
    destruct (getItem_Some _ _ _ Hitem) as [Hin Hid].
    assert (Hidin : id (withQueueIndex q item) ∈ ids s).
    { simpl. by apply elem_of_ids. }
    assert (Hgi : getItem i (put (withQueueIndex q item) s)
                  = Some (withQueueIndex q item)).
    { rewrite <- Hid at 1. change (id item) with (id (withQueueIndex q item)).
      apply getItem_put_eq. simpl. rewrite Hid, Hitem. by eexists. }
    assert (Hgj : forall j, j <> i ->
              getItem j (put (withQueueIndex q item) s) = getItem j s).
    { intros j Hj. apply getItem_put_ne. simpl. lia. }
    split; [done|]. split; [done|]. split.
    { unfold count. by rewrite put_rows, length_map. }
    intros Hc Hq [Hnd' Hr'].
    pose proof (wf_put _ _ Hwf Hidin) as Hwf'.
    assert (Hnew : withQueueIndex q item ∈ rows (put (withQueueIndex q item) s)).
    { by apply getItem_Some in Hgi as [? _]. }
    assert (Hrange : 0 <= q < count s).
    { rewrite Forall_forall in Hr'.
      specialize (Hr' q (elem_of_indices _ _ Hnew)).
      unfold count in *. rewrite put_rows, length_map in Hr' by done. done. }
    apply (contiguous_exact s Hc) in Hrange.
    unfold indices in Hrange. apply list_elem_of_fmap in Hrange as (r & Hqr & Hr).
    assert (Hne : id r <> i).
    { intros Heq. assert (r = item); [|subst r; done].
      apply (id_inj_in s); [apply Hwf|done|done|lia]. }
    assert (Hr2 : r ∈ rows (put (withQueueIndex q item) s)).
    { pose proof (Hgj (id r) Hne) as Hg.
      rewrite (getItem_in s r) in Hg by (apply Hwf || done).
      by apply getItem_Some in Hg as [? _]. }
    assert (Heq : r = withQueueIndex q item).
    { apply (queueIndex_inj_in (put (withQueueIndex q item) s)); try done. }
    apply Hne. rewrite Heq. simpl. done.
Qed.

(** X6 at an example: entry 2 is sent to position 0, where entry 1 is. *)
Lemma updateQueueIndex_no_shift_witness :
  wf fourEntries
  /\ updateQueueIndex 9 0 fourEntries = Err (NotFound 9)
  /\ exists s', updateQueueIndex 2 0 fourEntries = Ok s' /\ ~ contiguous s'.
Proof.
  split; [apply wf_fourEntries|].
  split.
  - exact (proj1 (updateQueueIndex_no_shift 9 0 fourEntries wf_fourEntries)
             eq_refl).
  - destruct (proj2 (updateQueueIndex_no_shift 2 0 fourEntries wf_fourEntries)
                {| id := 2; blob := Some (blobOf 2); queueIndex := 1;
                   metadata := {[ "filename" := JS.VStr "b" ]} |} eq_refl)
      as (s' & Hu & _ & _ & _ & Hbreak).
    exists s'. split; [exact Hu|].
    apply Hbreak; [apply contiguous_fourEntries|discriminate].
Defined.

Example updateQueueIndex_example :
  (fun s => map queueIndex (getAll s))
    <$> (match updateQueueIndex 2 0 fourEntries with
         | Ok s => Some s
         | Err _ => None
         end)
  = Some [0; 0; 2; 3].
Proof. reflexivity. Qed.

Lemma put_put item s :
  id item ∈ ids s -> put item (put item s) = put item s.
Proof.
  intros Hin.
  assert (Hin' : id item ∈ ids (put item s)) by (by rewrite ids_put).
  unfold put at 1. 
  assert (He : existsb (fun r => id r =? id item) (rows (put item s)) = true).
  { apply existsb_exists. unfold ids in Hin'.
    apply list_elem_of_fmap in Hin' as (r & Hr & Hrin).
    exists r. split; [by apply list_elem_of_In|lia]. }
  rewrite He. rewrite (put_rows item s Hin) at 1. rewrite map_map.
  assert (Hk : Z.max (keyGen (put item s)) (id item + 1) = keyGen (put item s)).
  { simpl. lia. }
  rewrite Hk.
  assert (Hm : map (fun x => if id (if id x =? id item then item else x) =? id item
                             then item else if id x =? id item then item else x) (rows s)
               = rows (put item s)).
  { rewrite put_rows by done. apply map_ext. intros x.
    destruct (Z.eqb_spec (id x) (id item)) as [Heq|Hne].
    - by rewrite Z.eqb_refl.
    - destruct (Z.eqb_spec (id x) (id item)); [done|]. done. }
  rewrite Hm. by destruct (put item s).
Qed.

(** X7.  [updateMetadata(id, m)]: an id that is not stored rejects with
    "not found"; otherwise the stored metadata becomes the shallow merge
    of [m] over it (a key of [m] takes [m]'s value, any other key keeps
    its value), the blob and the queueIndex are kept, no other entry is
    touched, and a second call with the same [m] changes nothing.  It is
    [updateItem(id, {metadata: m})]. *)
Theorem updateMetadata_merges i m s :
  (getItem i s = None -> updateMetadata i m s = Err (NotFound i))
  /\ (forall item,
        getItem i s = Some item ->
        exists s',
          updateMetadata i m s = Ok s'
          /\ getItem i s'
             = Some {| id := i; blob := blob item; queueIndex := queueIndex item;
                       metadata := m ∪ metadata item |}
          /\ (forall k v, m !! k = Some v -> (m ∪ metadata item) !! k = Some v)
          /\ (forall k, m !! k = None -> (m ∪ metadata item) !! k = metadata item !! k)
          /\ (forall j, j <> i -> getItem j s' = getItem j s)
          /\ updateMetadata i m s' = Ok s')
  /\ updateMetadata i m s
     = updateItem i {| u_blob := None; u_queueIndex := None; u_metadata := Some m |} s.
Proof.
  split; [|split].
  - intros Hn. unfold updateMetadata. by rewrite Hn.
  - intros item Hitem. unfold updateMetadata at 1. rewrite Hitem.
    destruct (getItem_Some _ _ _ Hitem) as [Hin Hid].
    set (item' := {| id := id item; blob := blob item;
                     queueIndex := queueIndex item;
                     metadata := m ∪ metadata item |}).
    exists (put item' s). split; [done|].
    assert (Hgi : getItem i (put item' s) = Some item').
    { rewrite <- Hid at 1. change (id item) with (id item').
      apply getItem_put_eq. simpl. rewrite Hid, Hitem. by eexists. }
    split; [by rewrite Hgi; unfold item'; rewrite Hid|].
    split; [intros k v Hk; by apply lookup_union_Some_l|].
    split; [intros k Hk; by apply lookup_union_r|].
    split; [intros j Hj; apply getItem_put_ne; simpl; lia|].
    unfold updateMetadata. rewrite Hgi. simpl.
    assert (Hmm : m ∪ (m ∪ metadata item) = m ∪ metadata item).
    { by rewrite (assoc_L (∪)), (idemp_L (∪)). }
    rewrite Hmm. fold item'. f_equal. apply put_put. simpl.
    by apply elem_of_ids.
  - unfold updateMetadata, updateItem. by destruct (getItem i s).
Qed.

(** X8.  [batchUpdateQueueIndices(updates)] with pairwise distinct ids is
    not all-or-nothing: every listed id that is stored gets its new
    queueIndex, whether or not another listed id is missing; unlisted
    entries are untouched and no record is created or deleted.  The batch
    succeeds exactly when every listed id is stored, and a failure names
    a listed id that is not. *)
Theorem batch_not_atomic updates s :
  NoDup updates.*1 ->
  let r := batchUpdateQueueIndices updates s in
  (forall j q, (j, q) ∈ updates -> getItem j r.1 = withQueueIndex q <$> getItem j s)
  /\ (forall j, j ∉ updates.*1 -> getItem j r.1 = getItem j s)
  /\ ids r.1 = ids s
  /\ (r.2 = None <-> forall u, u ∈ updates -> is_Some (getItem (fst u) s))
  /\ (forall e, r.2 = Some e ->
        exists j, e = NotFound j /\ j ∈ updates.*1 /\ getItem j s = None).
Proof.
  unfold batchUpdateQueueIndices.
  induction updates as [|u updates IH] using rev_ind; intros Hnd.
  - simpl. split; [|split; [done|split; [done|split]]].
    + intros j q Hq. by apply elem_of_nil in Hq.
    + split; [|done]. intros _ u Hu. by apply elem_of_nil in Hu.
    + done.
  - rewrite fmap_app in Hnd. apply NoDup_app in Hnd as (Hnd & Hdisj & _).
    assert (Hu : fst u ∉ updates.*1).
    { intros Hin. apply (Hdisj _ Hin). simpl. by apply list_elem_of_singleton. }
    destruct (IH Hnd) as (Hin & Hout & Hids & Hnone & Herr). clear IH.
    rewrite foldl_snoc. cbn zeta.
    set (acc := foldl _ _ updates) in *.
    assert (Hsplit : forall j q, (j, q) ∈ updates ++ [u] ->
              ((j, q) ∈ updates) \/ (u = (j, q))).
    { intros j q Hq. apply elem_of_app in Hq as [Hq|Hq]; [by left|].
      apply list_elem_of_singleton in Hq. by right. }
    assert (Hkeys : forall j, j ∉ (updates ++ [u]).*1 ->
              (j ∉ updates.*1) /\ j <> fst u).
    { intros j Hj. split.
      - intros Hj'. apply Hj. rewrite fmap_app, elem_of_app. by left.
      - intros ->. apply Hj. rewrite fmap_app, elem_of_app. right.
        simpl. by apply list_elem_of_singleton. }
    assert (Hmem : forall j q, (j, q) ∈ updates -> j ∈ updates.*1).
    { intros j q Hq. apply list_elem_of_fmap. by exists (j, q). }
    destruct (getItem (fst u) s) as [item|] eqn:Hitem; cbn [fst snd].
    + pose proof (getItem_Some _ _ _ Hitem) as [Hitin Hid].
      split; [|split; [|split; [|split]]].
      * intros j q Hq. destruct (Hsplit j q Hq) as [Hq' | ->].
        { rewrite getItem_put_ne; [by apply Hin|].
          simpl. intros ->. apply Hu. rewrite <- Hid. by eapply Hmem. }
        simpl in *. rewrite Hitem. simpl. rewrite <- Hid at 1.
        change (id item) with (id (withQueueIndex q item)).
        apply getItem_put_eq. simpl. rewrite Hid, (Hout j Hu), Hitem.
        by eexists.
      * intros j Hj. destruct (Hkeys j Hj) as [Hj1 Hj2].
        rewrite getItem_put_ne by (simpl; lia). by apply Hout.
      * rewrite ids_put; [done|]. simpl. rewrite Hids. by apply elem_of_ids.
      * rewrite Hnone. split.
        { intros Hall v Hv. apply elem_of_app in Hv as [Hv|Hv]; [by apply Hall|].
          apply list_elem_of_singleton in Hv. subst v. rewrite Hitem. by eexists. }
        { intros Hall v Hv. apply Hall, elem_of_app. by left. }
      * intros e He. destruct (Herr e He) as (j & -> & Hj & Hjn).
        exists j. split; [done|]. split; [|done].
        rewrite fmap_app, elem_of_app. by left.
    + split; [|split; [|split; [|split]]].
      * intros j q Hq. destruct (Hsplit j q Hq) as [Hq' | ->]; [by apply Hin|].
        simpl in *. rewrite (Hout j Hu), Hitem. done.
      * intros j Hj. destruct (Hkeys j Hj) as [Hj1 Hj2]. by apply Hout.
      * done.
      * split.
        { intros He. by destruct (snd acc). }
        { intros Hall. destruct (Hall u) as [x Hx]; [|congruence].
          apply elem_of_app. right. by apply list_elem_of_singleton. }
      * intros e He. destruct (snd acc) as [e'|] eqn:Hacc.
        { injection He as <-. destruct (Herr e' eq_refl) as (j & -> & Hj & Hjn).
          exists j. split; [done|]. split; [|done].
          rewrite fmap_app, elem_of_app. by left. }
        { injection He as <-. exists (fst u). split; [done|]. split; [|done].
          rewrite fmap_app, elem_of_app. right. simpl.
          by apply list_elem_of_singleton. }
Qed.

(** X8 at an example: id 9 is not stored, entry 2 is still moved. *)
Lemma batch_not_atomic_witness :
  NoDup [(2, 0); (9, 1)].*1
  /\ getItem 2 (batchUpdateQueueIndices [(2, 0); (9, 1)] fourEntries).1
     = withQueueIndex 0 <$> getItem 2 fourEntries.
Proof.
  assert (Hnd : NoDup [(2, 0); (9, 1)].*1).
  { apply NoDup_cons. split; [|apply NoDup_singleton].
    intros Hin. apply list_elem_of_singleton in Hin. discriminate. }
  split; [exact Hnd|].
  apply (proj1 (batch_not_atomic [(2, 0); (9, 1)] fourEntries Hnd)).
  apply elem_of_cons. by left.
Defined.

Example batch_example :
  (batchUpdateQueueIndices [(2, 0); (9, 1)] fourEntries).2 = Some (NotFound 9)
  /\ map queueIndex
       (getAll (batchUpdateQueueIndices [(2, 0); (9, 1)] fourEntries).1)
     = [0; 0; 2; 3].
Proof. split; reflexivity. Qed.

(** X9.  [clear()] empties the queue and resets the navigation cursor to
    -1, so [next] and [previous] find nothing.  The next [add], whatever
    insert index it is given, stores its entry at queueIndex 0, under a
    key no entry had before the [clear]. *)
Theorem clear_resets b md (insertIndex : option Z) s :
  wf s ->
  let s0 := (clear s).1 in
  let s1 := (add b md insertIndex s0).1 in
  let key := (add b md insertIndex s0).2 in
  isEmpty s0 = true /\ getAll s0 = []
  /\ (clear s).2 = -1
  /\ (forall loop, next loop (clear s).2 s0 = (-1, None)
                   /\ previous loop (clear s).2 s0 = (-1, None))
  /\ (key ∉ ids s)
  /\ getAll s1
     = [ {| id := key; blob := Some b; queueIndex := 0; metadata := md |} ].
Proof.
  intros [_ Hlt] s0 s1 key.
  split; [done|]. split; [done|]. split; [done|]. split; [done|].
  assert (Hkey : key = keyGen s).
  { unfold key. transitivity (keyGen s0); [|done].
    unfold add. cbn [snd]. destruct insertIndex as [i|]; [|done].
    by destruct (i <? count s0). }
  split.
  - rewrite Hkey. intros Hin. unfold ids in Hin.
    apply list_elem_of_fmap in Hin as (r & Hr & Hin).
    rewrite Forall_forall in Hlt. specialize (Hlt r Hin). lia.
  - unfold getAll, indexGetAll, s1. rewrite add_rows.
    fold key. rewrite Hkey.
    assert (Hq : match insertIndex with
                 | Some i => Z.max 0 (Z.min i (count s0))
                 | None => count s0
                 end = 0).
    { unfold s0. cbn. destruct insertIndex as [i|]; [|done].
      change (count (clearStore s)) with 0. lia. }
    rewrite Hq.
    assert (Hrows : rows match insertIndex with
                         | Some i => if i <? count s0
                                     then shiftQueueIndices i 1 s0 else s0
                         | None => s0
                         end = []).
    { destruct insertIndex as [i|]; [destruct (i <? count s0)|]; done. }
    rewrite Hrows. done.
Qed.

(** X9 at an example. *)
Lemma clear_resets_witness :
  wf fourEntries
  /\ isEmpty (clear fourEntries).1 = true
  /\ getAll (add (blobOf 9) ∅ (Some 3) (clear fourEntries).1).1
     = [ {| id := (add (blobOf 9) ∅ (Some 3) (clear fourEntries).1).2;
            blob := Some (blobOf 9); queueIndex := 0; metadata := ∅ |} ].
Proof.
  split; [apply wf_fourEntries|].
  destruct (clear_resets (blobOf 9) ∅ (Some 3) fourEntries wf_fourEntries)
    as (Hempty & _ & _ & _ & _ & Hall).
  split; [exact Hempty|exact Hall].
Defined.

End QueueFacts.

(** ** The navigation cursor *)

Module NavigationFacts.
Import Playlist PlaylistFacts Examples.

Lemma getAll_count s : Z.of_nat (List.length (getAll s)) = count s.
Proof. unfold count. by rewrite length_getAll. Qed.

Lemma nth_item_in_range s i :
  0 <= i < count s -> exists item, nth_item (getAll s) i = Some item.
Proof.
  intros Hi. unfold nth_item. destruct (Z.ltb_spec i 0); [lia|].
  apply lookup_lt_is_Some_2. rewrite <- getAll_count in Hi. lia.
Qed.

Lemma current_nth s i : 0 <= i -> current i s = nth_item (getAll s) i.
Proof. intros Hi. unfold current. destruct (Z.ltb_spec i 0); [lia|done]. Qed.

Lemma navigate_step s ci nav :
  -1 <= ci < count s ->
  -1 <= (navigate s ci nav).1 < count s
  /\ (forall item, (navigate s ci nav).2 = Some item ->
        current (navigate s ci nav).1 s = Some item)
  /\ ((navigate s ci nav).2 = None <->
      match nav with
      | NavNext loop => ci = count s - 1 /\ (loop = false \/ count s = 0)
      | NavPrevious loop => ci <= 0 /\ (loop = false \/ count s = 0)
      | NavJumpTo index => ~ (0 <= index < count s)
      | NavReset => True
      end)
  /\ ((navigate s ci nav).2 = None -> nav <> NavReset -> (navigate s ci nav).1 = ci).
Proof.
  intros Hci. pose proof (getAll_count s) as Hn.
  destruct nav as [loop|loop|index|]; unfold navigate.
  - unfold next. rewrite Hn.
    destruct (Z.eqb_spec (count s) 0) as [H0|H0]; cbn [fst snd].
    { split; [lia|]. split; [done|]. split; [|lia]. split; [lia|done]. }
    destruct (Z.ltb_spec ci (count s - 1)); cbn [fst snd].
    { destruct (nth_item_in_range s (ci + 1)) as [item Hitem]; [lia|].
      rewrite Hitem. split; [lia|]. split.
      - intros ? <-. rewrite current_nth by lia. done.
      - split; [|done]. split; [done|lia]. }
    destruct loop; cbn [fst snd].
    { destruct (nth_item_in_range s 0) as [item Hitem]; [lia|].
      rewrite Hitem. split; [lia|]. split.
      - intros ? <-. rewrite current_nth by lia. done.
      - split; [|done]. split; [done|]. intros [_ [?|?]]; [done|lia]. }
    split; [lia|]. split; [done|]. split; [|done]. split; [|done].
    intros _. split; [lia|by left].
  - unfold previous. rewrite Hn.
    destruct (Z.eqb_spec (count s) 0) as [H0|H0]; cbn [fst snd].
    { split; [lia|]. split; [done|]. split; [|lia]. split; [lia|done]. }
    destruct (Z.ltb_spec 0 ci); cbn [fst snd].
    { destruct (nth_item_in_range s (ci - 1)) as [item Hitem]; [lia|].
      rewrite Hitem. split; [lia|]. split.
      - intros ? <-. rewrite current_nth by lia. done.
      - split; [|done]. split; [done|lia]. }
    destruct loop; cbn [fst snd].
    { destruct (nth_item_in_range s (count s - 1)) as [item Hitem]; [lia|].
      rewrite Hitem. split; [lia|]. split.
      - intros ? <-. rewrite current_nth by lia. done.
      - split; [|done]. split; [done|]. intros [_ [?|?]]; [done|lia]. }
    split; [lia|]. split; [done|]. split; [|done]. split; [|done].
    intros _. split; [lia|by left].
  - unfold jumpTo. rewrite Hn.
    destruct (Z.leb_spec 0 index); cbn [andb];
      [destruct (Z.ltb_spec index (count s))|]; cbn [fst snd].
    + destruct (nth_item_in_range s index) as [item Hitem]; [lia|].
      rewrite Hitem. split; [lia|]. split.
      * intros ? <-. rewrite current_nth by lia. done.
      * split; [|done]. split; [done|lia].
    + split; [lia|]. split; [done|]. split; [|done]. split; [|done]. lia.
    + split; [lia|]. split; [done|]. split; [|done]. split; [|done]. lia.
  - cbn [fst snd]. unfold reset. split; [lia|]. split; [done|].
    split; [done|]. done.
Qed.

(** X10.  Over a store that does not change, a cursor within [-1, count)
    stays there under [next], [previous], [jumpTo] and [reset], and so
    along any sequence of them.  An entry one of them returns is the
    entry [current()] returns afterwards.  [next] returns nothing exactly
    at the last entry without [loop] (or on an empty queue), [previous]
    exactly at the first entry or before it without [loop], [jumpTo]
    exactly for an index outside [0, count); and a call that returns
    nothing has left the cursor where it was. *)
Theorem navigation_stays_in_range s ci :
  -1 <= ci < count s ->
  (forall nav,
      -1 <= (navigate s ci nav).1 < count s
      /\ (forall item, (navigate s ci nav).2 = Some item ->
            current (navigate s ci nav).1 s = Some item)
      /\ ((navigate s ci nav).2 = None <->
          match nav with
          | NavNext loop => ci = count s - 1 /\ (loop = false \/ count s = 0)
          | NavPrevious loop => ci <= 0 /\ (loop = false \/ count s = 0)
          | NavJumpTo index => ~ (0 <= index < count s)
          | NavReset => True
          end)
      /\ ((navigate s ci nav).2 = None -> nav <> NavReset ->
          (navigate s ci nav).1 = ci))
  /\ (forall navs, -1 <= navigateAll s ci navs < count s).
Proof.
  intros Hci. split; [intros nav; by apply navigate_step|].
  intros navs. revert ci Hci. induction navs as [|nav navs IH]; intros ci Hci.
  - done.
  - simpl. apply IH. by apply navigate_step.
Qed.

(** X10 at an example: from the reset cursor over the four entries. *)
Lemma navigation_stays_in_range_witness :
  -1 <= reset < count fourEntries
  /\ -1 <= navigateAll fourEntries reset
             [NavNext false; NavJumpTo 7; NavPrevious true; NavNext true]
        < count fourEntries.
Proof.
  assert (Hr : -1 <= reset < count fourEntries).
  { change (count fourEntries) with 4. unfold reset. lia. }
  split; [exact Hr|].
  apply (proj2 (navigation_stays_in_range fourEntries reset Hr)).
Defined.

Example navigation_example :
  (next false reset fourEntries).1 = 0
  /\ (jumpTo 7 0 fourEntries) = (0, None)
  /\ (previous false 0 fourEntries) = (0, None)
  /\ (previous true 0 fourEntries).1 = 3
  /\ (next false 3 fourEntries) = (3, None)
  /\ (next true 3 fourEntries).1 = 0.
Proof. repeat split; reflexivity. Qed.

Lemma nth_item_nat s (k : nat) : nth_item (getAll s) (Z.of_nat k) = getAll s !! k.
Proof.
  unfold nth_item. destruct (Z.ltb_spec (Z.of_nat k) 0); [lia|].
  by rewrite Nat2Z.id.
Qed.

Lemma next_loop_step s (k : nat) :
  let n := List.length (getAll s) in
  (0 < n)%nat -> (k < n)%nat ->
  next true (Z.of_nat k) s
  = (Z.of_nat (S k mod n), getAll s !! (S k mod n)%nat).
Proof.
  intros n Hn Hk. unfold next. fold n.
  destruct (Z.eqb_spec (Z.of_nat n) 0); [lia|].
  destruct (Z.ltb_spec (Z.of_nat k) (Z.of_nat n - 1)).
  - rewrite Nat.mod_small by lia.
    replace (Z.of_nat k + 1) with (Z.of_nat (S k)) by lia.
    by rewrite nth_item_nat.
  - assert (S k = n) as -> by lia. rewrite Nat.Div0.mod_same.
    change 0 with (Z.of_nat 0). by rewrite nth_item_nat.
Qed.

(** X11.  From the reset cursor, over a non-empty queue of [n] entries that
    does not change: the [k+1]-th call of [next(true)] returns the entry
    at position [k mod n], so the entries come in queue order, round
    after round; the [k+1]-th call of [next(false)] returns the entry at
    position [k] while [k < n], and after that nothing, with the cursor
    resting on the last entry. *)
Theorem next_walks_the_queue s (k : nat) :
  let n := List.length (getAll s) in
  (0 < n)%nat ->
  nextTimes (S k) true reset s
  = (Z.of_nat (k mod n), getAll s !! (k mod n)%nat)
  /\ nextTimes (S k) false reset s
     = (if (k <? n)%nat then (Z.of_nat k, getAll s !! k)
        else (Z.of_nat n - 1, None)).
Proof.
  intros n Hn. split.
  - induction k as [|k IH].
    + simpl. unfold next, reset. fold n.
      destruct (Z.eqb_spec (Z.of_nat n) 0); [lia|].
      destruct (Z.ltb_spec (-1) (Z.of_nat n - 1)); [|lia].
      rewrite Nat.mod_small by lia.
      change (-1 + 1) with (Z.of_nat 0). by rewrite nth_item_nat.
    + change (nextTimes (S (S k)) true reset s)
        with (next true (nextTimes (S k) true reset s).1 s).
      rewrite IH. cbn [fst].
      rewrite (next_loop_step s (k mod n)); fold n;
        [|lia|apply Nat.mod_upper_bound; lia].
      replace (S (k mod n) mod n)%nat with (S k mod n)%nat; [done|].
      replace (S k) with (1 + k)%nat by lia.
      replace (S (k mod n)) with (1 + k mod n)%nat by lia.
      by rewrite Nat.Div0.add_mod_idemp_r.
  - induction k as [|k IH].
    + simpl. unfold next, reset. fold n.
      destruct (Z.eqb_spec (Z.of_nat n) 0); [lia|].
      destruct (Z.ltb_spec (-1) (Z.of_nat n - 1)); [|lia].
      destruct (Nat.ltb_spec 0 n); [|lia].
      change (-1 + 1) with (Z.of_nat 0). by rewrite nth_item_nat.
    + change (nextTimes (S (S k)) false reset s)
        with (next false (nextTimes (S k) false reset s).1 s).
      rewrite IH. unfold next. fold n.
      destruct (Z.eqb_spec (Z.of_nat n) 0); [lia|].
      destruct (Nat.ltb_spec k n); cbn [fst].
      * destruct (Z.ltb_spec (Z.of_nat k) (Z.of_nat n - 1)).
        { destruct (Nat.ltb_spec (S k) n); [|lia].
          replace (Z.of_nat k + 1) with (Z.of_nat (S k)) by lia.
          by rewrite nth_item_nat. }
        { destruct (Nat.ltb_spec (S k) n); [lia|].
          f_equal. lia. }
      * destruct (Z.ltb_spec (Z.of_nat n - 1) (Z.of_nat n - 1)); [lia|].
        destruct (Nat.ltb_spec (S k) n); [lia|done].
Qed.

(** X11 at an example: the sixth call over four entries. *)
Lemma next_walks_the_queue_witness :
  (0 < List.length (getAll fourEntries))%nat
  /\ nextTimes 6 true reset fourEntries
     = (Z.of_nat (5 mod List.length (getAll fourEntries)),
        getAll fourEntries !! (5 mod List.length (getAll fourEntries))%nat)
  /\ nextTimes 6 false reset fourEntries
     = (if (5 <? List.length (getAll fourEntries))%nat
        then (Z.of_nat 5, getAll fourEntries !! 5%nat)
        else (Z.of_nat (List.length (getAll fourEntries)) - 1, None)).
Proof.
  assert (Hn : (0 < List.length (getAll fourEntries))%nat).
  { change (List.length (getAll fourEntries)) with 4%nat. lia. }
  split; [exact Hn|].
  exact (next_walks_the_queue fourEntries 5 Hn).
Defined.

Example next_example :
  (id <$> (nextTimes 6 true reset fourEntries).2) = Some 2
  /\ nextTimes 6 false reset fourEntries = (3, None).
Proof. split; reflexivity. Qed.

(** X12.  With the cursor on an entry, [next] followed by [previous] comes
    back to that entry, and so does [previous] followed by [next]: always
    when both are called with [loop], and without [loop] when the first
    step is not taken at the end of the queue it moves towards. *)
Theorem next_previous_round_trip s ci loop :
  0 <= ci < count s ->
  ((loop = true \/ ci < count s - 1) ->
   previous loop (next loop ci s).1 s = (ci, current ci s))
  /\ ((loop = true \/ 0 < ci) ->
      next loop (previous loop ci s).1 s = (ci, current ci s)).
Proof.
  intros Hci. pose proof (getAll_count s) as Hn.
  assert (Hcur : current ci s = nth_item (getAll s) ci).
  { unfold current. destruct (Z.ltb_spec ci 0); [lia|done]. }
  rewrite Hcur. split; intros Hl.
  - unfold next. rewrite Hn.
    destruct (Z.eqb_spec (count s) 0); [lia|].
    destruct (Z.ltb_spec ci (count s - 1)); cbn [fst].
    + unfold previous. rewrite Hn.
      destruct (Z.eqb_spec (count s) 0); [lia|].
      destruct (Z.ltb_spec 0 (ci + 1)); [|lia].
      by replace (ci + 1 - 1) with ci by lia.
    + destruct Hl as [->|?]; [|lia]. cbn [fst].
      unfold previous. rewrite Hn.
      destruct (Z.eqb_spec (count s) 0); [lia|].
      destruct (Z.ltb_spec 0 0); [lia|].
      by replace (count s - 1) with ci by lia.
  - unfold previous. rewrite Hn.
    destruct (Z.eqb_spec (count s) 0); [lia|].
    destruct (Z.ltb_spec 0 ci); cbn [fst].
    + unfold next. rewrite Hn.
      destruct (Z.eqb_spec (count s) 0); [lia|].
      destruct (Z.ltb_spec (ci - 1) (count s - 1)); [|lia].
      by replace (ci - 1 + 1) with ci by lia.
    + destruct Hl as [->|?]; [|lia]. cbn [fst].
      unfold next. rewrite Hn.
      destruct (Z.eqb_spec (count s) 0); [lia|].
      destruct (Z.ltb_spec (count s - 1) (count s - 1)); [lia|].
      by replace ci with 0 by lia.
Qed.

(** X12 at an example: from the last entry, with [loop]. *)
Lemma next_previous_round_trip_witness :
  0 <= 3 < count fourEntries
  /\ previous true (next true 3 fourEntries).1 fourEntries
     = (3, current 3 fourEntries).
Proof.
  assert (Hr : 0 <= 3 < count fourEntries).
  { change (count fourEntries) with 4. lia. }
  split; [exact Hr|].
  apply (proj1 (next_previous_round_trip fourEntries 3 true Hr)). by left.
Defined.

End NavigationFacts.

(** ** Upsert: rejection, batches, filenames, and the index invariant *)

Module BatchUpsertFacts.
Import Playlist PlaylistFacts Roll Examples UpsertFacts.

Lemma upsertItem_cases b md options s :
  upsertItem b md options s
  = match o_id options ≫= (fun i => (fun item => (item, i)) <$> getItem i s) with
    | Some (item, i) =>
        s' <-? updateItem i (upsertUpdate b md options item) s ;;
        Ok (s', {| r_id := i; inserted := false; matchedId := Some i |})
    | None =>
        match matchBy options with
        | Some mb =>
            matched <-? findItemByMetadata (fields mb) (values mb) s ;;
            match matched with
            | Some m =>
                s' <-? updateItem (id m) (upsertUpdate b md options m) s ;;
                Ok (s', {| r_id := id m; inserted := false;
                           matchedId := Some (id m) |})
            | None =>
                Ok ((add b md (o_queueIndex options) s).1,
                    {| r_id := (add b md (o_queueIndex options) s).2;
                       inserted := true; matchedId := None |})
            end
        | None =>
            Ok ((add b md (o_queueIndex options) s).1,
                {| r_id := (add b md (o_queueIndex options) s).2;
                   inserted := true; matchedId := None |})
        end
    end.
Proof.
  unfold upsertItem.
  destruct (o_id options) as [i|]; cbn [mbind option_bind];
    [destruct (getItem i s) as [item|]; cbn [fmap option_fmap option_map]|].
  - done.
  - destruct (matchBy options) as [mb|]; cbn [rbind].
    + destruct (findItemByMetadata _ _ s) as [[m|]|e]; cbn [rbind option_map];
        first [done | by destruct (add _ _ _ _)].
    + by destruct (add _ _ _ _).
  - destruct (matchBy options) as [mb|]; cbn [rbind].
    + destruct (findItemByMetadata _ _ s) as [[m|]|e]; cbn [rbind option_map];
        first [done | by destruct (add _ _ _ _)].
    + by destruct (add _ _ _ _).
Qed.

Lemma Ok_pair_inv {A B} (a a' : A) (b b' : B) :
  Ok (a, b) = Ok (a', b') -> a = a' /\ b = b'.
Proof. by intros [= -> ->]. Qed.

Lemma find_getAll_stored p s m :
  find p (getAll s) = Some m -> is_Some (getItem (id m) s).
Proof.
  intros Hf. apply find_some in Hf as [Hin _].
  apply list_elem_of_In, elem_of_getAll in Hin. by apply getItem_is_Some.
Qed.

Lemma updateItem_count i updates s s' :
  updateItem i updates s = Ok s' -> count s' = count s.
Proof.
  unfold updateItem. destruct (getItem i s) as [item|] eqn:Hg; [|done].
  intros [= <-]. unfold count. rewrite put_rows, length_map; [done|].
  apply getItem_Some in Hg as [Hin <-]. simpl. by apply elem_of_ids.
Qed.

Lemma upsertItem_outcomes b md options s :
  (forall e, upsertItem b md options s = Err e ->
     e = LengthMismatch
     /\ (o_id options ≫= fun i => getItem i s) = None
     /\ exists mb, matchBy options = Some mb
                   /\ List.length (fields mb) <> List.length (values mb))
  /\ ((o_id options ≫= fun i => getItem i s) = None ->
      forall mb, matchBy options = Some mb ->
        List.length (fields mb) <> List.length (values mb) ->
        upsertItem b md options s = Err LengthMismatch)
  /\ (forall s' r, upsertItem b md options s = Ok (s', r) ->
        count s' = count s + (if inserted r then 1 else 0)).
Proof.
  rewrite upsertItem_cases.
  destruct (o_id options) as [i|]; cbn [mbind option_bind];
    [destruct (getItem i s) as [item|] eqn:Hg; cbn [fmap option_fmap option_map]|].
  - destruct (updateItem_Ok i (upsertUpdate b md options item) s item Hg)
      as (Hu & _ & _).
    rewrite Hu. cbn [rbind]. split; [done|]. split; [done|].
    intros s' r [= <- <-]. cbn [inserted].
    rewrite (updateItem_count _ _ _ _ Hu). lia.
  - destruct (matchBy options) as [mb|].
    + unfold findItemByMetadata.
      destruct (Nat.eqb_spec (List.length (fields mb)) (List.length (values mb)))
        as [Hlen|Hlen]; cbn [negb rbind].
      * destruct (find _ _) as [m|] eqn:Hf.
        { destruct (find_getAll_stored _ _ _ Hf) as [stored Hst].
          destruct (updateItem_Ok (id m) (upsertUpdate b md options m) s stored Hst)
            as (Hu & _ & _).
          rewrite Hu. cbn [rbind]. split; [done|]. split.
          - intros _ mb' [= <-] Hne. done.
          - intros s' r [= <- <-]. cbn [inserted].
            rewrite (updateItem_count _ _ _ _ Hu). lia. }
        { split; [done|]. split.
          - intros _ mb' [= <-] Hne. done.
          - intros s' r Heq. apply Ok_pair_inv in Heq as [<- <-].
            cbn [inserted]. rewrite add_count. lia. }
      * split; [|split; [done|done]].
        intros e [= <-]. split; [done|]. split; [done|]. by exists mb.
    + split; [done|]. split; [done|].
      intros s' r Heq. apply Ok_pair_inv in Heq as [<- <-].
            cbn [inserted]. rewrite add_count. lia.
  - destruct (matchBy options) as [mb|].
    + unfold findItemByMetadata.
      destruct (Nat.eqb_spec (List.length (fields mb)) (List.length (values mb)))
        as [Hlen|Hlen]; cbn [negb rbind].
      * destruct (find _ _) as [m|] eqn:Hf.
        { destruct (find_getAll_stored _ _ _ Hf) as [stored Hst].
          destruct (updateItem_Ok (id m) (upsertUpdate b md options m) s stored Hst)
            as (Hu & _ & _).
          rewrite Hu. cbn [rbind]. split; [done|]. split.
          - intros _ mb' [= <-] Hne. done.
          - intros s' r [= <- <-]. cbn [inserted].
            rewrite (updateItem_count _ _ _ _ Hu). lia. }
        { split; [done|]. split.
          - intros _ mb' [= <-] Hne. done.
          - intros s' r Heq. apply Ok_pair_inv in Heq as [<- <-].
            cbn [inserted]. rewrite add_count. lia. }
      * split; [|split; [done|done]].
        intros e [= <-]. split; [done|]. split; [done|]. by exists mb.
    + split; [done|]. split; [done|].
      intros s' r Heq. apply Ok_pair_inv in Heq as [<- <-].
            cbn [inserted]. rewrite add_count. lia.
Qed.



Example upsertItems_example :
  let items :=
    [ {| i_blob := blobOf 5; i_metadata := Some {[ "filename" := JS.VStr "e" ]};
         i_options := None |};
      {| i_blob := blobOf 6; i_metadata := None; i_options := Some lopsided |};
      {| i_blob := blobOf 7; i_metadata := None; i_options := None |} ] in
  (upsertItems items noOptions fourEntries).2 = Err LengthMismatch
  /\ count (upsertItems items noOptions fourEntries).1 = 5.
Proof. split; reflexivity. Qed.

Example upsertItem_rejects_example :
  upsertItem (blobOf 9) ∅ lopsided fourEntries = Err LengthMismatch
  /\ (inserted <$> (match upsertItem (blobOf 9) ∅ idAndPredicate fourEntries with
                    | Ok (_, r) => Some r
                    | Err _ => None
                    end)) = Some false.
Proof. split; reflexivity. Qed.

Lemma upsertItem_inserted b md options s s' r :
  upsertItem b md options s = Ok (s', r) -> inserted r = true ->
  s' = (add b md (o_queueIndex options) s).1.
Proof.
  rewrite upsertItem_cases. intros H Hins.
  destruct (o_id options ≫= _) as [[item i]|].
  - destruct (updateItem i _ s); cbn in H; [|done].
    apply Ok_pair_inv in H as [_ <-]. done.
  - destruct (matchBy options) as [mb|].
    + destruct (findItemByMetadata _ _ s) as [[m|]|e]; cbn in H; [| |done].
      * destruct (updateItem (id m) _ s); cbn in H; [|done].
        apply Ok_pair_inv in H as [_ <-]. done.
      * by apply Ok_pair_inv in H as [<- _].
    + by apply Ok_pair_inv in H as [<- _].
Qed.

Lemma put_same_index item stored s :
  wf s -> stored ∈ rows s -> id item = id stored ->
  queueIndex item = queueIndex stored ->
  wf (put item s) /\ indices (put item s) = indices s /\ count (put item s) = count s.
Proof.
  intros Hwf Hin Hid Hq.
  assert (Hidin : id item ∈ ids s) by (rewrite Hid; by apply elem_of_ids).
  split; [by apply wf_put|]. split.
  - unfold indices. rewrite put_rows by done. rewrite map_map.
    apply map_ext_in. intros r Hr. apply list_elem_of_In in Hr.
    destruct (Z.eqb_spec (id r) (id item)) as [Heq|]; [|done].
    assert (r = stored) as ->; [|done].
    apply (id_inj_in s); [apply Hwf|done|done|lia].
  - unfold count. by rewrite put_rows, length_map.
Qed.



Example upsert_update_with_index_example :
  indices gapNamed = [0; 5; 2; 3].
Proof. reflexivity. Qed.

Lemma matches_filename f md :
  matchesAll ["filename"] [JS.VStr f] md = true <-> JS.get md "filename" = JS.VStr f.
Proof.
  unfold matchesAll, JS.strict_eq. cbn [tl].
  case_bool_decide; split; try done.
Qed.

Lemma upsertByFilename_cases b f md options s :
  o_id options = None ->
  upsertItemByFilename b f md options s
  = match find (fun item => matchesAll ["filename"] [JS.VStr f] (metadata item))
               (getAll s) with
    | Some m =>
        s' <-? updateItem (id m)
                 (upsertUpdate b (<["filename" := JS.VStr f]> md)
                    (byFilename options f) m) s ;;
        Ok (s', {| r_id := id m; inserted := false; matchedId := Some (id m) |})
    | None =>
        Ok ((add b (<["filename" := JS.VStr f]> md) (o_queueIndex options) s).1,
            {| r_id := (add b (<["filename" := JS.VStr f]> md)
                          (o_queueIndex options) s).2;
               inserted := true; matchedId := None |})
    end.
Proof.
  intros Ho. unfold upsertItemByFilename, upsertItem. cbn [o_id matchBy].
  rewrite Ho. unfold findItemByMetadata. cbn [fields values List.length].
  cbn [Nat.eqb negb rbind].
  destruct (find _ _) as [m|]; cbn [option_map rbind]; [done|].
  cbn [o_queueIndex]. by destruct (add _ _ _ _).
Qed.

Lemma filename_set f md : JS.get (<["filename" := JS.VStr f]> md) "filename" = JS.VStr f.
Proof. unfold JS.get. by rewrite lookup_insert_eq. Qed.

Lemma get_union_l (m1 m2 : gmap string JS.value) k v :
  m1 !! k = Some v -> JS.get (m1 ∪ m2) k = v.
Proof. intros H. unfold JS.get. by rewrite (lookup_union_Some_l _ _ _ _ H). Qed.

Lemma updated_filename b f md options m stored :
  hasFilename f
    (updated (upsertUpdate b (<["filename" := JS.VStr f]> md)
                (byFilename options f) m) stored).
Proof.
  unfold hasFilename, updated, upsertUpdate. cbn.
  apply get_union_l. destruct (default true (mergeMetadata options)).
  - apply lookup_union_Some_l. apply lookup_insert_eq.
  - apply lookup_insert_eq.
Qed.

Lemma add_old_rows b md ins s r :
  r ∈ rows (add b md ins s).1 ->
  (exists r0, r0 ∈ rows s /\ id r0 = id r /\ metadata r0 = metadata r
              /\ blob r0 = blob r)
  \/ r = {| id := keyGen s; blob := Some b;
            queueIndex := match ins with
                          | Some i => Z.max 0 (Z.min i (count s))
                          | None => count s
                          end;
            metadata := md |}.
Proof.
  rewrite add_rows. intros Hr. apply elem_of_app in Hr as [Hr|Hr].
  - left. destruct ins as [i|]; [destruct (i <? count s)|].
    + unfold shiftQueueIndices in Hr. cbn [rows] in Hr.
      apply list_elem_of_fmap in Hr as (r0 & -> & Hr0). exists r0.
      split; [done|]. by destruct (i <=? queueIndex r0).
    + by exists r.
    + by exists r.
  - right. by apply list_elem_of_singleton in Hr.
Qed.

Lemma upsertByFilename_step b f md options s :
  wf s -> uniqueFilenames s -> o_id options = None ->
  exists s' r,
    upsertItemByFilename b f md options s = Ok (s', r)
    /\ wf s' /\ uniqueFilenames s'
    /\ (inserted r = false <-> exists a, a ∈ rows s /\ hasFilename f a)
    /\ (inserted r = false ->
        exists a, a ∈ rows s /\ hasFilename f a /\ id a = r_id r)
    /\ (exists item, getItem (r_id r) s' = Some item /\ hasFilename f item)
    /\ (forall a, a ∈ rows s' -> hasFilename f a -> id a = r_id r)
    /\ count s' = count s + (if inserted r then 1 else 0)
    /\ (forall a, a ∈ rows s' -> id a <> r_id r ->
          exists a0, a0 ∈ rows s /\ id a0 = id a /\ metadata a0 = metadata a
                     /\ blob a0 = blob a).
Proof.
  intros Hwf Huniq Ho. rewrite (upsertByFilename_cases b f md options s Ho).
  pose proof (find_first
    (fun item => matchesAll ["filename"] [JS.VStr f] (metadata item))
    (getAll s)) as Hf.
  destruct (find _ _) as [m|].
  - destruct Hf as (k & Hk & Hm & _).
    apply list_elem_of_lookup_2, elem_of_getAll in Hk.
    apply matches_filename in Hm.
    pose proof (getItem_in s m (proj1 Hwf) Hk) as Hg.
    set (updateData := upsertUpdate _ _ _ _).
    destruct (updateItem_Ok (id m) updateData s m Hg) as (Hu & Hget & Hother).
    rewrite Hu. cbn [rbind]. set (m' := updated updateData m) in *.
    assert (Hidm : id m' = id m) by done.
    assert (Hin' : id m' ∈ ids s) by (rewrite Hidm; by apply elem_of_ids).
    assert (Hrows : forall a, a ∈ rows (put m' s) ->
              a = m' \/ (a ∈ rows s /\ id a <> id m)).
    { intros a Ha. rewrite put_rows in Ha by done.
      apply list_elem_of_fmap in Ha as (a0 & -> & Ha0).
      rewrite Hidm. destruct (Z.eqb_spec (id a0) (id m)); [by left|by right]. }
    assert (Hfm' : hasFilename f m') by apply updated_filename.
    eexists _, _. split; [reflexivity|]. cbn [r_id inserted].
    split; [by apply wf_put|]. split; [|split; [|split; [|split; [|split; [|split]]]]].
    + intros g a c Ha Hc Hga Hgc.
      destruct (Hrows a Ha) as [->|[Ha0 Hane]], (Hrows c Hc) as [->|[Hc0 Hcne]].
      * done.
      * exfalso. apply Hcne. unfold hasFilename in *.
        rewrite Hfm' in Hga. injection Hga as <-.
        by apply (Huniq f c m).
      * exfalso. apply Hane. unfold hasFilename in *.
        rewrite Hfm' in Hgc. injection Hgc as <-.
        by apply (Huniq f a m).
      * by apply (Huniq g).
    + split; [|done]. intros _. by exists m.
    + intros _. by exists m.
    + exists m'. by split.
    + intros a Ha Hfa. destruct (Hrows a Ha) as [->|[Ha0 Hane]]; [done|].
      by apply (Huniq f a m).
    + unfold count. rewrite put_rows, length_map by done. lia.
    + intros a Ha Hne. destruct (Hrows a Ha) as [->|[Ha0 _]]; [done|].
      by exists a.
  - set (md' := <["filename" := JS.VStr f]> md).
    assert (Hnone : forall a, a ∈ rows s -> ~ hasFilename f a).
    { intros a Ha Hfa. apply elem_of_getAll in Ha. specialize (Hf a Ha).
      cbn beta in Hf. apply matches_filename in Hfa. congruence. }
    assert (Hkey : (add b md' (o_queueIndex options) s).2 = keyGen s).
    { unfold add; simpl. destruct (o_queueIndex options) as [i|]; [|done].
      by destruct (i <? count s). }
    pose proof (wf_add b md' (o_queueIndex options) s Hwf) as Hwf'.
    eexists _, _. split; [reflexivity|]. cbn [r_id inserted]. rewrite Hkey.
    set (new := {| id := keyGen s; blob := Some b;
                   queueIndex := match o_queueIndex options with
                                 | Some i => Z.max 0 (Z.min i (count s))
                                 | None => count s
                                 end;
                   metadata := md' |}).
    assert (Hfnew : hasFilename f new) by apply filename_set.
    assert (Hold : forall r0, r0 ∈ rows s -> id r0 <> keyGen s).
    { intros r0 Hr0. destruct Hwf as [_ Hlt]. rewrite Forall_forall in Hlt.
      specialize (Hlt r0 Hr0). lia. }
    assert (Hnewin : new ∈ rows (add b md' (o_queueIndex options) s).1).
    { rewrite add_rows. apply elem_of_app. right.
      by apply list_elem_of_singleton. }
    split; [done|]. split; [|split; [|split; [|split; [|split; [|split]]]]].
    + intros g a c Ha Hc Hga Hgc.
      destruct (add_old_rows _ _ _ _ _ Ha) as [(a0 & Ha0 & Hia & Hma & _) | ->],
               (add_old_rows _ _ _ _ _ Hc) as [(c0 & Hc0 & Hic & Hmc & _) | ->].
      * rewrite <- Hia, <- Hic. apply (Huniq g); try done.
        -- unfold hasFilename. by rewrite Hma.
        -- unfold hasFilename. by rewrite Hmc.
      * exfalso. apply (Hnone a0 Ha0). unfold hasFilename in *.
        fold new in Hgc. rewrite Hfnew in Hgc. injection Hgc as <-.
        by rewrite Hma.
      * exfalso. apply (Hnone c0 Hc0). unfold hasFilename in *.
        fold new in Hga. rewrite Hfnew in Hga. injection Hga as <-.
        by rewrite Hmc.
      * done.
    + split; [done|]. intros (a & Ha & Hfa). by destruct (Hnone a Ha).
    + done.
    + exists new. split; [|done].
      change (keyGen s) with (id new). by apply getItem_in; [apply Hwf'|].
    + intros a Ha Hfa.
      destruct (add_old_rows _ _ _ _ _ Ha) as [(a0 & Ha0 & Hia & Hma & _) | ->];
        [|done].
      exfalso. apply (Hnone a0 Ha0). unfold hasFilename in *. by rewrite Hma.
    + apply add_count.
    + intros a Ha Hne.
      destruct (add_old_rows _ _ _ _ _ Ha) as [(a0 & Ha0 & Hia & Hma & Hba) | ->];
        [by exists a0|done].
Qed.


Lemma uniqueFilenames_fourEntries : uniqueFilenames fourEntries.
Proof.
  intros f a c Ha Hc Hfa Hfc.
  assert (Hrows : forall r, r ∈ rows fourEntries ->
            r = {| id := 1; blob := Some (blobOf 1); queueIndex := 0;
                   metadata := {[ "filename" := JS.VStr "a" ]} |}
            \/ r = {| id := 2; blob := Some (blobOf 2); queueIndex := 1;
                      metadata := {[ "filename" := JS.VStr "b" ]} |}
            \/ r = {| id := 3; blob := Some (blobOf 3); queueIndex := 2;
                      metadata := {[ "filename" := JS.VStr "c" ]} |}
            \/ r = {| id := 4; blob := Some (blobOf 4); queueIndex := 3;
                      metadata := ∅ |}).
  { intros r Hr. change (rows fourEntries) with
      [ {| id := 1; blob := Some (blobOf 1); queueIndex := 0;
           metadata := {[ "filename" := JS.VStr "a" ]} |};
        {| id := 2; blob := Some (blobOf 2); queueIndex := 1;
           metadata := {[ "filename" := JS.VStr "b" ]} |};
        {| id := 3; blob := Some (blobOf 3); queueIndex := 2;
           metadata := {[ "filename" := JS.VStr "c" ]} |};
        {| id := 4; blob := Some (blobOf 4); queueIndex := 3;
           metadata := ∅ |} ] in Hr.
    repeat (apply elem_of_cons in Hr as [-> | Hr]; [tauto|]).
    by apply elem_of_nil in Hr. }
  unfold hasFilename in *.
  destruct (Hrows a Ha) as [-> | [-> | [-> | ->]]],
           (Hrows c Hc) as [-> | [-> | [-> | ->]]];
    try reflexivity; vm_compute in Hfa, Hfc; congruence.
Qed.


Example upsertByFilename_example :
  match upsertItemByFilename (blobOf 9) "b" ∅ noOptions fourEntries with
  | Ok (s', r) =>
      r = {| r_id := 2; inserted := false; matchedId := Some 2 |}
      /\ count s' = 4
  | Err _ => False
  end
  /\ match upsertItemByFilename (blobOf 9) "z" ∅ noOptions fourEntries with
     | Ok (s', r) =>
         r = {| r_id := 5; inserted := true; matchedId := None |}
         /\ count s' = 5
     | Err _ => False
     end.
Proof. split; vm_compute; split; reflexivity. Qed.

End BatchUpsertFacts.

(** ** Ordering: comparison, and the index invariant after reconciliation *)

Module CompareFacts.
Import Playlist PlaylistFacts Roll Examples OrderingFacts QueueFacts.

Lemma Sorted_map {A B} (f : A -> B) (R : A -> A -> Prop) (R' : B -> B -> Prop) l :
  (forall a b, R a b -> R' (f a) (f b)) -> Sorted R l -> Sorted R' (map f l).
Proof.
  intros HR. induction 1 as [|x l Hs IH Hhd]; simpl; constructor; [done|].
  destruct Hhd; simpl; constructor; auto.
Qed.

Lemma getCurrentOrdering_getAll s :
  getCurrentOrdering s
  = map (fun item => (id item, queueIndex item)) (getAll s).
Proof.
  unfold getCurrentOrdering. apply sortBy_Sorted_id.
  apply (Sorted_map _ (fun a b => indexOrder a b = true)).
  - intros a b. unfold indexOrder, byIndex. simpl. lia.
  - rewrite getAll_indexGetAll. apply indexGetAll_Sorted.
Qed.

Lemma mapSet_fresh {V} k (v : V) m :
  k ∉ m.*1 -> mapSet k v m = m ++ [(k, v)].
Proof.
  induction m as [|kv m IH]; simpl; intros Hk; [done|].
  apply not_elem_of_cons in Hk as [Hne Hk].
  destruct (Z.eqb_spec (fst kv) k); [done|]. by rewrite IH.
Qed.

Lemma mapOf_NoDup {V} (pairs : list (Z * V)) :
  NoDup pairs.*1 -> mapOf pairs = pairs.
Proof.
  unfold mapOf. induction pairs as [|kv pairs IH] using rev_ind; intros Hnd.
  - done.
  - rewrite fmap_app in Hnd. apply NoDup_app in Hnd as (Hnd & Hdisj & _).
    rewrite foldl_snoc, IH by done. destruct kv as [k v]. simpl.
    apply mapSet_fresh. intros Hin. apply (Hdisj _ Hin). simpl.
    by apply list_elem_of_singleton.
Qed.

Lemma mapGet_map (items : list QueueItem) item :
  NoDup (map id items) -> item ∈ items ->
  mapGet (id item) (map (fun r => (id r, queueIndex r)) items)
  = Some (queueIndex item).
Proof.
  unfold mapGet. induction items as [|r items IH]; intros Hnd Hin.
  - by apply elem_of_nil in Hin.
  - simpl in Hnd. apply NoDup_cons in Hnd as [Hr Hnd]. simpl.
    destruct (Z.eqb_spec (id r) (id item)) as [Heq|Hne].
    + apply elem_of_cons in Hin as [->|Hin]; [done|].
      exfalso. apply Hr. rewrite Heq. apply list_elem_of_fmap. by exists item.
    + apply elem_of_cons in Hin as [->|Hin]; [done|]. by apply IH.
Qed.

Lemma buildOrdering_NoDup entries items :
  NoDup (map id items) -> NoDup (buildOrderingFromEntries entries items).*1.
Proof.
  induction items as [|r items IH]; simpl; intros Hnd; [constructor|].
  apply NoDup_cons in Hnd as [Hr Hnd].
  unfold buildOrderingFromEntries. simpl.
  destruct (resolveOrder entries r); simpl; [|by apply IH].
  apply NoDup_cons. split; [|by apply IH].
  intros Hin. apply Hr. by apply (buildOrdering_keys entries).
Qed.

Lemma omap_omap {A B C} (f : A -> option B) (g : B -> option C) (l : list A) :
  omap g (omap f l) = omap (fun x => f x ≫= g) l.
Proof.
  induction l as [|x l IH]; [done|].
  cbn. destruct (f x) as [y|]; cbn; [|exact IH].
  destruct (g y); [f_equal|]; exact IH.
Qed.

Lemma compareOrdering_differences entries s :
  wf s -> differences (compareOrdering entries s) = omap (differs entries) (getAll s).
Proof.
  intros [Hids _].
  assert (Hnd : NoDup (map id (getAll s))).
  { change (map id (getAll s)) with (id <$> getAll s).
    rewrite getAll_Permutation. exact Hids. }
  unfold compareOrdering. cbn [differences].
  rewrite (mapOf_NoDup (buildOrderingFromEntries _ _))
    by (by apply buildOrdering_NoDup).
  rewrite getCurrentOrdering_getAll.
  rewrite (mapOf_NoDup (map _ _)).
  2: { change (map (fun item => (id item, queueIndex item)) (getAll s)).*1
         with (fst <$> ((fun item => (id item, queueIndex item)) <$> getAll s)).
       rewrite <- list_fmap_compose. exact Hnd. }
  unfold buildOrderingFromEntries. rewrite omap_omap.
  apply omap_ext_in. intros item Hin. unfold differs.
  destruct (resolveOrder entries item) as [o|]; simpl; [|done].
  by rewrite mapGet_map.
Qed.

Lemma compareOrdering_matches entries s :
  wf s ->
  matches (compareOrdering entries s) = true <->
  forall item o, item ∈ rows s -> resolveOrder entries item = Some o ->
                 (inject_Z (queueIndex item) == o)%Q.
Proof.
  intros Hwf.
  assert (Hm : matches (compareOrdering entries s)
               = (List.length (differences (compareOrdering entries s)) =? 0)%nat)
    by done.
  rewrite Hm, compareOrdering_differences by done.
  rewrite Nat.eqb_eq, length_zero_iff_nil. split.
  - intros Hnil item o Hin Ho. apply elem_of_getAll in Hin.
    destruct (Qeq_bool (inject_Z (queueIndex item)) o) eqn:Hq;
      [by apply Qeq_bool_iff|].
    exfalso.
    assert (Hd : differs entries item
                 = Some {| d_id := id item; currentOrder := queueIndex item;
                           desiredOrder := o |}).
    { unfold differs. by rewrite Ho, Hq. }
    assert (Hin' : {| d_id := id item; currentOrder := queueIndex item;
                     desiredOrder := o |} ∈ omap (differs entries) (getAll s)).
    { apply list_elem_of_omap. by exists item. }
    rewrite Hnil in Hin'. by apply elem_of_nil in Hin'.
  - intros Hall. destruct (omap _ _) as [|d ds] eqn:Hom; [done|].
    exfalso.
    assert (Hin : d ∈ omap (differs entries) (getAll s)).
    { rewrite Hom. apply elem_of_cons. by left. }
    apply list_elem_of_omap in Hin as (item & Hin & Hd).
    unfold differs in Hd. destruct (resolveOrder entries item) as [o|] eqn:Ho;
      [|done].
    apply elem_of_getAll in Hin.
    pose proof (Hall item o Hin Ho) as Hq. apply Qeq_bool_iff in Hq.
    by rewrite Hq in Hd.
Qed.

(** X17.  [compareOrdering()] on a store with unique keys: [current] is
    the queue as [getAll()] lists it, as [{id, queueIndex}] pairs (the
    second sort of [getCurrentOrdering] changes nothing); [differences]
    lists, in queue order, the entries that resolve to an order whose
    queueIndex is not that number; and [matches] holds exactly when every
    entry that resolves to an order has that order as its queueIndex.
    The comparison is with the order value itself, not with the rank of
    the entry among the ordered ones. *)
Theorem compareOrdering_spec entries s :
  wf s ->
  c_current (compareOrdering entries s)
  = map (fun item => (id item, queueIndex item)) (getAll s)
  /\ desired (compareOrdering entries s)
     = buildOrderingFromEntries entries (getAll s)
  /\ differences (compareOrdering entries s)
     = omap (differs entries) (getAll s)
  /\ (matches (compareOrdering entries s) = true <->
      forall item o, item ∈ rows s -> resolveOrder entries item = Some o ->
                     (inject_Z (queueIndex item) == o)%Q).
Proof.
  intros Hwf. split; [apply getCurrentOrdering_getAll|]. split; [done|].
  split; [by apply compareOrdering_differences|].
  by apply compareOrdering_matches.
Qed.

(** X17 at an example: "b" is wanted at 0 and "a" at 1, and they are
    stored the other way round. *)
Lemma compareOrdering_spec_witness :
  wf fourEntries
  /\ differences (compareOrdering bThenA fourEntries)
     = omap (differs bThenA) (getAll fourEntries).
Proof.
  split; [apply wf_fourEntries|].
  exact (proj1 (proj2 (proj2 (compareOrdering_spec bThenA fourEntries
                                wf_fourEntries)))).
Defined.

Example compareOrdering_example :
  matches (compareOrdering bThenA fourEntries) = false
  /\ differences (compareOrdering bThenA fourEntries)
     = [ {| d_id := 1; currentOrder := 0; desiredOrder := 1 |};
         {| d_id := 2; currentOrder := 1; desiredOrder := 0 |} ]
  /\ matches (compareOrdering bThenA (updateOrdering bThenA fourEntries).1) = true.
Proof. repeat split; reflexivity. Qed.

Lemma batch_wf updates s :
  wf s -> wf (batchUpdateQueueIndices updates s).1
          /\ ids (batchUpdateQueueIndices updates s).1 = ids s.
Proof.
  intros Hwf. unfold batchUpdateQueueIndices.
  induction updates as [|u updates IH] using rev_ind; [done|].
  rewrite foldl_snoc. destruct IH as [IHwf IHids].
  destruct (getItem (fst u) s) as [item|] eqn:Hg; cbn [fst]; [|done].
  assert (Hin : id (withQueueIndex (snd u) item)
                ∈ ids (foldl (fun acc u0 =>
                   match getItem (fst u0) s with
                   | Some item0 => (put (withQueueIndex (snd u0) item0) (fst acc), snd acc)
                   | None => (fst acc, match snd acc with
                                       | Some e => Some e
                                       | None => Some (NotFound (fst u0))
                                       end)
                   end) (s, None) updates).1).
  { rewrite IHids. simpl. apply getItem_Some in Hg as [? _].
    by apply elem_of_ids. }
  split; [by apply wf_put|]. by rewrite ids_put.
Qed.

Lemma resolved_elem entries items item o :
  (item, o) ∈ resolved entries items <->
  item ∈ items /\ resolveOrder entries item = Some o.
Proof.
  unfold resolved. rewrite list_elem_of_omap. split.
  - intros (x & Hx & Hr). destruct (resolveOrder entries x) eqn:Ho; [|done].
    injection Hr as -> ->. done.
  - intros [Hin Ho]. exists item. by rewrite Ho.
Qed.

Lemma unresolved_elem entries items item :
  item ∈ unresolved entries items -> resolveOrder entries item = None.
Proof.
  unfold unresolved. rewrite list_elem_of_In, filter_In. intros [_ Hn].
  by destruct (resolveOrder entries item).
Qed.

Lemma updateOrdering_final entries s :
  wf s -> resolved entries (getAll s) <> [] ->
  let final := map fst (sortBy byOrder (resolved entries (getAll s)))
               ++ unresolved entries (getAll s) in
  final ≡ₚ rows s
  /\ wf (updateOrdering entries s).1
  /\ ids (updateOrdering entries s).1 = ids s
  /\ forall (i : nat) item,
       final !! i = Some item ->
       getItem (id item) (updateOrdering entries s).1
       = Some (withQueueIndex (Z.of_nat i) item).
Proof.
  intros Hwf Hne final. pose proof Hwf as [Hids _].
  assert (Hfinal : final ≡ₚ rows s).
  { unfold final. rewrite sortBy_Permutation, resolved_unresolved.
    apply getAll_Permutation. }
  assert (Hnd : NoDup (map id (getAll s))).
  { change (map id (getAll s)) with (id <$> getAll s).
    rewrite getAll_Permutation. exact Hids. }
  assert (Hup : (updateOrdering entries s).1
                = (batchUpdateQueueIndices (assignment final) s).1).
  { rewrite updateOrdering_cases.
    rewrite finalOrdering_assignment by done. fold final.
    pose proof (buildOrdering_length entries (getAll s)) as Hlen.
    destruct (buildOrderingFromEntries entries (getAll s)) as [|d ds].
    - destruct (resolved entries (getAll s)); [done|]. simpl in Hlen. lia.
    - by destruct (batchUpdateQueueIndices (assignment final) s). }
  rewrite Hup. split; [done|].
  destruct (batch_wf (assignment final) s Hwf) as [Hwf1 Hids1].
  split; [done|]. split; [done|].
  destruct (batch_lookup (assignment final) s) as [_ Hget].
  - rewrite assignment_keys. change (map id final) with (id <$> final).
    rewrite Hfinal. exact Hids.
  - intros u Hu. unfold assignment in Hu.
    apply elem_of_lookup_imap_1 in Hu as (i & item & -> & Hi). simpl.
    apply getItem_is_Some. rewrite <- Hfinal.
    by eapply list_elem_of_lookup_2.
  - intros i item Hi. destruct (Hget (id item)) as [Hin _].
    rewrite (Hin (Z.of_nat i)).
    + rewrite getItem_in; [done|done|]. rewrite <- Hfinal.
      by eapply list_elem_of_lookup_2.
    + unfold assignment.
      by apply (elem_of_lookup_imap_2 (fun i item => (id item, Z.of_nat i))).
Qed.

(** X18.  Right after an [updateOrdering()] that found at least one match,
    [compareOrdering()] reports a match exactly when the orders of the
    matched entries, sorted, are 0, 1, 2, ...: the reconciliation assigns
    ranks, the comparison expects the order values.  With orders such as
    10 and 20 the two never agree. *)
Theorem compare_after_update entries s :
  wf s -> resolved entries (getAll s) <> [] ->
  matches (compareOrdering entries (updateOrdering entries s).1) = true <->
  forall (i : nat) io,
    sortBy byOrder (resolved entries (getAll s)) !! i = Some io ->
    (inject_Z (Z.of_nat i) == snd io)%Q.
Proof.
  intros Hwf Hne.
  destruct (updateOrdering_final entries s Hwf Hne) as (Hfinal & Hwf1 & Hids1 & Hget).
  set (sorted := sortBy byOrder (resolved entries (getAll s))) in *.
  set (final := map fst sorted ++ unresolved entries (getAll s)) in *.
  rewrite (compareOrdering_matches entries _ Hwf1).
  assert (Hsorted : forall (i : nat) io, sorted !! i = Some io ->
            final !! i = Some (fst io)
            /\ resolveOrder entries (fst io) = Some (snd io)).
  { intros i io Hi. split.
    - unfold final. rewrite lookup_app_l.
      + change (map fst sorted) with (fst <$> sorted).
        by rewrite list_lookup_fmap, Hi.
      + rewrite length_map. by eapply lookup_lt_Some.
    - assert (Hin : io ∈ resolved entries (getAll s)).
      { rewrite <- (sortBy_Permutation byOrder). by eapply list_elem_of_lookup_2. }
      destruct io as [item o]. by apply resolved_elem in Hin as [_ ?]. }
  split.
  - intros Hall i io Hi. destruct (Hsorted i io Hi) as [Hf Hr].
    pose proof (Hget i (fst io) Hf) as Hg.
    apply getItem_Some in Hg as [Hin _].
    exact (Hall _ (snd io) Hin Hr).
  - intros Hall r1 o Hr1 Ho.
    assert (Hid : id r1 ∈ ids s) by (rewrite <- Hids1; by apply elem_of_ids).
    unfold ids in Hid. apply list_elem_of_fmap in Hid as (item & Hid & Hitem).
    rewrite <- Hfinal in Hitem. apply list_elem_of_lookup_1 in Hitem as [i Hi].
    pose proof (Hget i item Hi) as Hg. rewrite <- Hid in Hg.
    rewrite (getItem_in _ r1 (proj1 Hwf1) Hr1) in Hg. injection Hg as ->.
    change (resolveOrder entries (withQueueIndex (Z.of_nat i) item))
      with (resolveOrder entries item) in Ho.
    cbn [queueIndex withQueueIndex].
    destruct (decide (i < List.length sorted)%nat) as [Hlt|Hge].
    + destruct (lookup_lt_is_Some_2 sorted i Hlt) as [io Hio].
      destruct (Hsorted i io Hio) as [Hf Hr].
      rewrite Hi in Hf. injection Hf as ->. rewrite Hr in Ho. injection Ho as <-.
      by apply Hall.
    + unfold final in Hi. rewrite lookup_app_r in Hi by (rewrite length_map; lia).
      apply list_elem_of_lookup_2, unresolved_elem in Hi. congruence.
Qed.

Lemma resolved_tens : resolved tens (getAll fourEntries) <> [].
Proof. intros H. apply (f_equal List.length) in H. vm_compute in H. discriminate. Qed.

(** X18 at an example: orders 10 and 20. *)
Lemma compare_after_update_witness :
  wf fourEntries
  /\ resolved tens (getAll fourEntries) <> []
  /\ (matches (compareOrdering tens (updateOrdering tens fourEntries).1) = true <->
      forall (i : nat) io,
        sortBy byOrder (resolved tens (getAll fourEntries)) !! i = Some io ->
        (inject_Z (Z.of_nat i) == snd io)%Q).
Proof.
  split; [apply wf_fourEntries|]. split; [apply resolved_tens|].
  exact (compare_after_update tens fourEntries wf_fourEntries resolved_tens).
Defined.

Example compare_after_update_example :
  (updateOrdering tens fourEntries).2 = Ok 2%nat
  /\ map (fun r => (id r, queueIndex r)) (getAll (updateOrdering tens fourEntries).1)
     = [(1, 0); (2, 1); (3, 2); (4, 3)]
  /\ matches (compareOrdering tens (updateOrdering tens fourEntries).1) = false.
Proof. repeat split; reflexivity. Qed.

(** X19.  An [updateOrdering()] that finds at least one match, on any store
    with unique keys, leaves a store that satisfies the index invariant:
    the positions are pairwise distinct and fill [0, count), whatever
    gaps or duplicates there were before.  No entry is created or
    deleted. *)
Theorem updateOrdering_restores_contiguity entries s :
  wf s -> resolved entries (getAll s) <> [] ->
  wf (updateOrdering entries s).1
  /\ contiguous (updateOrdering entries s).1
  /\ ids (updateOrdering entries s).1 = ids s
  /\ count (updateOrdering entries s).1 = count s.
Proof.
  intros Hwf Hne.
  destruct (updateOrdering_final entries s Hwf Hne) as (Hfinal & Hwf1 & Hids1 & Hget).
  set (s1 := (updateOrdering entries s).1) in *.
  set (final := map fst (sortBy byOrder (resolved entries (getAll s)))
                ++ unresolved entries (getAll s)) in *.
  assert (Hcount : count s1 = count s).
  { unfold count. f_equal. rewrite <- (length_map id (rows s1)),
      <- (length_map id (rows s)). fold (ids s1) (ids s). by rewrite Hids1. }
  assert (Hrow : forall r1, r1 ∈ rows s1 ->
            exists (i : nat) item, final !! i = Some item
                                   /\ r1 = withQueueIndex (Z.of_nat i) item).
  { intros r1 Hr1.
    assert (Hid : id r1 ∈ ids s) by (rewrite <- Hids1; by apply elem_of_ids).
    unfold ids in Hid. apply list_elem_of_fmap in Hid as (item & Hid & Hitem).
    rewrite <- Hfinal in Hitem. apply list_elem_of_lookup_1 in Hitem as [i Hi].
    exists i, item. split; [done|].
    pose proof (Hget i item Hi) as Hg. rewrite <- Hid in Hg.
    rewrite (getItem_in _ r1 (proj1 Hwf1) Hr1) in Hg. by injection Hg. }
  assert (Hnd : NoDup final).
  { rewrite Hfinal. apply NoDup_rows, Hwf. }
  split; [done|]. split; [|by split].
  split.
  - unfold indices. apply NoDup_fmap_2_strong; [|apply NoDup_rows, Hwf1].
    intros a b Ha Hb Hq.
    destruct (Hrow a Ha) as (i & x & Hi & ->).
    destruct (Hrow b Hb) as (j & y & Hj & ->).
    cbn in Hq. assert (i = j) as -> by lia. congruence.
  - apply Forall_forall. intros q Hq. unfold indices in Hq.
    apply list_elem_of_fmap in Hq as (r1 & -> & Hr1).
    destruct (Hrow r1 Hr1) as (i & x & Hi & ->). cbn.
    apply lookup_lt_Some in Hi. rewrite Hcount. unfold count.
    rewrite <- (Permutation_length Hfinal). lia.
Qed.

Lemma wf_gapNamed : wf gapNamed.
Proof.
  split.
  - change (ids gapNamed) with [1; 2; 3; 4].
    repeat (apply NoDup_cons; split;
            [rewrite ?elem_of_cons, elem_of_nil; intuition discriminate|]).
    apply NoDup_nil; done.
  - apply Forall_forall. intros r Hr.
    change (keyGen gapNamed) with 5.
    apply elem_of_ids in Hr. change (ids gapNamed) with [1; 2; 3; 4] in Hr.
    rewrite ?elem_of_cons, elem_of_nil in Hr. lia.
Qed.

Lemma resolved_gapNamed : resolved bThenA (getAll gapNamed) <> [].
Proof. intros H. apply (f_equal List.length) in H. vm_compute in H. discriminate. Qed.

(** X19 at an example: positions 0, 5, 2, 3 become 0, 1, 2, 3. *)
Lemma updateOrdering_restores_contiguity_witness :
  wf gapNamed
  /\ resolved bThenA (getAll gapNamed) <> []
  /\ contiguous (updateOrdering bThenA gapNamed).1.
Proof.
  split; [apply wf_gapNamed|]. split; [apply resolved_gapNamed|].
  exact (proj1 (proj2 (updateOrdering_restores_contiguity bThenA gapNamed
                         wf_gapNamed resolved_gapNamed))).
Defined.

Example updateOrdering_gap_example :
  indices gapNamed = [0; 5; 2; 3]
  /\ map (fun r => (id r, queueIndex r)) (getAll (updateOrdering bThenA gapNamed).1)
     = [(2, 0); (1, 1); (3, 2); (4, 3)].
Proof. split; reflexivity. Qed.

End CompareFacts.

(** ** The scheduler: end of stream, attaching and detaching, restarting,
       and the segments it hands over *)

Module PlaybackFacts.
Import Playlist PlaylistFacts Roll Examples SchedulerFacts.

Lemma streamEnds_app e1 e2 :
  streamEnds (e1 ++ e2) = (streamEnds e1 + streamEnds e2)%nat.
Proof. unfold streamEnds. by rewrite List.filter_app, length_app. Qed.

Lemma streamEndCheck_cases video hasMore st :
  streamEndCheck video hasMore st
  = if onStreamEndCallback st && negb hasMore && atBufferedEnd video
    then [StreamEnd] else [].
Proof.
  unfold streamEndCheck, atBufferedEnd.
  destruct (onStreamEndCallback st && negb hasMore); [|done].
  by destruct (_ && _).
Qed.

Lemma applyPendingTrim_keeps video st :
  streamEnds (applyPendingTrim video st).2 = 0%nat
  /\ onStreamEndCallback (applyPendingTrim video st).1 = onStreamEndCallback st
  /\ onRollEndCallback (applyPendingTrim video st).1 = onRollEndCallback st
  /\ bufferedQueueIndex (applyPendingTrim video st).1 = bufferedQueueIndex st
  /\ attached (applyPendingTrim video st).1 = attached st.
Proof.
  unfold applyPendingTrim. destruct (pendingTrimBoundary st) as [boundary|]; [|done].
  by destruct (Qle_bool boundary (currentTime video)).
Qed.

Lemma queueNextSegment_streamEnds video s st :
  streamEnds (queueNextSegment video s st).2 = 0%nat
  /\ onStreamEndCallback (queueNextSegment video s st).1 = onStreamEndCallback st.
Proof.
  unfold queueNextSegment.
  destruct (attached st); cbn [negb]; [|done].
  destruct (nextSegmentScheduled st); [done|].
  destruct (List.length (getAll s) =? 0)%nat; [done|].
  destruct (getAll s !! _) as [item|]; [|done].
  destruct (blob item ≫= content) as [bytes|]; [|done].
  cbn [fst snd onStreamEndCallback]. split; [|done].
  unfold streamEnds. cbn. by destruct (_ && _).
Qed.

Lemma onTimeUpdate_streamEnds video s st :
  attached st = true ->
  streamEnds (onTimeUpdate video s st).2
  = (if onStreamEndCallback st && negb (hasMoreSegments s st)
        && atBufferedEnd video then 1 else 0)%nat
  /\ onStreamEndCallback (onTimeUpdate video s st).1 = onStreamEndCallback st
  /\ (hasMoreSegments s st = false ->
      deliveries (onTimeUpdate video s st).2 = 0%nat
      /\ attached (onTimeUpdate video s st).1 = true
      /\ hasMoreSegments s (onTimeUpdate video s st).1 = false).
Proof.
  intros Hatt. unfold onTimeUpdate. rewrite Hatt. cbn [negb].
  destruct (applyPendingTrim_keeps video st) as (Hse & Hscb & Hrcb & Hcur & Ha).
  pose proof (applyPendingTrim_spec video st) as (_ & _ & _ & _ & _ & Hdel & _).
  destruct (applyPendingTrim video st) as [st1 trimmed]. cbn [fst snd] in *.
  rewrite (hasMore_cursor s st st1 Hrcb Hcur).
  set (st2 := withTotalItems _ st1).
  rewrite (streamEndCheck_cases video _ st2).
  change (onStreamEndCallback st2) with (onStreamEndCallback st1). rewrite Hscb.
  destruct (hasMoreSegments s st) eqn:Hmore; cbn [negb].
  - rewrite andb_false_r. cbn [andb].
    destruct (negb (nextSegmentScheduled st2) && shouldQueueNextVideo video st2).
    + destruct (queueNextSegment_streamEnds video s st2) as [Hq Hqcb].
      destruct (queueNextSegment video s st2) as [st3 queued]. cbn [fst snd] in *.
      rewrite !streamEnds_app, Hse, Hq. split; [reflexivity|]. split; [|done].
      rewrite Hqcb. exact Hscb.
    + cbn [fst snd]. rewrite !streamEnds_app, Hse. split; [reflexivity|].
      split; [exact Hscb|done].
  - cbn [fst snd]. rewrite andb_true_r. rewrite streamEnds_app, Hse.
    split; [destruct (_ && _); reflexivity|]. split; [exact Hscb|]. intros _.
    rewrite deliveries_app, Hdel. split; [destruct (_ && _); reflexivity|].
    split; [change (attached st1 = true); congruence|].
    rewrite <- Hmore. apply hasMore_cursor; [exact Hrcb|exact Hcur].
Qed.



Example stream_end_example :
  (onTimeUpdate atEnd fourEntries passDone).2 = [StreamEnd]
  /\ (ticks [atEnd; nearEnd; atEnd; atEnd] fourEntries passDone).2
     = [StreamEnd; StreamEnd; StreamEnd]
  /\ streamEnds (ticks [atEnd; atEnd] fourEntries
                   (setOnRollEnd false passDone)).2 = 0%nat
  /\ deliveries (ticks [atEnd; atEnd] fourEntries
                   (setOnRollEnd false passDone)).2 = 2%nat.
Proof. repeat split; reflexivity. Qed.

Lemma ticks_detached videos s st :
  attached st = false -> ticks videos s st = (st, []).
Proof.
  intros Hatt. induction videos as [|v videos IH]; [done|].
  cbn [ticks]. unfold onTimeUpdate. rewrite Hatt. cbn [negb].
  by rewrite IH.
Qed.

Lemma ticks_counts videos s st :
  attached st = true ->
  attached (ticks videos s st).1 = true
  /\ onRollEndCallback (ticks videos s st).1 = onRollEndCallback st
  /\ bufferedQueueIndex (ticks videos s st).1
     = (bufferedQueueIndex st + deliveries (ticks videos s st).2)%nat.
Proof.
  revert st. induction videos as [|v videos IH]; intros st Hatt.
  - simpl. split; [done|]. split; [done|]. unfold deliveries. simpl. lia.
  - cbn [ticks].
    pose proof (onTimeUpdate_counts v s st Hatt) as (Ha & Hc & _ & Hi & _).
    destruct (onTimeUpdate v s st) as [st1 e1]. cbn [fst snd] in *.
    destruct (IH st1 Ha) as (Ha2 & Hc2 & Hi2).
    destruct (ticks videos s st1) as [st2 e2]. cbn [fst snd] in *.
    split; [done|]. split; [congruence|]. rewrite deliveries_app. lia.
Qed.

Lemma ticks_empty videos s st :
  rows s = [] -> attached st = true -> deliveries (ticks videos s st).2 = 0%nat.
Proof.
  intros Hrows. revert st. induction videos as [|v videos IH]; intros st Hatt; [done|].
  cbn [ticks].
  pose proof (onTimeUpdate_counts v s st Hatt) as (Ha & _ & _ & _ & Hle & _ & Hmore).
  destruct (onTimeUpdate v s st) as [st1 e1]. cbn [fst snd] in *.
  specialize (IH st1 Ha).
  destruct (ticks videos s st1) as [st2 e2]. cbn [fst snd] in *.
  rewrite deliveries_app, IH.
  destruct (decide (deliveries e1 = 1%nat)) as [H1|H1]; [|lia].
  specialize (Hmore H1). by apply hasMore_nonempty in Hmore.
Qed.

(** X21.  [attachBuffer] starts from scratch: the scheduler is attached,
    the threshold is the one given or else the one it had, and the
    outcome depends on nothing else of the scheduler's state than its
    callbacks and threshold.  On an empty queue nothing is delivered,
    then or on any later tick.  Otherwise the entry at position 0 is
    delivered at once when its blob can be read (with the end-of-roll
    callback when it is the only entry), the cursor is 1, and the gate is
    set, with the buffered end as the boundary to wait for, exactly when
    something is buffered; when its blob cannot be read nothing is
    delivered and the gate is clear.  After [detachBuffer] every tick is
    ignored. *)
Theorem attach_restarts thresholdSeconds video s st :
  let r := attachBuffer thresholdSeconds video s st in
  attached r.1 = true
  /\ bufferThresholdSeconds r.1
     = default (bufferThresholdSeconds st) thresholdSeconds
  /\ (forall st',
        onRollEndCallback st' = onRollEndCallback st ->
        onStreamEndCallback st' = onStreamEndCallback st ->
        bufferThresholdSeconds st' = bufferThresholdSeconds st ->
        attachBuffer thresholdSeconds video s st' = r)
  /\ (rows s = [] ->
      r.2 = [] /\ bufferedQueueIndex r.1 = 0%nat
      /\ forall videos, deliveries (ticks videos s r.1).2 = 0%nat)
  /\ (forall item,
        getAll s !! 0%nat = Some item ->
        match blob item ≫= content with
        | Some bytes =>
            r.2 = BufferEnqueue (createSegmentFromItem item bytes)
                  :: (if onRollEndCallback st
                         && (List.length (rows s) =? 1)%nat
                      then [RollEnd] else [])
            /\ bufferedQueueIndex r.1 = 1%nat
            /\ nextSegmentScheduled r.1 = negb (Qle_bool (getBufferedEnd video) 0)
            /\ pendingTrimBoundary r.1
               = (if Qle_bool (getBufferedEnd video) 0 then None
                  else Some (getBufferedEnd video))
        | None =>
            r.2 = [] /\ bufferedQueueIndex r.1 = 0%nat
            /\ nextSegmentScheduled r.1 = false
        end)
  /\ (forall videos,
        ticks videos s (detachBuffer r.1) = (detachBuffer r.1, [])).
Proof.
  intros r.
  assert (Hdetach : forall videos,
            ticks videos s (detachBuffer r.1) = (detachBuffer r.1, []))
    by (intros videos; by apply ticks_detached).
  revert Hdetach. unfold r, attachBuffer. intros Hdetach.
  set (st1 := {| attached := true; bufferedQueueIndex := 0%nat |}).
  assert (Hlen : totalItems st1 = List.length (rows s)).
  { unfold st1. cbn. unfold Playlist.length, count. by rewrite Nat2Z.id. }
  assert (Hq : queueNextSegment video s st1
               = match getAll s !! 0%nat with
                 | Some item =>
                     match blob item ≫= content with
                     | Some bytes =>
                         ({| attached := true;
                             bufferThresholdSeconds :=
                               default (bufferThresholdSeconds st) thresholdSeconds;
                             bufferedQueueIndex := 1;
                             totalItems := List.length (getAll s);
                             pendingTrimBoundary :=
                               if negb (Qle_bool (getBufferedEnd video) 0)
                               then Some (getBufferedEnd video) else None;
                             nextSegmentScheduled :=
                               negb (Qle_bool (getBufferedEnd video) 0);
                             onRollEndCallback := onRollEndCallback st;
                             onStreamEndCallback := onStreamEndCallback st |},
                          BufferEnqueue (createSegmentFromItem item bytes)
                          :: (if onRollEndCallback st
                                 && (1 mod List.length (getAll s) =? 0)%nat
                              then [RollEnd] else []))
                     | None =>
                         (withScheduled false
                            (withTotalItems (List.length (getAll s))
                               (withScheduled true st1)), [])
                     end
                 | None =>
                     (withScheduled false
                        (withTotalItems (List.length (getAll s))
                           (withScheduled true st1)), [])
                 end).
  { unfold queueNextSegment. cbn [attached nextSegmentScheduled st1 negb].
    destruct (List.length (getAll s) =? 0)%nat eqn:Hn.
    - apply Nat.eqb_eq, length_zero_iff_nil in Hn. by rewrite Hn.
    - cbn [bufferedQueueIndex withTotalItems withScheduled].
      rewrite Nat.Div0.mod_0_l.
      destruct (getAll s !! 0%nat) as [item|]; [|done].
      destruct (blob item ≫= content) as [bytes|]; [|done].
      cbn. by rewrite !andb_true_r. }
  split.
  { destruct (totalItems st1 =? 0)%nat; [done|]. rewrite Hq.
    destruct (getAll s !! 0%nat) as [item|]; [|done].
    by destruct (blob item ≫= content). }
  split.
  { destruct (totalItems st1 =? 0)%nat; [done|]. rewrite Hq.
    destruct (getAll s !! 0%nat) as [item|]; [|done].
    by destruct (blob item ≫= content). }
  split.
  { intros st' Hr Hs Ht. unfold detachBuffer. cbn. by rewrite Hr, Hs, Ht. }
  split.
  { intros Hrows. rewrite Hlen, Hrows. cbn [List.length Nat.eqb fst snd].
    split; [done|]. split; [done|]. intros videos. by apply ticks_empty. }
  split; [|exact Hdetach].
  intros item Hitem.
  assert (Hne : (totalItems st1 =? 0)%nat = false).
  { rewrite Hlen, <- length_getAll. apply Nat.eqb_neq.
    apply lookup_lt_Some in Hitem. lia. }
  rewrite Hne, Hq, Hitem.
  destruct (blob item ≫= content) as [bytes|]; cbn [fst snd]; [|done].
  cbn. split; [|by destruct (Qle_bool _ _)].
  rewrite length_getAll. do 2 f_equal.
  destruct (List.length (rows s)) as [|[|n]] eqn:Hl; try done.
  rewrite Nat.mod_small by lia. done.
Qed.

Example attach_example :
  (attachBuffer (Some 2%Q) nearEnd fourEntries waitingForTrim).2
  = [BufferEnqueue (createSegmentFromItem
                      {| id := 1; blob := Some (blobOf 1); queueIndex := 0;
                         metadata := {[ "filename" := JS.VStr "a" ]} |}
                      (repeat Byte.x00 1))]
  /\ pendingTrimBoundary
       (attachBuffer (Some 2%Q) nearEnd fourEntries waitingForTrim).1
     = Some 10%Q
  /\ (attachBuffer None nearEnd emptyStore initial).2 = [].
Proof. repeat split; reflexivity. Qed.

(** X22.  [resetQueueIndex()] on an attached scheduler, over a non-empty
    queue that does not change: there is again a segment to deliver and
    the gate is clear, and the ticks that follow behave as a first pass:
    the cursor counts their deliveries; with an end-of-roll callback at
    most [count] segments are delivered, the callback has run once
    exactly when [count] were, and delivery has stopped exactly then;
    without one the callback never runs and delivery does not stop. *)
Theorem reset_restarts videos s st :
  rows s <> [] -> attached st = true ->
  let k := List.length (rows s) in
  let r := ticks videos s (resetQueueIndex st) in
  hasMoreSegments s (resetQueueIndex st) = true
  /\ nextSegmentScheduled (resetQueueIndex st) = false
  /\ bufferedQueueIndex r.1 = deliveries r.2
  /\ (onRollEndCallback st = true ->
      (bufferedQueueIndex r.1 <= k)%nat
      /\ rollEnds r.2 = (if (bufferedQueueIndex r.1 =? k)%nat then 1 else 0)%nat
      /\ hasMoreSegments s r.1 = negb (bufferedQueueIndex r.1 =? k)%nat)
  /\ (onRollEndCallback st = false ->
      rollEnds r.2 = 0%nat /\ hasMoreSegments s r.1 = true).
Proof.
  intros Hrows Hatt k r.
  assert (Hk : (0 < k)%nat).
  { unfold k. destruct (rows s); [done|simpl; lia]. }
  assert (Hinv : sessionInv s (resetQueueIndex st) []).
  { unfold sessionInv. cbn. split; [done|]. split; [done|]. split; [|done].
    intros _. split; [lia|]. unfold k in Hk. by destruct (List.length (rows s)); [lia|]. }
  destruct (sessionInv_ticks videos s _ [] Hrows Hinv) as [Hinv' Hcb].
  fold r in Hinv', Hcb. cbn [app] in Hinv'.
  destruct Hinv' as (Hatt' & Hcur & Hyes & Hno).
  change (onRollEndCallback (resetQueueIndex st)) with (onRollEndCallback st) in Hcb.
  split.
  { destruct (onRollEndCallback st) eqn:Hc.
    - rewrite (hasMore_callback s _ Hrows) by done.
      change (bufferedQueueIndex (resetQueueIndex st)) with 0%nat.
      by apply Nat.ltb_lt.
    - by apply hasMore_looping. }
  split; [done|]. split; [done|]. split.
  - intros Hcbt. rewrite Hcbt in Hcb. destruct (Hyes Hcb) as [Hle Hre].
    fold k in Hle, Hre. split; [done|]. split; [done|].
    rewrite (hasMore_callback s r.1 Hrows Hcb). fold k.
    destruct (Nat.eqb_spec (bufferedQueueIndex r.1) k),
             (Nat.ltb_spec (bufferedQueueIndex r.1) k); simpl; try done; lia.
  - intros Hcbf. rewrite Hcbf in Hcb. split; [by apply Hno|].
    by apply hasMore_looping.
Qed.

(** X22 at an example: a second pass after the first is done. *)
Lemma reset_restarts_witness :
  rows fourEntries <> [] /\ attached passDone = true
  /\ hasMoreSegments fourEntries passDone = false
  /\ hasMoreSegments fourEntries (resetQueueIndex passDone) = true.
Proof.
  split; [apply fourEntries_nonempty|]. split; [reflexivity|].
  split; [reflexivity|].
  exact (proj1 (reset_restarts [] fourEntries passDone fourEntries_nonempty
                  eq_refl)).
Defined.

Example reset_example :
  let r := ticks (repeat (caughtUp 5) 9) fourEntries (resetQueueIndex passDone) in
  deliveries r.2 = 4%nat /\ rollEnds r.2 = 1%nat
  /\ hasMoreSegments fourEntries r.1 = false.
Proof. repeat split; reflexivity. Qed.

Lemma enqueued_app e1 e2 : enqueued (e1 ++ e2) = enqueued e1 ++ enqueued e2.
Proof. apply omap_app. Qed.

Lemma queueNextSegment_enqueued video s st :
  Forall (fromRow s) (enqueued (queueNextSegment video s st).2).
Proof.
  unfold queueNextSegment.
  destruct (attached st); cbn [negb]; [|constructor].
  destruct (nextSegmentScheduled st); [constructor|].
  destruct (List.length (getAll s) =? 0)%nat; [constructor|].
  destruct (getAll s !! _) as [item|] eqn:Hitem; [|constructor].
  destruct (blob item ≫= content) as [bytes|] eqn:Hbytes; [|constructor].
  cbn [fst snd].
  assert (Hfrom : fromRow s (createSegmentFromItem item bytes)).
  { exists item, bytes. split; [|done].
    by apply list_elem_of_lookup_2, elem_of_getAll in Hitem. }
  destruct (_ && _); cbn; by repeat constructor.
Qed.

Lemma onTimeUpdate_enqueued video s st :
  Forall (fromRow s) (enqueued (onTimeUpdate video s st).2).
Proof.
  unfold onTimeUpdate. destruct (attached st); cbn [negb]; [|constructor].
  assert (Htrim : enqueued (applyPendingTrim video st).2 = []).
  { unfold applyPendingTrim. destruct (pendingTrimBoundary st) as [b|]; [|done].
    by destruct (Qle_bool b (currentTime video)). }
  destruct (applyPendingTrim video st) as [st1 trimmed]. cbn [snd] in Htrim.
  set (st2 := withTotalItems _ st1).
  assert (Hend : forall hasMore, enqueued (streamEndCheck video hasMore st2) = []).
  { intros hasMore. unfold streamEndCheck.
    destruct (_ && _); [|done]. by destruct (_ && _). }
  destruct (negb (hasMoreSegments s st1)); cbn [snd].
  { rewrite enqueued_app, Htrim, Hend. constructor. }
  destruct (_ && _).
  - pose proof (queueNextSegment_enqueued video s st2) as Hq.
    destruct (queueNextSegment video s st2) as [st3 queued]. cbn [snd] in *.
    by rewrite !enqueued_app, Htrim, Hend.
  - cbn [snd]. rewrite enqueued_app, Htrim, Hend. constructor.
Qed.

Lemma ticks_enqueued videos s st :
  Forall (fromRow s) (enqueued (ticks videos s st).2).
Proof.
  revert st. induction videos as [|v videos IH]; intros st; [constructor|].
  cbn [ticks]. pose proof (onTimeUpdate_enqueued v s st) as H1.
  destruct (onTimeUpdate v s st) as [st1 e1].
  specialize (IH st1). destruct (ticks videos s st1) as [st2 e2].
  cbn [snd] in *. rewrite enqueued_app. by apply Forall_app.
Qed.

(** X23.  Every segment the scheduler hands to the sink, at attach or on a
    tick, is built by [createSegmentFromItem] from a stored entry whose
    blob could be read.  Such a segment carries the bytes of the blob and
    a variant without init payload, so [enqueue] on the adapter queues
    exactly one entry for it, a data entry, and flushes: the scheduler
    never makes the adapter queue an init payload. *)
Theorem scheduler_segments thresholdSeconds video0 videos s st :
  Forall (fromRow s) (enqueued (session thresholdSeconds video0 videos s st).2)
  /\ (forall item bytes,
        let segment := createSegmentFromItem item bytes in
        PlayoutBuffer.data segment = Some bytes
        /\ PlayoutBuffer.entriesOf segment
           = [PlayoutBuffer.dataEntry segment bytes]
        /\ forall (SourceBuffer : Type) updating appendBuffer sbRemove
                  (sink : PlayoutBuffer.State SourceBuffer),
             PlayoutBuffer.enqueue updating appendBuffer sbRemove segment sink
             = PlayoutBuffer.flush updating appendBuffer sbRemove
                 (PlayoutBuffer.withQueue
                    (PlayoutBuffer.queue sink
                     ++ [PlayoutBuffer.dataEntry segment bytes]) sink)).
Proof.
  split.
  - unfold session.
    assert (Hatt : Forall (fromRow s)
                     (enqueued (attachBuffer thresholdSeconds video0 s st).2)).
    { unfold attachBuffer. destruct (_ =? _)%nat; [constructor|].
      apply queueNextSegment_enqueued. }
    destruct (attachBuffer thresholdSeconds video0 s st) as [st1 e1].
    pose proof (ticks_enqueued videos s st1) as Ht.
    destruct (ticks videos s st1) as [st2 e2]. cbn [snd] in *.
    rewrite enqueued_app. by apply Forall_app.
  - intros item bytes segment. split; [done|]. split; [done|].
    intros SourceBuffer updating appendBuffer sbRemove sink.
    unfold PlayoutBuffer.enqueue. cbn.
    unfold PlayoutBuffer.withQueue. cbn. by rewrite app_nil_r.
Qed.

End PlaybackFacts.

(** ** The adapter: before the source opens, while it is busy, after close *)

Module AdapterFacts.
Import PlayoutBuffer Examples SinkFacts.

Section AnyAdapter.
Context {SourceBuffer : Type}.
Context (updating : SourceBuffer -> bool).
Context (appendBuffer : ArrayBuffer -> SourceBuffer -> option SourceBuffer).
Context (sbRemove : JS.num -> JS.num -> SourceBuffer -> option SourceBuffer).

#[local] Abbreviation State := (State SourceBuffer).
#[local] Abbreviation drain := (drain updating appendBuffer).
#[local] Abbreviation flushAppends := (flushAppends updating appendBuffer).
#[local] Abbreviation flush := (flush updating appendBuffer sbRemove).
#[local] Abbreviation enqueue := (enqueue updating appendBuffer sbRemove).
#[local] Abbreviation trim := (trim updating appendBuffer sbRemove).
#[local] Abbreviation call := (call updating appendBuffer sbRemove).
#[local] Abbreviation calls := (calls updating appendBuffer sbRemove).
#[local] Abbreviation handleSourceOpen :=
  (handleSourceOpen updating appendBuffer sbRemove).
#[local] Abbreviation ready := (ready updating).

Lemma flush_not_ready (st : State) : ready st = false -> flush st = (st, []).
Proof.
  unfold PlayoutBuffer.ready, PlayoutBuffer.flush. destruct (source st) as [sb|]; [|done].
  by destruct (updating sb).
Qed.

Lemma call_not_ready c (st : State) :
  ready st = false ->
  (call c st).2 = []
  /\ source (call c st).1 = source st
  /\ lastSegmentId (call c st).1 = lastSegmentId st
  /\ queue (call c st).1 = queue st ++ queuedBy [c].
Proof.
  intros Hr. destruct c as [segment|start_ end'|]; cbn [PlayoutBuffer.call].
  - unfold PlayoutBuffer.enqueue, queuedBy, entriesOf. cbn [flat_map].
    rewrite app_nil_r.
    destruct (data segment) as [d|].
    + rewrite flush_not_ready by done. cbn. by rewrite <- app_assoc.
    + cbn. by rewrite app_nil_r.
  - unfold PlayoutBuffer.trim, queuedBy. cbn [flat_map]. rewrite app_nil_r.
    destruct (JS.isNaN start_ || JS.isNaN end'); [done|].
    destruct (JS.le _ _); [done|].
    by rewrite flush_not_ready.
  - rewrite flush_not_ready by done. unfold queuedBy. cbn. by rewrite app_nil_r.
Qed.

Lemma calls_not_ready cs (st : State) :
  ready st = false ->
  (calls cs st).2 = []
  /\ source (calls cs st).1 = source st
  /\ lastSegmentId (calls cs st).1 = lastSegmentId st
  /\ queue (calls cs st).1 = queue st ++ queuedBy cs.
Proof.
  revert st. induction cs as [|c cs IH]; intros st Hr.
  - cbn. by rewrite app_nil_r.
  - cbn [PlayoutBuffer.calls].
    destruct (call_not_ready c st Hr) as (Ht & Hs & Hl & Hq).
    destruct (call c st) as [st1 t1]. cbn [fst snd] in *.
    assert (Hr1 : ready st1 = false) by (unfold PlayoutBuffer.ready in *; by rewrite Hs).
    destruct (IH st1 Hr1) as (Ht2 & Hs2 & Hl2 & Hq2).
    destruct (calls cs st1) as [st2 t2]. cbn [fst snd] in *.
    subst. split; [done|]. split; [congruence|]. split; [congruence|].
    rewrite Hq2, Hq. unfold queuedBy. cbn [flat_map].
    by rewrite app_nil_r, <- app_assoc.
Qed.

(** X24.  While the adapter has no source, or its source is updating, no
    sequence of [enqueue], [trim] and [flush] calls touches the
    SourceBuffer: the segments pile up in the queue in call order, init
    payload before data, and the last-delivered id stays what it was.
    [close()] puts the adapter in that state for good: the queue is
    empty, the last-delivered id is null, and whatever is called on it
    afterwards, the SourceBuffer is never called again.  ([close] leaves
    the pending trim ranges as they are.) *)
Theorem not_ready_is_inert cs (st : State) :
  (ready st = false ->
   (calls cs st).2 = []
   /\ source (calls cs st).1 = source st
   /\ queue (calls cs st).1 = queue st ++ queuedBy cs
   /\ getBufferState (calls cs st).1
      = (List.length (queue st ++ queuedBy cs), lastSegmentId st))
  /\ getBufferState (close st) = (0%nat, None)
  /\ pendingTrimRanges (close st) = pendingTrimRanges st
  /\ (calls cs (close st)).2 = []
  /\ getBufferState (calls cs (close st)).1
     = (List.length (queuedBy cs), None).
Proof.
  split.
  - intros Hr. destruct (calls_not_ready cs st Hr) as (Ht & Hs & Hl & Hq).
    split; [done|]. split; [done|]. split; [done|].
    unfold getBufferState. by rewrite Hq, Hl.
  - split; [done|]. split; [done|].
    destruct (calls_not_ready cs (close st) eq_refl) as (Ht & Hs & Hl & Hq).
    split; [done|]. unfold getBufferState. by rewrite Hq, Hl.
Qed.

(** X25.  Segments enqueued before the MediaSource opens are kept, in
    order, and not sent anywhere; when [handleSourceOpen] gets its
    SourceBuffer, what it appends followed by what is still queued is
    what was queued, so nothing is lost or reordered.  When
    [addSourceBuffer] throws nothing changes, and an adapter that has its
    source ignores the event. *)
Theorem enqueue_before_open cs added (st : State) :
  source st = None ->
  let st1 := (calls cs st).1 in
  (calls cs st).2 = []
  /\ queue st1 = queue st ++ queuedBy cs
  /\ appendedOf (handleSourceOpen added st1).2
     ++ queue (handleSourceOpen added st1).1
     = queue st ++ queuedBy cs
  /\ (added = None -> handleSourceOpen added st1 = (st1, []))
  /\ (forall (st' : State) sb,
        source st' = Some sb -> handleSourceOpen added st' = (st', [])).
Proof.
  intros Hs st1.
  assert (Hr : ready st = false) by (unfold PlayoutBuffer.ready; by rewrite Hs).
  destruct (calls_not_ready cs st Hr) as (Ht & Hs1 & _ & Hq).
  fold st1 in Hs1, Hq. rewrite Hs in Hs1.
  split; [done|]. split; [done|]. split; [|split].
  - unfold PlayoutBuffer.handleSourceOpen. rewrite Hs1.
    destruct added as [sb|]; [|by cbn].
    rewrite (flush_fifo updating appendBuffer sbRemove). cbn. done.
  - intros ->. unfold PlayoutBuffer.handleSourceOpen. by rewrite Hs1.
  - intros st' sb Hs'. unfold PlayoutBuffer.handleSourceOpen. by rewrite Hs'.
Qed.

Section Conforming.
Hypothesis append_busy :
  forall d sb sb', appendBuffer d sb = Some sb' -> updating sb' = true.
Hypothesis remove_busy :
  forall s e sb sb', sbRemove s e sb = Some sb' -> updating sb' = true.

Lemma drain_busy snapshot (st : State) :
  ready st = false -> drain snapshot st = (st, []).
Proof.
  unfold PlayoutBuffer.ready. destruct snapshot as [|x snapshot]; [done|]. cbn.
  destruct (source st) as [sb|]; [|done]. by destruct (updating sb).
Qed.

Lemma drain_at_most_one snapshot (st : State) :
  (List.length (appendedOf (drain snapshot st).2) <= 1)%nat
  /\ removedOf (drain snapshot st).2 = []
  /\ (List.length (appendedOf (drain snapshot st).2) = 1%nat ->
      ready (drain snapshot st).1 = false).
Proof.
  revert st. induction snapshot as [|x snapshot IH]; intros st.
  - cbn. split; [lia|]. split; [done|]. intros; lia.
  - cbn [PlayoutBuffer.drain].
    destruct (source st) as [sb|] eqn:Hs.
    2: { cbn. split; [lia|]. split; [done|]. intros; lia. }
    destruct (updating sb) eqn:Hu.
    { cbn. split; [lia|]. split; [done|]. intros; lia. }
    destruct (queue st) as [|queued rest] eqn:Hq; [apply IH|].
    destruct (appendBuffer (q_data queued) sb) as [sb'|] eqn:Ha.
    + rewrite drain_busy.
      * cbn. split; [lia|]. split; [done|]. intros _. unfold PlayoutBuffer.ready. cbn.
        by rewrite (append_busy _ _ _ Ha).
      * unfold PlayoutBuffer.ready. cbn. by rewrite (append_busy _ _ _ Ha).
    + cbn. split; [lia|]. split; [done|]. intros; lia.
Qed.

(** X26.  With a SourceBuffer that is updating after every operation it
    accepts, as Media Source Extensions specify, one [flush] has at most
    one operation accepted, an append or a removal; and once it has, no
    call on the adapter reaches the SourceBuffer until the buffer is
    updating no more.  So data never goes to a busy buffer, and the rest
    of the queue waits for [updateend]. *)
Theorem one_operation_per_flush (st : State) :
  (List.length (appendedOf (flush st).2)
   + List.length (removedOf (flush st).2) <= 1)%nat
  /\ ((List.length (appendedOf (flush st).2)
       + List.length (removedOf (flush st).2) = 1)%nat ->
      ready (flush st).1 = false
      /\ forall cs, (calls cs (flush st).1).2 = []).
Proof.
  assert (Hmain :
    (List.length (appendedOf (flush st).2)
     + List.length (removedOf (flush st).2) <= 1)%nat
    /\ ((List.length (appendedOf (flush st).2)
         + List.length (removedOf (flush st).2) = 1)%nat ->
        ready (flush st).1 = false)).
  { unfold PlayoutBuffer.flush.
    destruct (source st) as [sb|] eqn:Hs; [|cbn; lia].
    destruct (updating sb) eqn:Hu; [cbn; lia|].
    assert (Happ : forall st0 : State,
      (List.length (appendedOf (flushAppends st0).2)
       + List.length (removedOf (flushAppends st0).2) <= 1)%nat
      /\ ((List.length (appendedOf (flushAppends st0).2)
           + List.length (removedOf (flushAppends st0).2) = 1)%nat ->
          ready (flushAppends st0).1 = false)).
    { intros st0. unfold PlayoutBuffer.flushAppends.
      destruct (queue st0) eqn:Hq0; [cbn; lia|]. rewrite <- Hq0.
      destruct (drain_at_most_one (queue st0) st0) as (Hle & Hrm & Hone).
      rewrite Hrm. cbn [List.length]. split; [lia|]. intros H1. apply Hone. lia. }
    destruct (pendingTrimRanges st) as [|range ranges]; [apply Happ|].
    destruct (sbRemove (start range) (end_ range) sb) as [sb'|] eqn:Hrm.
    - cbn. split; [lia|]. intros _. unfold PlayoutBuffer.ready. cbn.
      by rewrite (remove_busy _ _ _ _ Hrm).
    - destruct (Happ (withPendingTrimRanges ranges st)) as [Hle Hone].
      destruct (flushAppends (withPendingTrimRanges ranges st)) as [st2 t2].
      cbn [fst snd] in *. done. }
  destruct Hmain as [Hle Hone]. split; [done|]. intros H1.
  split; [by apply Hone|]. intros cs.
  by apply calls_not_ready, Hone.
Qed.

End Conforming.
End AnyAdapter.


Lemma mse_append_busy d sb sb' : mseAppend d sb = Some sb' -> mseUpdating sb' = true.
Proof.
  unfold mseAppend. destruct (mseUpdating sb); [done|].
  destruct (_ <? _)%nat; [done|]. by intros [= <-].
Qed.

Lemma mse_remove_busy s e sb sb' :
  mseRemove s e sb = Some sb' -> mseUpdating sb' = true.
Proof.
  unfold mseRemove. destruct (mseUpdating sb); [done|].
  destruct (negb _); [done|]. destruct (_ || _); [done|]. by intros [= <-].
Qed.

(** X24 at an example: calls on an adapter whose source has not opened. *)
Lemma not_ready_is_inert_witness :
  ready mseUpdating unopened = false
  /\ (calls mseUpdating mseAppend mseRemove
        [CallEnqueue (withInit 1); CallTrim (JS.Fin 0) (JS.Fin 5); CallFlush;
         CallEnqueue (plain 2)] unopened).2 = [].
Proof.
  split; [reflexivity|].
  exact (proj1 (proj1 (not_ready_is_inert mseUpdating mseAppend mseRemove
                         [CallEnqueue (withInit 1);
                          CallTrim (JS.Fin 0) (JS.Fin 5); CallFlush;
                          CallEnqueue (plain 2)] unopened) eq_refl)).
Defined.

(** X25 at an example. *)
Lemma enqueue_before_open_witness :
  source unopened = None
  /\ queue (calls mseUpdating mseAppend mseRemove
              [CallEnqueue (withInit 1); CallEnqueue (plain 2)] unopened).1
     = queue unopened ++ queuedBy [CallEnqueue (withInit 1); CallEnqueue (plain 2)].
Proof.
  split; [reflexivity|].
  exact (proj1 (proj2 (enqueue_before_open mseUpdating mseAppend mseRemove
                         [CallEnqueue (withInit 1); CallEnqueue (plain 2)]
                         (Some freshMse) unopened eq_refl))).
Defined.

Example enqueue_before_open_example :
  let st1 := (calls mseUpdating mseAppend mseRemove
                [CallEnqueue (withInit 1); CallEnqueue (plain 2)] unopened).1 in
  map isInit (queue st1) = [true; false; false]
  /\ map isInit (appendedOf
                   (handleSourceOpen mseUpdating mseAppend mseRemove
                      (Some freshMse) st1).2) = [true]
  /\ map isInit (queue (handleSourceOpen mseUpdating mseAppend mseRemove
                          (Some freshMse) st1).1) = [false; false].
Proof. repeat split; reflexivity. Qed.

(** X26 at an example: the Media Source buffer of the examples. *)
Lemma one_operation_per_flush_witness :
  (List.length (appendedOf (mseFlush trimAndSegmentQueued).2)
   + List.length (removedOf (mseFlush trimAndSegmentQueued).2) <= 1)%nat.
Proof.
  exact (proj1 (one_operation_per_flush mseUpdating mseAppend mseRemove
                  mse_append_busy mse_remove_busy trimAndSegmentQueued)).
Defined.

End AdapterFacts.
